(** * Website views: copy-on-write, copy-on-unlink and view resolution

    A shallow embedding of [addons/website/models/ir_ui_view.py] (the
    website extension of the model [ir.ui.view]) together with the
    properties of its specification.

    Records live in a store indexed by their database id; a recordset is a
    list of ids, and a field access reads the store at the time of the
    access.  Python [int]s are [Z]; a [Many2one] field is an [option Z]
    ([None] is the falsy empty reference); a [Char] field is a [string]. *)

From Stdlib Require Import ZArith String Ascii List Bool Lia DecimalString.
From Stdlib Require Import DecimalZ DecimalPos.
From stdpp Require Import base tactics option list gmap strings sorting.

Local Open Scope string_scope.
Local Open Scope list_scope.
Local Open Scope Z_scope.

(** ** Data model *)

(** A row of [ir.ui.view], restricted to the fields this module reads or
    writes.  [v_id] is the database id of the row.  An unset [key] is the
    empty string, which is falsy as the unset value [False] is; where the
    source sorts by the key or formats it, the model does with the empty
    string what Python does with [False]. *)
Record view := mkView {
  v_id : Z;
  v_name : string;
  v_key : string;
  v_website_id : option Z;
  v_theme_id : option Z;
  v_active : bool;
  v_priority : Z;
  v_inherit_id : option Z;
  v_model : string;
  v_arch : string;
}.

(** The part of [self._context] that the module consults.
    [ctx_website_id = None] means the key ['website_id'] is absent from the
    dictionary; [Some 0] stands for a present but falsy value.
    [ctx_module] is [install_mode_data['module']], the empty string when
    absent (the default of the two chained [get]s). *)
Record context := mkCtx {
  ctx_website_id : option Z;
  ctx_no_cow : bool;
  ctx_active_test : bool;
  ctx_module : string;
}.

(** ** Sorting and grouping primitives

    Python's [sorted] is a stable sort, and a stable sort is determined by
    its input and its key order; it is modelled by a stable insertion
    sort. *)
Section Sorting.
Context {A K : Type} (le : K → K → bool) (k : A → K).

Fixpoint insert_by (x : A) (l : list A) : list A :=
  match l with
  | [] => [x]
  | y :: l' => if le (k x) (k y) then x :: y :: l' else y :: insert_by x l'
  end.

Definition sorted_by (l : list A) : list A := foldr insert_by [] l.

(** The order on elements induced by the order on keys. *)
Definition le_key (x y : A) : Prop := le (k x) (k y) = true.
End Sorting.

(** [itertools.groupby]: the maximal runs of consecutive elements with
    equal keys, each with its key. *)
Section Groupby.
Context {A K : Type} `{EqDecision K} (k : A → K).

Fixpoint groupby (l : list A) : list (K * list A) :=
  match l with
  | [] => []
  | x :: l' =>
      match groupby l' with
      | (kx, g) :: gs =>
          if decide (k x = kx) then (kx, x :: g) :: gs
          else (k x, [x]) :: (kx, g) :: gs
      | [] => [(k x, [x])]
      end
  end.
End Groupby.

(** Comparison of the tuples used as sort keys (Python compares tuples
    lexicographically, and [False < True]). *)
Definition bool_to_Z (b : bool) : Z := if b then 1 else 0.

Definition pair_leb (p q : Z * Z) : bool :=
  (p.1 <? q.1) || ((p.1 =? q.1) && (p.2 <=? q.2)).

Definition suit_leb (p q : bool * Z) : bool :=
  pair_leb (bool_to_Z p.1, p.2) (bool_to_Z q.1, q.2).

(** ** Results of fallible operations *)

Inductive error :=
| MissingError        (* a record of the recordset is not in the store *)
| ExpectedSingleton   (* field access on a recordset of several records *)
| NotFound            (* [ValueError('View ... not found')] *)
| RecursionError      (* the call depth is exhausted *)
| TypeError.          (* ['<' not supported between 'bool' and 'str'] *)

Inductive result (A : Type) :=
| Ok (a : A)
| Err (e : error).
Arguments Ok {A} a.
Arguments Err {A} e.

Definition bind {A B} (m : result A) (f : A → result B) : result B :=
  match m with Ok a => f a | Err e => Err e end.

Notation "'do' x <- m ; k" := (bind m (λ x, k))
  (at level 10, x pattern, m at level 100, k at level 200).

(** A [for] loop over a list whose body threads a state and may fail. *)
Fixpoint for_each {A S} (body : A → S → result S) (l : list A) (s : S) : result S :=
  match l with
  | [] => Ok s
  | x :: l' => do s' <- body x s; for_each body l' s'
  end.

(** ** Suitability ranking *)

(** [_sort_suitability_key]: [self.env.context.get('website_id', 1)] falls
    back to 1 only when the key is absent. *)
Definition context_website_id (ctx : context) : Z :=
  default 1 (ctx_website_id ctx).

(** [self.website_id.id or 0] *)
Definition website_id_or_0 (v : view) : Z := default 0 (v_website_id v).

Definition _sort_suitability_key (ctx : context) (v : view) : bool * Z :=
  let website_id := website_id_or_0 v in
  let different_website := negb (context_website_id ctx =? website_id) in
  (different_website, website_id).

(** [sorted(group, key=...)[0]]; a group of [groupby] is never empty, so
    the index is always in range. *)
Definition most_suitable (ctx : context) (group : list view) : list view :=
  match sorted_by suit_leb (_sort_suitability_key ctx) group with
  | r :: _ => [r]
  | [] => []
  end.

(** The keys of the recordset can be compared with one another: all the
    views have a key, or none has.  Python refuses to compare the unset
    key [False] with a string. *)
Definition keys_comparable (self : list view) : bool :=
  forallb (λ v, bool_decide (v_key v = "")) self ||
  forallb (λ v, negb (bool_decide (v_key v = ""))) self.

(** [self.sorted('key')]: raises [TypeError] on a recordset that mixes
    views without key and views with a key. *)
Definition sorted_key (self : list view) : result (list view) :=
  if keys_comparable self then Ok (sorted_by String.leb v_key self)
  else Err TypeError.

Definition filter_duplicate (ctx : context) (self : list view)
  : result (list view) :=
  do sorted <- sorted_key self;
  let filtered :=
    flat_map (λ kg, most_suitable ctx kg.2) (groupby v_key sorted) in
  Ok (sorted_by pair_leb (λ v, (v_priority v, v_id v)) filtered).

(** The presentation order of views: by (priority, id) ascending. *)
Definition priority_id_le (a b : view) : Prop :=
  v_priority a < v_priority b ∨ (v_priority a = v_priority b ∧ v_id a ≤ v_id b).

(** ** The store *)

(** [website.page]: owned by a view through [view_id]. *)
Record page := mkPage {
  p_id : Z;
  p_view_id : Z;
  p_url : string;
}.

(** [website.menu]: points at a page; may be website specific. *)
Record menu := mkMenu {
  m_id : Z;
  m_page_id : option Z;
  m_website_id : option Z;
}.

(** [website]: its id and the themes enabled on it ([theme_ids.ids]). *)
Record website := mkWebsite {
  w_id : Z;
  w_theme_ids : list Z;
}.

(** [ir.module.module] *)
Record module := mkModule {
  mod_id : Z;
  mod_name : string;
}.

(** [ir.model.data]: the external ids. *)
Record model_data := mkModelData {
  imd_module : string;
  imd_name : string;
  imd_model : string;
  imd_res_id : Z;
}.

(** The tables, their id sequences, and [view_order]: the default order
    of [ir.ui.view] (the attribute [_order] that the source reads as
    [self._order], declared outside this module), given as the comparison
    by which a search without explicit order sorts its rows. *)
Record db := mkDb {
  views : gmap Z view;
  pages : gmap Z page;
  menus : gmap Z menu;
  websites : list website;
  modules : list module;
  ir_model_data : list model_data;
  next_view : Z;
  next_page : Z;
  next_menu : Z;
  view_order : view → view → bool;
}.

Definition set_views (f : gmap Z view → gmap Z view) (st : db) : db :=
  mkDb (f (views st)) (pages st) (menus st) (websites st) (modules st)
       (ir_model_data st) (next_view st) (next_page st) (next_menu st)
       (view_order st).

(** Consistency of the table of views: a row is stored under its own id,
    and ids are allocated below the sequence [next_view]. *)
Definition wf_views (st : db) : Prop :=
  ∀ i v, views st !! i = Some v → v_id v = i ∧ i < next_view st.

(** ** Field values written by [write] and [copy] *)

(** One entry of a [vals] dictionary for [ir.ui.view]; a dictionary is the
    list of its entries, and is applied entry by entry. *)
Inductive field_val :=
| FName (s : string)
| FKey (s : string)
| FWebsite (w : option Z)
| FTheme (t : option Z)
| FActive (b : bool)
| FPriority (p : Z)
| FInherit (i : option Z)
| FModel (s : string)
| FArch (s : string).

Definition set_field (v : view) (f : field_val) : view :=
  match f with
  | FName s => mkView (v_id v) s (v_key v) (v_website_id v) (v_theme_id v) (v_active v) (v_priority v) (v_inherit_id v) (v_model v) (v_arch v)
  | FKey s => mkView (v_id v) (v_name v) s (v_website_id v) (v_theme_id v) (v_active v) (v_priority v) (v_inherit_id v) (v_model v) (v_arch v)
  | FWebsite w => mkView (v_id v) (v_name v) (v_key v) w (v_theme_id v) (v_active v) (v_priority v) (v_inherit_id v) (v_model v) (v_arch v)
  | FTheme t => mkView (v_id v) (v_name v) (v_key v) (v_website_id v) t (v_active v) (v_priority v) (v_inherit_id v) (v_model v) (v_arch v)
  | FActive b => mkView (v_id v) (v_name v) (v_key v) (v_website_id v) (v_theme_id v) b (v_priority v) (v_inherit_id v) (v_model v) (v_arch v)
  | FPriority p => mkView (v_id v) (v_name v) (v_key v) (v_website_id v) (v_theme_id v) (v_active v) p (v_inherit_id v) (v_model v) (v_arch v)
  | FInherit i => mkView (v_id v) (v_name v) (v_key v) (v_website_id v) (v_theme_id v) (v_active v) (v_priority v) i (v_model v) (v_arch v)
  | FModel s => mkView (v_id v) (v_name v) (v_key v) (v_website_id v) (v_theme_id v) (v_active v) (v_priority v) (v_inherit_id v) s (v_arch v)
  | FArch s => mkView (v_id v) (v_name v) (v_key v) (v_website_id v) (v_theme_id v) (v_active v) (v_priority v) (v_inherit_id v) (v_model v) s
  end.

Definition apply_vals (vals : list field_val) (v : view) : view :=
  fold_left set_field vals v.

Definition with_id (i : Z) (v : view) : view :=
  mkView i (v_name v) (v_key v) (v_website_id v) (v_theme_id v) (v_active v)
         (v_priority v) (v_inherit_id v) (v_model v) (v_arch v).

(** ** Storage engine primitives *)

(** Reading a record of the recordset; a missing row raises. *)
Definition read (st : db) (i : Z) : result view :=
  match views st !! i with Some v => Ok v | None => Err MissingError end.

(** Field access on a recordset needs exactly one record
    ([ensure_one]). *)
Definition read_one (st : db) (self : list Z) : result view :=
  match self with
  | [i] => read st i
  | _ => Err ExpectedSingleton
  end.

(** Modelled from the spec: the storage engine's [write] on [ir.ui.view]
    (the [super().write] of the source), which applies the update
    directly to every record of the set. *)
Definition super_write (self : list Z) (vals : list field_val) (st : db) : result db :=
  for_each (λ i s, do v <- read s i;
                   Ok (set_views (insert i (apply_vals vals v)) s)) self st.

(** Modelled from the spec: the storage engine's [copy] on [ir.ui.view],
    which creates a new row duplicating the attributes of the record,
    overridden by [default]; the reverse field [inherit_children_ids] and
    [page_ids] are not duplicated.  Returns the id of the new row. *)
Definition copy (i : Z) (default : list field_val) (st : db) : result (db * Z) :=
  do v <- read st i;
  let n := next_view st in
  Ok (mkDb (<[n := apply_vals default (with_id n v)]> (views st)) (pages st)
           (menus st) (websites st) (modules st) (ir_model_data st)
           (n + 1) (next_page st) (next_menu st) (view_order st), n).

(** ** Search domains

    A domain is a list in prefix notation of operators and leaves
    [(field, operator, value)]; consecutive terms without operator are
    joined by an implicit conjunction. *)

Inductive vfield :=
| Fd_id | Fd_name | Fd_key | Fd_website_id | Fd_theme_id | Fd_active
| Fd_priority | Fd_inherit_id | Fd_model.

Inductive dop := OpEq | OpNe | OpIn.

(** Right-hand sides of leaves: [VRef None] is [False] as the empty
    reference; [VRefs] is a tuple or list of ids (with [False] as [None]). *)
Inductive dvalue :=
| VBool (b : bool)
| VRef (r : option Z)
| VStr (s : string)
| VRefs (l : list (option Z))
| VStrs (l : list string).

Inductive dterm :=
| DAnd | DOr | DNot
| DTrue                       (* TRUE_LEAF  (1, '=', 1) *)
| DFalse                      (* FALSE_LEAF (0, '=', 1) *)
| DLeaf (f : vfield) (op : dop) (v : dvalue).

Definition domain := list dterm.

Global Instance vfield_eq_dec : EqDecision vfield.
Proof. solve_decision. Defined.
Global Instance dop_eq_dec : EqDecision dop.
Proof. solve_decision. Defined.
Global Instance dvalue_eq_dec : EqDecision dvalue.
Proof. solve_decision. Defined.
Global Instance dterm_eq_dec : EqDecision dterm.
Proof. solve_decision. Defined.

Definition field_get (v : view) (f : vfield) : dvalue :=
  match f with
  | Fd_id => VRef (Some (v_id v))
  | Fd_name => VStr (v_name v)
  | Fd_key => VStr (v_key v)
  | Fd_website_id => VRef (v_website_id v)
  | Fd_theme_id => VRef (v_theme_id v)
  | Fd_active => VBool (v_active v)
  | Fd_priority => VRef (Some (v_priority v))
  | Fd_inherit_id => VRef (v_inherit_id v)
  | Fd_model => VStr (v_model v)
  end.

Definition value_in (x : dvalue) (vs : dvalue) : bool :=
  match x, vs with
  | VRef r, VRefs l => bool_decide (r ∈ l)
  | VStr s, VStrs l => bool_decide (s ∈ l)
  | _, _ => false
  end.

Definition eval_leaf (v : view) (f : vfield) (op : dop) (x : dvalue) : bool :=
  match op with
  | OpEq => bool_decide (field_get v f = x)
  | OpNe => negb (bool_decide (field_get v f = x))
  | OpIn => value_in (field_get v f) x
  end.

(** Evaluation of a prefix-notation domain on a record: the terms are
    consumed from the right with a stack of truth values; what remains on
    the stack is joined by the implicit conjunction.  An operator that
    lacks operands (a malformed domain) matches nothing. *)
Fixpoint eval_stack (v : view) (rts : list dterm) (stack : list bool) : option (list bool) :=
  match rts with
  | [] => Some stack
  | t :: rts' =>
      match t with
      | DLeaf f op x => eval_stack v rts' (eval_leaf v f op x :: stack)
      | DTrue => eval_stack v rts' (true :: stack)
      | DFalse => eval_stack v rts' (false :: stack)
      | DNot => match stack with
                | a :: s => eval_stack v rts' (negb a :: s)
                | _ => None
                end
      | DAnd => match stack with
                | a :: b :: s => eval_stack v rts' ((a && b) :: s)
                | _ => None
                end
      | DOr => match stack with
               | a :: b :: s => eval_stack v rts' ((a || b) :: s)
               | _ => None
               end
      end
  end.

Definition eval_domain (d : domain) (v : view) : bool :=
  match eval_stack v (rev d) [] with
  | Some stack => forallb (λ b, b) stack
  | None => false
  end.

(** Modelled from the spec: the domain-expression AND/OR combinators of
    the storage engine ([expression.normalize_domain], [expression.AND],
    [expression.OR]). *)
Definition is_leaf (t : dterm) : bool :=
  match t with DAnd | DOr | DNot => false | _ => true end.

Definition op_arity (t : dterm) : Z :=
  match t with DNot => 1 | DAnd | DOr => 2 | _ => 0 end.

Fixpoint normalize_loop (d : domain) (expected : Z) (result : domain) : domain :=
  match d with
  | [] => result
  | token :: d' =>
      let '(result, expected) :=
        if expected =? 0 then (DAnd :: result, 1) else (result, expected) in
      normalize_loop d'
        (if is_leaf token then expected - 1 else expected + op_arity token - 1)
        (result ++ [token])
  end.

Definition normalize_domain (d : domain) : domain :=
  match d with
  | [] => [DTrue]
  | _ => normalize_loop d 1 []
  end.

Fixpoint combine_loop (unit zero : domain) (domains : list domain)
    (result : domain) (count : nat) : option (domain * nat) :=
  match domains with
  | [] => Some (result, count)
  | d :: ds =>
      if decide (d = unit) then combine_loop unit zero ds result count
      else if decide (d = zero) then None
      else match d with
           | [] => combine_loop unit zero ds result count
           | _ => combine_loop unit zero ds (result ++ normalize_domain d) (S count)
           end
  end.

Definition combine (operator : dterm) (unit zero : domain) (domains : list domain) : domain :=
  match combine_loop unit zero domains [] 0 with
  | None => zero
  | Some (result, count) => replicate (count - 1)%nat operator ++ result
  end.

Definition expression_AND := combine DAnd [DTrue] [DFalse].
Definition expression_OR := combine DOr [DFalse] [DTrue].

(** ** Searching *)

(** The rows of a table in id order. *)
Definition rows {T : Type} (tid : T → Z) (table : gmap Z T) : list T :=
  sorted_by Z.leb tid (map snd (map_to_list table)).

(** The rows of [ir.ui.view] in id order. *)
Definition all_views (st : db) : list view := rows v_id (views st).

Inductive order :=
| OrderWebsite      (* order='website_id': website-specific rows first *)
| OrderDefault.     (* the model's [_order]: [view_order] of the store *)

Definition website_order_key (v : view) : Z * Z :=
  match v_website_id v with
  | Some w => (0, w)
  | None => (1, 0)
  end.

Definition order_views (default : view → view → bool) (o : order)
    (l : list view) : list view :=
  match o with
  | OrderWebsite => sorted_by pair_leb website_order_key l
  | OrderDefault => sorted_by default (λ v, v) l
  end.

Definition mentions_active (t : dterm) : bool :=
  match t with
  | DLeaf f _ _ => bool_decide (f = Fd_active)
  | _ => false
  end.

(** Modelled from the spec: the storage engine's [search] on
    [ir.ui.view].  Inactive rows are excluded unless the context disables
    [active_test] or the domain itself constrains [active]; the result is
    ordered, website-specific rows before generic ones for
    [order='website_id'], by the model's default order otherwise. *)
Definition effective_domain (ctx : context) (d : domain) : domain :=
  if ctx_active_test ctx && negb (existsb mentions_active d)
  then DLeaf Fd_active OpEq (VBool true) :: d else d.

Definition search_views (ctx : context) (d : domain) (o : order) (st : db) : list view :=
  order_views (view_order st) o
    (filter (λ v, eval_domain (effective_domain ctx d) v = true) (all_views st)).

Definition search (ctx : context) (d : domain) (o : order) (st : db) : list Z :=
  map v_id (search_views ctx d o st).

(** Truth value of a context entry or of a [Many2one] id. *)
Definition truthy (o : option Z) : bool :=
  match o with
  | Some z => negb (z =? 0)
  | None => false
  end.

(** [False] for a falsy id, as in [website_id or self.id]. *)
Definition ref_or_false (o : option Z) : option Z :=
  if truthy o then o else None.

(** Modelled from the spec: [website.website_domain], the filter selecting
    the website's own specific records or generic records. *)
Definition website_domain (website_id : option Z) : domain :=
  [DLeaf Fd_website_id OpIn (VRefs [None; ref_or_false website_id])].

(** Modelled from the spec: [self.env['website'].browse(id).theme_ids.ids],
    the themes enabled on the website; the empty recordset has no themes,
    a missing row raises on the field access. *)
Definition website_theme_ids (st : db) (website_id : option Z) : result (list Z) :=
  if truthy website_id then
    match filter (λ w, Some (w_id w) = website_id) (websites st) with
    | w :: _ => Ok (w_theme_ids w)
    | [] => Err MissingError
    end
  else Ok [].

(** ** Text helpers *)

(** ['theme_' in s] *)
Fixpoint str_in (pat s : string) : bool :=
  String.prefix pat s ||
  match s with
  | EmptyString => false
  | String _ s' => str_in pat s'
  end.

(** [str(i)] for an integer. *)
Definition str_of_Z (z : Z) : string :=
  NilZero.string_of_int (Z.to_int z).

(** [str(view.key)]: the unset key is [False]. *)
Definition str_of_key (key : string) : string :=
  if bool_decide (key = "") then "False" else key.

(** ['%s [website %s]' % (key, website_id)] *)
Definition cou_key (key : string) (website_id : Z) : string :=
  (str_of_key key ++ " [website " ++ str_of_Z website_id ++ "]")%string.

(** ** Pages and menus *)

(** [view.page_ids]: the pages owned by the view, in id order. *)
Definition page_ids (st : db) (view : Z) : list page :=
  filter (λ p, p_view_id p = view) (rows p_id (pages st)).

(** Modelled from the spec: [page.menu_ids], the menu entries pointing at
    the page, in id order. *)
Definition menu_ids (st : db) (page : Z) : list menu :=
  filter (λ m, m_page_id m = Some page) (rows m_id (menus st)).

(** Modelled from the spec: [website.page.copy({'view_id': ...})], a new
    page row owned by the given view. *)
Definition page_copy (p : page) (view_id : Z) (st : db) : db * Z :=
  let n := next_page st in
  (mkDb (views st) (<[n := mkPage n view_id (p_url p)]> (pages st)) (menus st)
        (websites st) (modules st) (ir_model_data st)
        (next_view st) (n + 1) (next_menu st) (view_order st), n).

(** Modelled from the spec: [website.menu.write({'page_id': ...})], which
    has its own copy-on-write: a generic menu written under a website
    context is forked for that website and the fork is updated; any other
    menu is updated in place. *)
Definition menu_cow (ctx : context) (m : menu) : bool :=
  negb (ctx_no_cow ctx) && truthy (ctx_website_id ctx)
  && negb (truthy (m_website_id m)).

Definition menu_write (ctx : context) (m : menu) (page_id : Z) (st : db) : db :=
  if menu_cow ctx m then
    let n := next_menu st in
    mkDb (views st) (pages st)
         (<[n := mkMenu n (Some page_id) (ctx_website_id ctx)]> (menus st))
         (websites st) (modules st) (ir_model_data st)
         (next_view st) (next_page st) (n + 1) (view_order st)
  else
    mkDb (views st) (pages st)
         (<[m_id m := mkMenu (m_id m) (Some page_id) (m_website_id m)]> (menus st))
         (websites st) (modules st) (ir_model_data st)
         (next_view st) (next_page st) (next_menu st) (view_order st).

(** The body of the loop over the pages: copy the page for the new view
    and write the new page on every menu entry of the page. *)
Definition copy_page_and_menus (ctx : context) (new_view : Z) (st : db)
    (page : page) : db :=
  let '(st, new_page) := page_copy page new_view st in
  (* trigger COW *)
  fold_left (λ st menu, menu_write ctx menu new_page st)
            (menu_ids st (p_id page)) st.

(** [_create_website_specific_pages_for_view] *)
Definition _create_website_specific_pages_for_view
    (ctx : context) (self : Z) (new_view : Z) (st : db) : db :=
  fold_left (copy_page_and_menus ctx new_view) (page_ids st self) st.

(** ** Copy-on-write *)

(** Modelled from the spec: [view.inherit_children_ids], the reverse of
    [inherit_id]: the views whose [inherit_id] is this view, in the
    model's order. *)
Definition inherit_children_ids (st : db) (view : Z) : list Z :=
  map v_id (order_views (view_order st) OrderDefault
              (filter (λ c, v_inherit_id c = Some view) (all_views st))).

(** [module_being_updated.id]: [False] on the empty recordset. *)
Definition recordset_id (ms : list module) : result (option Z) :=
  match ms with
  | [] => Ok None
  | [m] => Ok (Some (mod_id m))
  | _ => Err ExpectedSingleton
  end.

(** [xml_id and xml_id.module != theme_name] *)
Definition xml_id_of_other_module (xml_id : list model_data) (theme_name : string)
  : result bool :=
  match xml_id with
  | [] => Ok false
  | [x] => Ok (negb (bool_decide (imd_module x = theme_name)))
  | _ => Err ExpectedSingleton
  end.

(** [ir.model.data].search([('model', '=', 'ir.ui.view'),
                               ('res_id', '=', view.id)]) *)
Definition view_xml_ids (st : db) (view : Z) : list model_data :=
  filter (λ x, imd_model x = "ir.ui.view" ∧ imd_res_id x = view)
         (ir_model_data st).

(** The view has no external id, or its only external id belongs to the
    module [theme_name]. *)
Definition no_foreign_xml_id (st : db) (theme_name : string) (view : Z) : Prop :=
  view_xml_ids st view = [] ∨
  ∃ x, view_xml_ids st view = [x] ∧ imd_module x = theme_name.

(** [[('key', '=', view.key), ('theme_id', '=', module_being_updated.id)]] *)
Definition theme_fork_domain (key : string) (theme : option Z) : domain :=
  [DLeaf Fd_key OpEq (VStr key); DLeaf Fd_theme_id OpEq (VRef theme)].

(** [_get_theme_specific_view]: returns the recordset the write is
    diverted to. *)
Definition _get_theme_specific_view (ctx : context) (self : Z) (theme_name : string)
    (st : db) : result (db * list Z) :=
  let view := [self] in
  let module_being_updated :=
    filter (λ m, mod_name m = theme_name) (modules st) in
  let xml_id := view_xml_ids st self in
  do other <- xml_id_of_other_module xml_id theme_name;
  if other then
    do v <- read st self;
    do mid <- recordset_id module_being_updated;
    (* check if a previously copied view for this theme already exists *)
    let theme_specific_view :=
      search ctx (theme_fork_domain (v_key v) mid) OrderDefault st in
    match theme_specific_view with
    | [] => do (st, n) <- copy self [FTheme mid] st; Ok (st, [n])
    | [_] => Ok (st, theme_specific_view)
    | _ => (* the log call reads [view.name] and [view.id] *)
        Err ExpectedSingleton
    end
  else Ok (st, view).

(** The first part of the copy-on-write branch of [write] for one generic
    view under the website [current_website_id]: the view is copied for
    the website, its pages are copied, and the write of the new parent is
    issued on every inheriting view.  [write_rec] is the method [write]
    itself.  Returns the id of the new view. *)
Definition fork_and_propagate
    (write_rec : context → list Z → list field_val → db → result db)
    (ctx : context) (view : Z) (current_website_id : option Z) (st : db)
  : result (db * Z) :=
  do (st, new_website_specific_view) <-
    copy view [FWebsite current_website_id] st;
  let st := _create_website_specific_pages_for_view
              ctx view new_website_specific_view st in
  (* trigger COW on inheriting views *)
  do st <- for_each (λ inherit_child st,
               write_rec ctx [inherit_child]
                         [FInherit (Some new_website_specific_view)] st)
             (inherit_children_ids st view) st;
  Ok (st, new_website_specific_view).

(** The copy-on-write branch: after the fork, the requested values are
    written on the new view. *)
Definition write_fork (write_rec : context → list Z → list field_val → db → result db)
    (ctx : context) (vals : list field_val) (view : Z)
    (current_website_id : option Z) (st : db) : result db :=
  do (st, new_website_specific_view) <-
    fork_and_propagate write_rec ctx view current_website_id st;
  write_rec ctx [new_website_specific_view] vals st.

(** [not view.website_id] *)
Definition is_generic (v : view) : bool := negb (truthy (v_website_id v)).

(** The body of the loop [for view in self] of [write]; the loop carries
    [current_website_id], which a theme update resets to [False]. *)
Definition write_view (write_rec : context → list Z → list field_val → db → result db)
    (ctx : context) (vals : list field_val) (view : Z)
    (s : option Z * db) : result (option Z * db) :=
  let '(current_website_id, st) := s in
  let currently_updating := ctx_module ctx in
  do (current_website_id, view, st) <-
    (if str_in "theme_" currently_updating then
       do (st, view) <- _get_theme_specific_view ctx view currently_updating st;
       Ok (Some 0, view, st)
     else Ok (current_website_id, [view], st));
  (* if generic view in multi-website context *)
  do generic <-
    (if truthy current_website_id then
       do v <- read_one st view; Ok (is_generic v)
     else Ok false);
  if generic then
    match view with
    | [view] =>
        do st <- write_fork write_rec ctx vals view current_website_id st;
        Ok (current_website_id, st)
    | _ => Err ExpectedSingleton
    end
  else
    do st <- super_write view vals st;
    Ok (current_website_id, st).

(** [write]: the recursion depth is bounded by [fuel]; every nested call
    of [write] consumes one unit. *)
Fixpoint write (fuel : nat) (ctx : context) (self : list Z)
    (vals : list field_val) (st : db) : result db :=
  match fuel with
  | O => Err RecursionError
  | S fuel' =>
      if negb (ctx_no_cow ctx) then
        do r <- for_each (write_view (write fuel') ctx vals) self
                         (ctx_website_id ctx, st);
        Ok r.2
      else super_write self vals st
  end.

(** ** Copy-on-unlink *)

Definition with_website (ctx : context) (w : Z) : context :=
  mkCtx (Some w) (ctx_no_cow ctx) (ctx_active_test ctx) (ctx_module ctx).

Definition with_active_test (ctx : context) (b : bool) : context :=
  mkCtx (ctx_website_id ctx) (ctx_no_cow ctx) b (ctx_module ctx).

(** [self.filtered(lambda view: not view.website_id)] *)
Definition filtered_generic (st : db) (self : list Z) : result (list Z) :=
  for_each (λ i acc, do v <- read st i;
                     Ok (if truthy (v_website_id v) then acc else acc ++ [i]))
           self [].

(** [self.filtered('key').mapped('key')]: the keys of the records that
    have one, in the order of the recordset. *)
Definition mapped_keys (st : db) (self : list Z) : result (list string) :=
  for_each (λ i acc, do v <- read st i;
                     Ok (if bool_decide (v_key v = "") then acc
                         else acc ++ [v_key v]))
           self [].

(** Modelled from the spec: the storage engine's [unlink], which removes
    the rows of the set. *)
Definition super_unlink (self : list Z) (st : db) : db :=
  set_views (λ m, fold_left (λ m i, delete i m) self m) st.

(** The ids of a recordset without repetition, each at its first
    occurrence. *)
Definition ordered_set (ids : list Z) : list Z :=
  fold_left (λ acc x, if bool_decide (x ∈ acc) then acc else acc ++ [x]) ids [].

(** [self |= other]: union of recordsets, keeping the order. *)
Definition recordset_union (self other : list Z) : list Z :=
  ordered_set (self ++ other).

(** The first part of [unlink]: for every generic view of the set and
    every other website, the copy-on-write mechanism is reused to create
    a website-specific copy, by writing a key that embeds the website. *)
Definition cou_write (fuel : nat) (ctx : context) (view : Z) (website : website)
    (st : db) : result db :=
  do v <- read st view;
  (* reuse the COW mechanism to create website-specific copies *)
  write fuel (with_website ctx (w_id website)) [view]
        [FKey (cou_key (v_key v) (w_id website))] st.

Definition other_websites (st : db) (current_website_id : option Z) : list website :=
  filter (λ w, Some (w_id w) ≠ current_website_id) (websites st).

Definition cou_fork_others (fuel : nat) (ctx : context) (self : list Z) (st : db)
  : result db :=
  let current_website_id := ctx_website_id ctx in
  if truthy current_website_id && negb (ctx_no_cow ctx) then
    do generic <- filtered_generic st self;
    for_each (λ view st,
        for_each (cou_write fuel ctx view)
                 (other_websites st current_website_id) st)
      generic st
  else Ok st.

(** [unlink]: returns the store and the recordset that was deleted (the
    cache of key resolutions cleared at the end is not part of the
    store). *)
Definition unlink (fuel : nat) (ctx : context) (self : list Z) (st : db)
  : result (db * list Z) :=
  do st <- cou_fork_others fuel ctx self st;
  do keys <- mapped_keys st self;
  let self := recordset_union self
    (search (with_active_test ctx false)
            [DLeaf Fd_key OpIn (VStrs keys)] OrderDefault st) in
  Ok (super_unlink self st, self).

(** ** Resolution *)

(** [recordset.filter_duplicate()] on stored records. *)
Definition records (st : db) (ids : list Z) : list view :=
  omap (λ i, views st !! i) ids.

Definition filter_duplicate_ids (ctx : context) (st : db) (ids : list Z)
  : result (list Z) :=
  do filtered <- filter_duplicate ctx (records st ids);
  Ok (map v_id filtered).

(** The argument of [_view_obj] and [get_view_id]: a string key, an
    integer id, or any other object. *)
Inductive view_ref (A : Type) :=
| RefKey (key : string)
| RefId (i : Z)
| RefObj (a : A).
Arguments RefKey {A} key.
Arguments RefId {A} i.
Arguments RefObj {A} a.

(** Modelled from the spec: [self.env.ref(xml_id)], the external-reference
    lookup; it fails when the reference does not exist. *)
Definition env_ref (st : db) (xml_id : string) : result (list Z) :=
  match filter (λ x, (imd_module x ++ "." ++ imd_name x)%string = xml_id)
               (ir_model_data st) with
  | x :: _ => Ok [imd_res_id x]
  | [] => Err NotFound
  end.

(** The domain and the order that [_view_obj] searches for a key:
    ['website_id' in self._context] tests the presence of the entry. *)
Definition _view_obj_domain (ctx : context) (key : string) : domain * order :=
  if bool_decide (is_Some (ctx_website_id ctx)) then
    (DLeaf Fd_key OpEq (VStr key) :: website_domain (ctx_website_id ctx),
     OrderWebsite)
  else ([DLeaf Fd_key OpEq (VStr key)], OrderDefault).

(** [_view_obj]: a recordset for a key or an id, the argument itself
    otherwise. *)
Definition _view_obj {A} (ctx : context) (view_id : view_ref A) (st : db)
  : result (list Z + A) :=
  match view_id with
  | RefKey key =>
      let '(domain, order) := _view_obj_domain ctx key in
      let views := search ctx domain order st in
      match views with
      | _ :: _ => do r <- filter_duplicate_ids ctx st views; Ok (inl r)
      | [] => do r <- env_ref st key; Ok (inl r)
      end
  | RefId i => Ok (inl [i])
  | RefObj a => Ok (inr a)
  end.

(** Modelled from the spec: the inheritance domain of the storage engine
    (the [super()._get_inheriting_views_arch_domain]): the views that
    inherit from [view_id] for the model, with its filter on [active]. *)
Definition base_inheriting_views_arch_domain (view_id : Z) (model : string) : domain :=
  [DLeaf Fd_inherit_id OpEq (VRef (Some view_id));
   DLeaf Fd_model OpEq (VStr model);
   DLeaf Fd_active OpEq (VBool true)].

(** ['active' in leaf]: membership of the string in the leaf's tuple. *)
Definition active_in_leaf (t : dterm) : bool :=
  match t with
  | DLeaf f _ x => bool_decide (f = Fd_active) || bool_decide (x = VStr "active")
  | _ => false
  end.

(** [_get_inheriting_views_arch_domain] *)
Definition _get_inheriting_views_arch_domain (ctx : context) (view_id : Z)
    (model : string) (st : db) : result domain :=
  let domain := base_inheriting_views_arch_domain view_id model in
  let current_website := ctx_website_id ctx in
  let website_views_domain := website_domain current_website in
  (* when rendering for the website we have to include inactive views *)
  if truthy current_website then
    let domain := filter (λ leaf, active_in_leaf leaf = false) domain in
    do theme_ids <- website_theme_ids st current_website;
    let website_views_domain :=
      match theme_ids with
      | _ :: _ =>
          let theme_views_domain := [DLeaf Fd_theme_id OpIn (VRefs (Some <$> theme_ids))] in
          expression_OR [website_views_domain; theme_views_domain]
      | [] => website_views_domain
      end in
    Ok (expression_AND [website_views_domain; domain])
  else Ok (expression_AND [website_views_domain; domain]).

(** Modelled from the spec: the storage engine's
    [get_inheriting_views_arch], which searches the (overridden)
    inheritance domain in the model's order and returns the
    (arch, id) pairs; access groups are not part of the model. *)
Definition super_get_inheriting_views_arch (ctx : context) (view_id : Z)
    (model : string) (st : db) : result (list (string * Z)) :=
  do conditions <- _get_inheriting_views_arch_domain ctx view_id model st;
  Ok (map (λ v, (v_arch v, v_id v)) (search_views ctx conditions OrderDefault st)).

(** [get_inheriting_views_arch] *)
Definition get_inheriting_views_arch (ctx : context) (view_id : Z)
    (model : string) (st : db) : result (list (string * Z)) :=
  if negb (truthy (ctx_website_id ctx)) then
    super_get_inheriting_views_arch ctx view_id model st
  else
    do inheriting_views <-
      super_get_inheriting_views_arch (with_active_test ctx false) view_id model st;
    (* prefer inactive website-specific views over active generic ones *)
    do filtered <- filter_duplicate ctx (records st (map snd inheriting_views));
    let inheriting_views := filter (λ v, v_active v = true) filtered in
    Ok (map (λ v, (v_arch v, v_id v)) inheriting_views).

(** Modelled from the spec: the default (non-website) [get_view_id] of the
    storage engine: a numeric id is returned as it is, a key is searched
    and then looked up as an external reference. *)
Definition super_get_view_id {A} (ctx : context) (xml_id : view_ref A) (st : db)
  : result (Z + A) :=
  match xml_id with
  | RefId i => Ok (inl i)
  | RefKey key =>
      match search ctx [DLeaf Fd_key OpEq (VStr key)] OrderDefault st with
      | i :: _ => Ok (inl i)
      | [] => do r <- env_ref st key;
              match r with i :: _ => Ok (inl i) | [] => Err NotFound end
      end
  | RefObj a => Ok (inr a)
  end.

(** The domain searched by [get_view_id] in a website context. *)
Definition get_view_id_domain (theme_ids : list Z) (website_id : option Z)
    (key : string) : domain :=
  let key_domain := [DLeaf Fd_key OpEq (VStr key)] in
  let theme_views_domain := [DLeaf Fd_theme_id OpIn (VRefs (Some <$> theme_ids))] in
  let website_views_domain :=
    DLeaf Fd_theme_id OpEq (VRef None) :: website_domain website_id in
  expression_AND [expression_OR [theme_views_domain; website_views_domain]; key_domain].

(** [get_view_id] (the memoizing cache is transparent and not modelled). *)
Definition get_view_id (ctx : context) (xml_id : view_ref Empty_set) (st : db)
  : result Z :=
  match ctx_website_id ctx, xml_id with
  | Some _, RefKey key =>
      do theme_ids <- website_theme_ids st (ctx_website_id ctx);
      let domain := get_view_id_domain theme_ids (ctx_website_id ctx) key in
      match search ctx domain OrderWebsite st with
      | view :: _ => Ok view
      | [] => Err NotFound
      end
  | _, _ =>
      do r <- super_get_view_id ctx xml_id st;
      match r with inl i => Ok i | inr a => match a with end end
  end.

(** ** Predicates used in the statements *)

(** What [filter_duplicate] returns when the sort by key succeeds. *)
Definition collapsed (ctx : context) (self : list view) : list view :=
  sorted_by pair_leb (λ v, (v_priority v, v_id v))
    (flat_map (λ kg, most_suitable ctx kg.2)
              (groupby v_key (sorted_by String.leb v_key self))).

(** The record passes the implicit active filter of a search. *)
Definition visible (ctx : context) (v : view) : Prop :=
  ctx_active_test ctx = true → v_active v = true.

(** What the domain of [get_view_id] asks of a record: the key, and either
    a theme enabled on the website, or no theme and a scope that is
    generic or the website itself. *)
Definition get_view_id_match (theme_ids : list Z) (website_id : option Z)
    (key : string) (v : view) : Prop :=
  v_key v = key ∧
  ((∃ t, v_theme_id v = Some t ∧ t ∈ theme_ids) ∨
   (v_theme_id v = None ∧
    (v_website_id v = None ∨ v_website_id v = ref_or_false website_id))).

(** What the domain of [_view_obj] asks of a record: the key and, when the
    context has a website entry, a scope that is generic or that
    website. *)
Definition _view_obj_match (ctx : context) (key : string) (v : view) : Prop :=
  v_key v = key ∧
  (is_Some (ctx_website_id ctx) →
   v_website_id v = None ∨ v_website_id v = ref_or_false (ctx_website_id ctx)).

(** The order of [order='website_id']: website-specific records by
    website id, then generic records. *)
Definition website_order_le (a b : view) : Prop :=
  match v_website_id a, v_website_id b with
  | Some wa, Some wb => wa ≤ wb
  | Some _, None => True
  | None, Some _ => False
  | None, None => True
  end.

(** Consistency of the tables of pages and menus. *)
Definition wf_pages (st : db) : Prop :=
  ∀ k p, pages st !! k = Some p → p_id p = k ∧ k < next_page st.

Definition wf_menus (st : db) : Prop :=
  ∀ j m, menus st !! j = Some m → m_id m = j ∧ j < next_menu st.

(** The effect, between [st] and [st'], of writing the new page [k'] on
    the menu entry [m] stored under [j]: a generic menu under a website
    context stays and a new entry for the website points at the new page;
    any other menu is moved to the new page. *)
Definition menu_rewritten (ctx : context) (st st' : db) (j : Z) (m : menu) (k' : Z)
  : Prop :=
  if menu_cow ctx m then
    menus st' !! j = Some m ∧
    ∃ j', next_menu st ≤ j' < next_menu st' ∧
          menus st' !! j' = Some (mkMenu j' (Some k') (ctx_website_id ctx))
  else menus st' !! j = Some (mkMenu j (Some k') (m_website_id m)).

(** *** Copy-on-write *)

(** A context in which [write] takes the copy-on-write path for generic
    views: no bypass flag, no theme update, a current website [w]. *)
Definition cow_context (ctx : context) (w : Z) : Prop :=
  ctx_no_cow ctx = false ∧
  str_in "theme_" (ctx_module ctx) = false ∧
  ctx_website_id ctx = Some w ∧ w ≠ 0.

(** The inheritance of generic views is well founded: [rank] decreases
    from a view to the generic views that inherit from it. *)
Definition rank_ok (rank : Z → nat) (st : db) : Prop :=
  ∀ c vc p, views st !! c = Some vc → is_generic vc = true →
            v_inherit_id vc = Some p → (rank c < rank p)%nat.

(** The copy of [v] for website [w] stored under the id [n]. *)
Definition fork_of (v : view) (n w : Z) : view :=
  apply_vals [FWebsite (Some w)] (with_id n v).

Definition same_except_parent (v v' : view) : Prop :=
  ∃ q, v' = set_field v (FInherit q).

(** What every copy-on-write step guarantees between the store before and
    after: ids are only allocated, generic views are untouched, existing
    views change at most their parent, and no generic view appears. *)
Definition evolves (st st' : db) : Prop :=
  next_view st ≤ next_view st' ∧
  websites st' = websites st ∧
  (∀ x vx, views st !! x = Some vx → is_generic vx = true →
           views st' !! x = Some vx) ∧
  (∀ x vx, views st !! x = Some vx →
           ∃ vx', views st' !! x = Some vx' ∧ same_except_parent vx vx') ∧
  (∀ x vx', views st' !! x = Some vx' → is_generic vx' = true →
            views st !! x = Some vx').

(** A menu entry that no fork under a website context rewrites: a generic
    entry (it is copied, not changed), or an entry of a page owned by a
    website-specific view (such a view is never forked). *)
Definition protected_menu (st : db) (m : menu) : Prop :=
  truthy (m_website_id m) = false ∨
  ∃ k pk vo, m_page_id m = Some k ∧ pages st !! k = Some pk ∧
             views st !! p_view_id pk = Some vo ∧ is_generic vo = false.

(** What every copy-on-write step guarantees on pages and menus: pages
    are only added, protected menu entries are untouched. *)
Definition pm_evolves (st st' : db) : Prop :=
  wf_pages st → wf_menus st →
  wf_pages st' ∧ wf_menus st' ∧
  next_page st ≤ next_page st' ∧ next_menu st ≤ next_menu st' ∧
  (∀ k p, pages st !! k = Some p → pages st' !! k = Some p) ∧
  (∀ j m, menus st !! j = Some m → protected_menu st m →
          menus st' !! j = Some m).

(** The record stored under [i] is a generic view. *)
Definition generic_at (st : db) (i : Z) : bool :=
  match views st !! i with
  | Some v => is_generic v
  | None => false
  end.

(** [f] is a copy of [v] made by copy-on-unlink for the website [b]: the
    fields of [v] with the website set and the key renamed; its parent
    may have been rewritten since. *)
Definition cou_copy (v : view) (b : Z) (f : view) : Prop :=
  ∃ q, f = mkView (v_id f) (v_name v) (cou_key (v_key v) b) (Some b)
                  (v_theme_id v) (v_active v) (v_priority v) q
                  (v_model v) (v_arch v).

(** The views that a fork of a view of rank [r] may re-parent: those whose
    parent is a generic view of rank at most [r]. *)
Definition touchable (rank : Z → nat) (st : db) (r : nat) (x : Z) : Prop :=
  ∃ vx d vd, views st !! x = Some vx ∧ v_inherit_id vx = Some d ∧
             views st !! d = Some vd ∧ is_generic vd = true ∧ (rank d ≤ r)%nat.

(** The state [st'] reached from [st] by forking the generic view [i]
    (with record [v]) for website [w] into the new view [n]. *)
Definition forked (rank : Z → nat) (ctx : context) (w : Z) (st st' : db)
    (i : Z) (v : view) (n : Z) : Prop :=
  wf_views st' ∧ evolves st st' ∧ pm_evolves st st' ∧
  n = next_view st ∧ n < next_view st' ∧
  views st' !! n = Some (fork_of v n w) ∧
  (∀ x vx, views st !! x = Some vx → ¬ touchable rank st (rank i) x →
           views st' !! x = Some vx) ∧
  (∀ c vc, views st !! c = Some vc → v_inherit_id vc = Some i →
     if is_generic vc
     then ∃ c', n < c' < next_view st' ∧
                views st' !! c' = Some (set_field (fork_of vc c' w) (FInherit (Some n)))
     else views st' !! c = Some (set_field vc (FInherit (Some n)))) ∧
  (wf_pages st → wf_menus st →
   ∀ k p, pages st !! k = Some p → p_view_id p = i →
     ∃ k', next_page st ≤ k' < next_page st' ∧
           pages st' !! k' = Some (mkPage k' n (p_url p)) ∧
           ∀ j m, menus st !! j = Some m → m_page_id m = Some k →
                  menu_rewritten ctx st st' j m k').

(** The state [st'] reached from [st] by the write of the parent [q] on
    the view [c] (with record [vc]) under website [w]: a generic view is
    forked and the fork gets the parent, any other view is updated in
    place. *)
Definition reparented (rank : Z → nat) (w : Z) (st st' : db) (c : Z) (vc : view)
    (q : option Z) : Prop :=
  wf_views st' ∧ evolves st st' ∧ pm_evolves st st' ∧
  if is_generic vc then
    (∀ x vx, views st !! x = Some vx → ¬ touchable rank st (rank c) x →
             views st' !! x = Some vx) ∧
    next_view st < next_view st' ∧
    views st' !! next_view st =
      Some (set_field (fork_of vc (next_view st) w) (FInherit q))
  else
    views st' = <[c := set_field vc (FInherit q)]> (views st) ∧
    next_view st' = next_view st.

(** ** A sample database

    Three websites; a generic page view 1 (external id [website.page]), a
    generic inheriting view 2, an inheriting view 3 specific to website 2;
    one page with one menu entry on view 1; the theme module [theme_x]. *)

Definition ex_view (i : Z) (key : string) (website : option Z)
    (inherit : option Z) (active : bool) : view :=
  mkView i "name" key website None active 16 inherit "ir.ui.view" "<t/>".

(** The default order taken for the sample stores: by (priority, id). *)
Definition ex_order (a b : view) : bool :=
  pair_leb (v_priority a, v_id a) (v_priority b, v_id b).

Definition ex_db : db :=
  mkDb (list_to_map [(1, ex_view 1 "website.page" None None true);
                     (2, ex_view 2 "website.child" None (Some 1) true);
                     (3, ex_view 3 "website.custom" (Some 2) (Some 1) true)])
       (list_to_map [(1, mkPage 1 1 "/page")])
       (list_to_map [(1, mkMenu 1 (Some 1) None)])
       [mkWebsite 1 []; mkWebsite 2 []; mkWebsite 3 []]
       [mkModule 7 "theme_x"]
       [mkModelData "website" "page" "ir.ui.view" 1]
       4 2 2 ex_order.

(** A base view 10 with two inheriting views of the same key: 11 generic and
    active, 12 specific to website 1 and inactive. *)
Definition ex_db_inherit : db :=
  mkDb (list_to_map [(10, ex_view 10 "website.layout" None None true);
                     (11, ex_view 11 "website.patch" None (Some 10) true);
                     (12, ex_view 12 "website.patch" (Some 1) (Some 10) false)])
       ∅ ∅ [mkWebsite 1 []; mkWebsite 2 []] [] [] 13 1 1 ex_order.

(** Two generic views, the key of the second being the key that
    copy-on-unlink gives to the copy of the first for website 2. *)
Definition ex_db_collide : db :=
  mkDb (list_to_map [(1, ex_view 1 "k" None None true);
                     (2, ex_view 2 "k [website 2]" None None true)])
       ∅ ∅ [mkWebsite 1 []; mkWebsite 2 []; mkWebsite 3 []] [] [] 3 1 1 ex_order.

(** A rank for the inheritance of [ex_db]: view 1 above its children. *)
Definition ex_rank (i : Z) : nat := if decide (i = 1) then 1%nat else 0%nat.

(** Contexts: website 1; no website; website 1 during the update of the
    theme [theme_x]. *)
Definition ex_ctx : context := mkCtx (Some 1) false true "".
Definition ex_ctx_none : context := mkCtx None false true "".
Definition ex_ctx_theme : context := mkCtx (Some 1) false true "theme_x".
Definition ex_ctx_2 : context := mkCtx (Some 2) false true "".

(** ** Related views *)

(** [any(view.key == view2.key and view2.website_id and
         view2.website_id.id == current_website_id for view2 in views)]:
    the records are read in order, up to the first one that matches. *)
Fixpoint any_specific_with_key (st : db) (key : string)
    (current_website_id : option Z) (views : list Z) : result bool :=
  match views with
  | [] => Ok false
  | view2 :: views' =>
      do v2 <- read st view2;
      if bool_decide (key = v_key v2) && truthy (v_website_id v2)
         && bool_decide (v_website_id v2 = current_website_id)
      then Ok true
      else any_specific_with_key st key current_website_id views'
  end.

(** The body of the loop [for view in views] of [get_related_views]. *)
Definition keep_most_specific (st : db) (current_website_id : option Z)
    (views : list Z) (view : Z) (most_specific_views : list Z)
  : result (list Z) :=
  do v <- read st view;
  if truthy (v_website_id v) && bool_decide (v_website_id v = current_website_id)
  then Ok (recordset_union most_specific_views [view])
  else if negb (truthy (v_website_id v)) then
    do shadowed <- any_specific_with_key st (v_key v) current_website_id views;
    Ok (if negb shadowed then recordset_union most_specific_views [view]
        else most_specific_views)
  else Ok most_specific_views.

(** [get_related_views].  The id of the current website
    ([self.env['website'].get_current_website().id]) and the storage
    engine's [get_related_views] for the key (the [super()] call, which
    runs under the context extended with that website) are arguments. *)
Definition get_related_views (ctx : context) (current_website : Z)
    (super_get_related_views : context → db → result (list Z)) (st : db)
  : result (list Z) :=
  let ctx := with_website ctx current_website in
  do views <- super_get_related_views ctx st;
  let current_website_id := ctx_website_id ctx in
  if negb (truthy current_website_id) then Ok views
  else for_each (keep_most_specific st current_website_id views) views [].

(** ** Rendering context *)

(** The entries of the context that [render] reads or sets. *)
Record render_ctx := mkRenderCtx {
  rc_lang : option string;              (* [lang] *)
  rc_rendering_bundle : bool;           (* truth value of [rendering_bundle] *)
  rc_inherit_branding : option bool;
  rc_inherit_branding_auto : option bool;
}.

(** What [render] reads from the HTTP request. *)
Record request := mkRequest {
  rq_is_frontend : bool;                (* [getattr(request, 'is_frontend', False)] *)
  rq_is_publisher : bool;               (* [request.website.is_publisher()] *)
  rq_default_lang_code : string;        (* [request.website.default_lang_code] *)
  rq_group_publisher : bool;            (* [has_group('website.group_website_publisher')] *)
}.

(** The context under which [render] calls the storage engine's [render];
    [request] is [None] outside an HTTP request. *)
Definition render_context (request : option request) (ctx : render_ctx) : render_ctx :=
  let new_context := ctx in
  match request with
  | Some request =>
      if rq_is_frontend request then
        let editable := rq_is_publisher request in
        let translatable :=
          editable &&
          negb (bool_decide (rc_lang ctx = Some (rq_default_lang_code request))) in
        let editable := negb translatable && editable in
        (* in edit mode ir.ui.view will tag nodes *)
        if negb translatable && negb (rc_rendering_bundle ctx) then
          if editable then
            mkRenderCtx (rc_lang ctx) (rc_rendering_bundle ctx) (Some true)
                        (rc_inherit_branding_auto ctx)
          else if rq_group_publisher request then
            mkRenderCtx (rc_lang ctx) (rc_rendering_bundle ctx)
                        (rc_inherit_branding ctx) (Some true)
          else new_context
        else new_context
      else new_context
  | None => new_context
  end.

(** ** Predicates on copies *)

(** Every view that [st'] stores and [st] does not is, up to its parent,
    the copy for website [w] of a generic view of [st] of rank below
    [r]. *)
Definition new_copies (rank : Z → nat) (w : Z) (r : nat) (st st' : db) : Prop :=
  ∀ x vx', views st' !! x = Some vx' → views st !! x = None →
    ∃ y vy, views st !! y = Some vy ∧ is_generic vy = true ∧
            (rank y < r)%nat ∧ same_except_parent (fork_of vy x w) vx'.

(** ** Further sample data *)

(** [ex_db] with a second external id on view 1. *)
Definition ex_db_two_ids : db :=
  mkDb (views ex_db) (pages ex_db) (menus ex_db) (websites ex_db) (modules ex_db)
       [mkModelData "website" "page" "ir.ui.view" 1;
        mkModelData "website_blog" "page" "ir.ui.view" 1]
       (next_view ex_db) (next_page ex_db) (next_menu ex_db) ex_order.

(** Website 1 with the active filter of searches disabled. *)
Definition ex_ctx_all : context := mkCtx (Some 1) false false "".

(** A store whose only view is generic and inactive. *)
Definition ex_db_hidden : db :=
  mkDb (list_to_map [(20, ex_view 20 "website.hidden" None None false)])
       ∅ ∅ [mkWebsite 1 []] [] [] 21 1 1 ex_order.

(** * Properties *)

(** ** The sorting primitives *)

Section SortingFacts.
Context {A K : Type} (le : K → K → bool) (k : A → K).
Hypothesis le_total : ∀ a b, le a b = true ∨ le b a = true.
Hypothesis le_trans : ∀ a b c, le a b = true → le b c = true → le a c = true.

Lemma insert_by_perm x l : insert_by le k x l ≡ₚ x :: l.
Proof.
  induction l as [|y l IH]; simpl; [done|].
  destruct (le (k x) (k y)); [done|].
  rewrite IH. apply Permutation_swap.
Qed.

Lemma sorted_by_perm l : sorted_by le k l ≡ₚ l.
Proof.
  induction l as [|x l IH]; simpl; [done|].
  unfold sorted_by in *. simpl. rewrite insert_by_perm. by rewrite IH.
Qed.

Lemma elem_of_sorted_by x l : x ∈ sorted_by le k l ↔ x ∈ l.
Proof. by rewrite sorted_by_perm. Qed.

Lemma insert_by_sorted x l :
  StronglySorted (le_key le k) l → StronglySorted (le_key le k) (insert_by le k x l).
Proof using le_total le_trans.
  induction 1 as [|y l Hs IH Hy]; simpl.
  - repeat constructor.
  - destruct (le (k x) (k y)) eqn:E.
    + constructor; [by constructor|].
      constructor; [done|].
      eapply Forall_impl; [exact Hy|]. intros z Hz. unfold le_key in *. eauto.
    + constructor; [done|].
      rewrite insert_by_perm. constructor; [|done].
      unfold le_key. destruct (le_total (k x) (k y)); congruence.
Qed.

Lemma sorted_by_sorted l : StronglySorted (le_key le k) (sorted_by le k l).
Proof using le_total le_trans.
  induction l as [|x l IH]; [constructor|].
  unfold sorted_by in *. simpl. by apply insert_by_sorted.
Qed.

(** The head of a sorted list is a least element of the input. *)
Lemma sorted_by_head r rest l :
  sorted_by le k l = r :: rest →
  r ∈ l ∧ ∀ x, x ∈ l → le (k r) (k x) = true.
Proof using le_total le_trans.
  intros E. pose proof (sorted_by_sorted l) as Hs.
  pose proof (sorted_by_perm l) as Hp. rewrite E in Hs, Hp.
  split; [rewrite <- Hp; left|].
  intros x Hx. rewrite <- Hp in Hx.
  apply StronglySorted_inv in Hs as [_ Hall].
  apply elem_of_cons in Hx as [->|Hx].
  - destruct (le_total (k r) (k r)); done.
  - by eapply Forall_forall in Hall.
Qed.

Lemma sorted_by_nonempty x l : sorted_by le k (x :: l) ≠ [].
Proof.
  intros E. pose proof (sorted_by_perm (x :: l)) as Hp. rewrite E in Hp.
  by apply Permutation_nil_cons in Hp.
Qed.
End SortingFacts.

(** ** The orders used as sort keys *)

Lemma pair_leb_total p q : pair_leb p q = true ∨ pair_leb q p = true.
Proof. unfold pair_leb. destruct p, q; simpl. lia. Qed.

Lemma pair_leb_trans p q r :
  pair_leb p q = true → pair_leb q r = true → pair_leb p r = true.
Proof. unfold pair_leb. destruct p, q, r; simpl. lia. Qed.

Lemma suit_leb_total p q : suit_leb p q = true ∨ suit_leb q p = true.
Proof. apply pair_leb_total. Qed.

Lemma suit_leb_trans p q r :
  suit_leb p q = true → suit_leb q r = true → suit_leb p r = true.
Proof. apply pair_leb_trans. Qed.

Lemma Z_leb_total (a b : Z) : (a <=? b) = true ∨ (b <=? a) = true.
Proof. lia. Qed.

Lemma Z_leb_trans (a b c : Z) :
  (a <=? b) = true → (b <=? c) = true → (a <=? c) = true.
Proof. lia. Qed.

Lemma ascii_compare_refl a : Ascii.compare a a = Eq.
Proof. unfold Ascii.compare. apply N.compare_refl. Qed.

Lemma string_compare_refl s : String.compare s s = Eq.
Proof. induction s; simpl; [done|]. by rewrite ascii_compare_refl. Qed.

Lemma ascii_compare_trans_lt a b c :
  Ascii.compare a b = Lt → Ascii.compare b c = Lt → Ascii.compare a c = Lt.
Proof.
  unfold Ascii.compare. rewrite !N.compare_lt_iff. lia.
Qed.

Lemma string_compare_trans_lt s1 : ∀ s2 s3,
  String.compare s1 s2 = Lt → String.compare s2 s3 = Lt →
  String.compare s1 s3 = Lt.
Proof.
  induction s1 as [|a s1 IH]; intros [|b s2] [|c s3]; simpl; try done.
  destruct (Ascii.compare a b) eqn:Eab; try done;
    destruct (Ascii.compare b c) eqn:Ebc; try done.
  - apply Ascii.compare_eq_iff in Eab, Ebc. subst.
    rewrite ascii_compare_refl. apply IH.
  - apply Ascii.compare_eq_iff in Eab. subst. by rewrite Ebc.
  - apply Ascii.compare_eq_iff in Ebc. subst. by rewrite Eab.
  - by rewrite (ascii_compare_trans_lt _ _ _ Eab Ebc).
Qed.

Lemma string_leb_trans s1 s2 s3 :
  String.leb s1 s2 = true → String.leb s2 s3 = true → String.leb s1 s3 = true.
Proof.
  unfold String.leb.
  destruct (String.compare s1 s2) eqn:E12; try done;
    destruct (String.compare s2 s3) eqn:E23; try done; intros _ _.
  - apply String.compare_eq_iff in E12, E23. subst.
    by rewrite string_compare_refl.
  - apply String.compare_eq_iff in E12. subst. by rewrite E23.
  - apply String.compare_eq_iff in E23. subst. by rewrite E12.
  - by rewrite (string_compare_trans_lt _ _ _ E12 E23).
Qed.

(** ** Grouping *)

Section GroupbyFacts.
Context {A K : Type} `{EqDecision K} (k : A → K).

Lemma groupby_cons x l :
  ∃ g gs, groupby k (x :: l) = (k x, x :: g) :: gs.
Proof.
  simpl. destruct (groupby k l) as [|[kx g] gs]; [by eexists _, _|].
  case_decide; subst; by eexists _, _.
Qed.

Lemma groupby_concat l : concat (snd <$> groupby k l) = l.
Proof.
  induction l as [|x l IH]; simpl; [done|].
  destruct (groupby k l) as [|[kx g] gs]; simpl in *; [by subst|].
  case_decide; simpl; by rewrite <- IH.
Qed.

Lemma groupby_group kg g l :
  (kg, g) ∈ groupby k l → g ≠ [] ∧ (∀ x, x ∈ g → k x = kg ∧ x ∈ l).
Proof.
  revert kg g. induction l as [|x l IH]; simpl; intros kg g Hin.
  { by apply elem_of_nil in Hin. }
  destruct (groupby k l) as [|[kx gx] gs] eqn:E.
  - apply list_elem_of_singleton in Hin. injection Hin as -> ->.
    split; [done|]. intros y Hy. apply list_elem_of_singleton in Hy as ->.
    split; [done|left].
  - assert (∀ kg g, (kg, g) ∈ (kx, gx) :: gs →
              g ≠ [] ∧ ∀ y, y ∈ g → k y = kg ∧ y ∈ x :: l) as IH'.
    { intros kg' g' H'. destruct (IH _ _ H') as [? Hg]. split; [done|].
      intros y Hy. destruct (Hg y Hy). split; [done|by right]. }
    case_decide as Hk.
    + apply elem_of_cons in Hin as [Hin|Hin].
      * injection Hin as -> ->. split; [done|].
        intros y Hy. apply elem_of_cons in Hy as [->|Hy].
        -- split; [done|left].
        -- apply (IH' kx gx); [left|done].
      * apply IH'. by right.
    + apply elem_of_cons in Hin as [Hin|Hin].
      * injection Hin as -> ->. split; [done|].
        intros y Hy. apply list_elem_of_singleton in Hy as ->.
        split; [done|left].
      * by apply IH'.
Qed.

Lemma groupby_covers x l :
  x ∈ l → ∃ g, (k x, g) ∈ groupby k l ∧ x ∈ g.
Proof.
  intros Hx. rewrite <- (groupby_concat l) in Hx.
  apply list_elem_of_In, in_concat in Hx as (g & Hg & Hxg).
  apply list_elem_of_In in Hg, Hxg.
  apply list_elem_of_fmap in Hg as ([kg g'] & -> & Hg). simpl in *.
  destruct (groupby_group _ _ _ Hg) as [_ Hk].
  destruct (Hk x Hxg) as [<- _]. eauto.
Qed.

Context (le : K → K → bool).
Hypothesis le_antisym : ∀ a b, le a b = true → le b a = true → a = b.

(** On a list sorted by key the groups have pairwise distinct keys. *)
Lemma groupby_sorted_NoDup l :
  StronglySorted (le_key le k) l → NoDup (fst <$> groupby k l).
Proof using le_antisym.
  induction 1 as [|x l Hs IH Hx]; [constructor|].
  destruct l as [|z l]; [simpl; repeat constructor; by intros ?%elem_of_nil|].
  destruct (groupby_cons z l) as (g & gs & E).
  change (groupby k (x :: z :: l)) with
    (match groupby k (z :: l) with
     | (kx, g) :: gs => if decide (k x = kx) then (kx, x :: g) :: gs
                        else (k x, [x]) :: (kx, g) :: gs
     | [] => [(k x, [x])] end).
  rewrite E in IH |- *. case_decide as Hk; [done|].
  simpl. constructor; [|done].
  intros Hin. change (k x ∈ fst <$> ((k z, z :: g) :: gs)) in Hin.
  apply list_elem_of_fmap in Hin as ([ky gy] & Eky & Hin). simpl in Eky. subst ky.
  rewrite <- E in Hin.
  destruct (groupby_group _ _ _ Hin) as [Hne Hall].
  destruct gy as [|y gy]; [done|].
  destruct (Hall y) as [Hky Hy]; [left|].
  apply Hk. apply le_antisym.
  - eapply Forall_forall in Hx; [exact Hx|left].
  - apply elem_of_cons in Hy as [->|Hy]; [by rewrite Hky in Hk|].
    apply StronglySorted_inv in Hs as [_ Hz].
    eapply Forall_forall in Hz; [|exact Hy].
    unfold le_key in Hz. by rewrite Hky in Hz.
Qed.
End GroupbyFacts.

(** ** Duplicate collapsing *)

Lemma StronglySorted_weaken {A} (R R' : A → A → Prop) l :
  (∀ a b, R a b → R' a b) → StronglySorted R l → StronglySorted R' l.
Proof.
  intros HR. induction 1 as [|x l Hs IH Hx]; constructor; [done|].
  eapply Forall_impl; [exact Hx|]. auto.
Qed.

Lemma most_suitable_spec ctx g :
  g ≠ [] →
  ∃ r, most_suitable ctx g = [r] ∧ r ∈ g ∧
       ∀ x, x ∈ g →
         suit_leb (_sort_suitability_key ctx r) (_sort_suitability_key ctx x) = true.
Proof.
  intros Hne. unfold most_suitable.
  destruct (sorted_by suit_leb (_sort_suitability_key ctx) g) as [|r rest] eqn:E.
  - destruct g; [done|]. by apply sorted_by_nonempty in E.
  - exists r. split; [done|].
    eapply sorted_by_head; eauto using suit_leb_total, suit_leb_trans.
Qed.

(** The groups that [filter_duplicate] collapses. *)
Lemma key_groups_NoDup self :
  NoDup (fst <$> groupby v_key (sorted_by String.leb v_key self)).
Proof.
  apply (groupby_sorted_NoDup v_key String.leb String.leb_antisym).
  apply sorted_by_sorted; eauto using String.leb_total, string_leb_trans.
Qed.

Lemma winners_keys ctx (G : list (string * list view)) :
  (∀ kg g, (kg, g) ∈ G → g ≠ [] ∧ ∀ x, x ∈ g → v_key x = kg) →
  v_key <$> flat_map (λ kg, most_suitable ctx kg.2) G = fst <$> G.
Proof.
  induction G as [|[kg g] G IH]; intros HG; simpl; [done|].
  destruct (HG kg g) as [Hne Hk]; [left|].
  destruct (most_suitable_spec ctx g Hne) as (r & -> & Hr & _).
  simpl. rewrite (Hk r Hr). f_equal. apply IH.
  intros kg' g' Hin. apply HG. by right.
Qed.

Lemma elem_of_flat_map {A B} (f : A → list B) (l : list A) (y : B) :
  y ∈ flat_map f l ↔ ∃ x, x ∈ l ∧ y ∈ f x.
Proof.
  rewrite list_elem_of_In, in_flat_map. 
  split; intros (x & ? & ?); exists x; by rewrite ?list_elem_of_In in *.
Qed.

Lemma suitability_winner ctx r x :
  (∀ w, v_website_id r = Some w → 0 < w) →
  suit_leb (_sort_suitability_key ctx r) (_sort_suitability_key ctx x) = true →
  (website_id_or_0 x = context_website_id ctx →
     website_id_or_0 r = context_website_id ctx) ∧
  (v_website_id x = None →
     website_id_or_0 r = context_website_id ctx ∨ v_website_id r = None).
Proof.
  intros Hpos.
  assert (Hr0 : website_id_or_0 r ≤ 0 → v_website_id r = None).
  { unfold website_id_or_0. destruct (v_website_id r) as [w|]; simpl; [|done].
    specialize (Hpos w eq_refl). lia. }
  unfold suit_leb, pair_leb, _sort_suitability_key. simpl.
  set (cw := context_website_id ctx).
  intros H. split; intros Hx.
  - rewrite Hx, Z.eqb_refl in H. simpl in H.
    destruct (cw =? website_id_or_0 r) eqn:E; simpl in H; lia.
  - assert (website_id_or_0 x = 0) as Hx0 by (unfold website_id_or_0; by rewrite Hx).
    rewrite Hx0 in H.
    destruct (cw =? website_id_or_0 r) eqn:E; [left; lia|].
    right. apply Hr0. destruct (cw =? 0); simpl in H; lia.
Qed.

(** A survivor of [filter_duplicate] is a record of the recordset that is
    at least as suitable as every record of the same key. *)
Lemma filter_duplicate_elem ctx self r :
  r ∈ collapsed ctx self →
  r ∈ self ∧
  ∀ v, v ∈ self → v_key v = v_key r →
    suit_leb (_sort_suitability_key ctx r) (_sort_suitability_key ctx v) = true.
Proof.
  unfold collapsed. rewrite elem_of_sorted_by.
  set (sorted := sorted_by String.leb v_key self).
  set (G := groupby v_key sorted).
  intros Hr. apply elem_of_flat_map in Hr as ([kg g] & Hin & Hr). simpl in Hr.
  destruct (groupby_group _ _ _ _ Hin) as [Hne Hall].
  destruct (most_suitable_spec ctx g Hne) as (r' & E & Hr' & Hmin).
  rewrite E in Hr. apply list_elem_of_singleton in Hr as ->.
  destruct (Hall r' Hr') as [Hk Hs]. apply elem_of_sorted_by in Hs.
  split; [done|]. intros v Hv Hkv.
  destruct (groupby_covers v_key v sorted) as (g' & Hin' & Hvg).
  { by apply elem_of_sorted_by. }
  fold G in Hin'. rewrite Hkv, Hk in Hin'.
  assert (g' = g) as ->; [|by apply Hmin].
  pose proof (key_groups_NoDup self) as Hnd. fold sorted in Hnd. fold G in Hnd.
  apply list_elem_of_lookup in Hin as [i Hi], Hin' as [j Hj].
  assert (i = j) as ->; [|congruence].
  eapply NoDup_lookup; [exact Hnd| |];
    rewrite list_lookup_fmap; [rewrite Hi|rewrite Hj]; done.
Qed.

Lemma filter_duplicate_keys ctx self :
  v_key <$> collapsed ctx self ≡ₚ
  fst <$> groupby v_key (sorted_by String.leb v_key self).
Proof.
  unfold collapsed. rewrite sorted_by_perm.
  rewrite winners_keys; [done|].
  intros kg g Hin. destruct (groupby_group _ _ _ _ Hin) as [? Hall].
  split; [done|]. intros x Hx. by destruct (Hall x Hx).
Qed.

Lemma filter_duplicate_covers ctx self v :
  v ∈ self → ∃ r, r ∈ collapsed ctx self ∧ v_key r = v_key v.
Proof.
  intros Hv.
  assert (v_key v ∈ v_key <$> collapsed ctx self) as Hk.
  { rewrite filter_duplicate_keys.
    destruct (groupby_covers v_key v (sorted_by String.leb v_key self))
      as (g & Hin & _).
    { by apply elem_of_sorted_by. }
    apply list_elem_of_fmap. by exists (v_key v, g). }
  apply list_elem_of_fmap in Hk as (r & E & Hr). eauto.
Qed.

Lemma filter_duplicate_keys_NoDup ctx self :
  NoDup (v_key <$> collapsed ctx self).
Proof. rewrite filter_duplicate_keys. apply key_groups_NoDup. Qed.

Lemma filter_duplicate_sorted ctx self :
  StronglySorted (le_key pair_leb (λ v, (v_priority v, v_id v)))
                 (collapsed ctx self).
Proof.
  unfold collapsed.
  apply sorted_by_sorted; eauto using pair_leb_total, pair_leb_trans.
Qed.

Lemma filter_duplicate_same_key ctx l key :
  l ≠ [] → (∀ v, v ∈ l → v_key v = key) →
  ∃ r, collapsed ctx l = [r] ∧ r ∈ l ∧
       ∀ v, v ∈ l →
         suit_leb (_sort_suitability_key ctx r) (_sort_suitability_key ctx v) = true.
Proof.
  intros Hne Hkey.
  pose proof (filter_duplicate_keys_NoDup ctx l) as Hnd.
  destruct l as [|x l]; [done|].
  destruct (filter_duplicate_covers ctx (x :: l) x) as (r & Hr & _); [left|].
  assert (Hall : ∀ v, v ∈ collapsed ctx (x :: l) → v_key v = key).
  { intros v Hv. apply filter_duplicate_elem in Hv as [Hv _]. auto. }
  destruct (collapsed ctx (x :: l)) as [|a [|b rest]] eqn:E.
  - by apply elem_of_nil in Hr.
  - apply list_elem_of_singleton in Hr as ->. exists a. split; [done|].
    assert (a ∈ collapsed ctx (x :: l)) as Ha by (rewrite E; left).
    apply filter_duplicate_elem in Ha as [Ha Hmin]. split; [done|].
    intros v Hv. apply Hmin; [done|]. rewrite (Hkey v Hv). symmetry. auto.
  - exfalso. simpl in Hnd. apply NoDup_cons in Hnd as [Hnd _]. apply Hnd.
    rewrite (Hall a) by left. rewrite <- (Hall b) by (right; left). left.
Qed.

Lemma keys_comparable_spec self :
  keys_comparable self = true ↔
  (∀ v, v ∈ self → v_key v = "") ∨ (∀ v, v ∈ self → v_key v ≠ "").
Proof.
  unfold keys_comparable. rewrite orb_true_iff, !forallb_forall.
  split; (intros [H|H]; [left|right]); intros v Hv.
  - apply list_elem_of_In, H in Hv. by apply bool_decide_eq_true in Hv.
  - apply list_elem_of_In, H in Hv. apply negb_true_iff in Hv.
    by apply bool_decide_eq_false in Hv.
  - apply bool_decide_eq_true, H. by apply list_elem_of_In.
  - apply negb_true_iff, bool_decide_eq_false, H. by apply list_elem_of_In.
Qed.

Lemma keys_comparable_incl l l' :
  (∀ v, v ∈ l' → v ∈ l) → keys_comparable l = true → keys_comparable l' = true.
Proof.
  rewrite !keys_comparable_spec. intros Hin [H|H]; [left|right]; auto.
Qed.

Lemma keys_comparable_perm l1 l2 :
  l1 ≡ₚ l2 → keys_comparable l1 = keys_comparable l2.
Proof.
  intros Hp.
  destruct (keys_comparable l1) eqn:E1, (keys_comparable l2) eqn:E2; try done.
  - rewrite <- E2. symmetry. apply (keys_comparable_incl l1); [|done].
    intros v. by rewrite Hp.
  - rewrite <- E1. apply (keys_comparable_incl l2); [|done].
    intros v. by rewrite Hp.
Qed.

Lemma keys_comparable_same_key l key :
  (∀ v, v ∈ l → v_key v = key) → keys_comparable l = true.
Proof.
  intros H. apply keys_comparable_spec.
  destruct (decide (key = "")) as [->|Hne]; [by left|right].
  intros v Hv. by rewrite (H v Hv).
Qed.

(** [filter_duplicate] returns the collapse when the keys can be compared,
    and raises otherwise. *)
Lemma filter_duplicate_comparable ctx self :
  keys_comparable self = true → filter_duplicate ctx self = Ok (collapsed ctx self).
Proof. intros H. unfold filter_duplicate, sorted_key. by rewrite H. Qed.

Lemma filter_duplicate_mixed ctx self :
  keys_comparable self = false → filter_duplicate ctx self = Err TypeError.
Proof. intros H. unfold filter_duplicate, sorted_key. by rewrite H. Qed.

Lemma filter_duplicate_Ok ctx self res :
  filter_duplicate ctx self = Ok res →
  keys_comparable self = true ∧ res = collapsed ctx self.
Proof.
  destruct (keys_comparable self) eqn:E.
  - rewrite (filter_duplicate_comparable ctx self E). by intros [= <-].
  - by rewrite (filter_duplicate_mixed ctx self E).
Qed.

Lemma priority_id_key_le a b :
  le_key pair_leb (λ v, (v_priority v, v_id v)) a b → priority_id_le a b.
Proof. unfold le_key, pair_leb, priority_id_le. simpl. lia. Qed.

Lemma string_leb_refl s : String.leb s s = true.
Proof. unfold String.leb. by rewrite string_compare_refl. Qed.

(** C3: [filter_duplicate] raises [TypeError] on a recordset that mixes
    views without key and views with a key, where the keys cannot be
    sorted.  On every other recordset it keeps records of the recordset,
    exactly one per distinct key.  For each key the survivor is scoped to
    the current website [w] of the context (website 1 when the context
    names none) when some record of that key is; otherwise it is a generic
    record when some record of that key is generic (a generic record
    counts as website 0 and so precedes the records of other websites).
    The survivors come ordered by (priority, id) ascending.  Website ids
    are database ids, hence positive. *)
Theorem filter_duplicate_one_per_key (ctx : context) (self : list view) :
  (∀ v w, v ∈ self → v_website_id v = Some w → 0 < w) →
  (keys_comparable self = false → filter_duplicate ctx self = Err TypeError) ∧
  (keys_comparable self = true →
   ∃ res, filter_duplicate ctx self = Ok res ∧
     (∀ r, r ∈ res → r ∈ self) ∧
     NoDup (v_key <$> res) ∧
     (∀ v, v ∈ self → ∃ r, r ∈ res ∧ v_key r = v_key v) ∧
     (∀ r v w, r ∈ res → v ∈ self → v_key v = v_key r →
        ctx_website_id ctx = Some w ∨ (ctx_website_id ctx = None ∧ w = 1) →
        (v_website_id v = Some w → v_website_id r = Some w) ∧
        (v_website_id v = None →
           v_website_id r = Some w ∨ v_website_id r = None)) ∧
     StronglySorted priority_id_le res).
Proof.
  intros Hpos. split; [apply filter_duplicate_mixed|].
  intros Hcmp. exists (collapsed ctx self).
  split; [by apply filter_duplicate_comparable|].
  split; [|split; [|split; [|split]]].
  - intros r Hr. by apply filter_duplicate_elem in Hr as [? _].
  - apply filter_duplicate_keys_NoDup.
  - intros v Hv. by apply filter_duplicate_covers.
  - intros r v w Hr Hv Hk Hw.
    apply filter_duplicate_elem in Hr as [Hrs Hmin].
    assert (Hcw : context_website_id ctx = w).
    { unfold context_website_id. by destruct Hw as [->|[-> ->]]. }
    destruct (suitability_winner ctx r v) as [Hsame Hgen];
      [by eauto|by apply Hmin|].
    rewrite Hcw in Hsame, Hgen.
    assert (Hr0 : website_id_or_0 r = w →
                  v_website_id r = Some w ∨ (w = 0 ∧ v_website_id r = None)).
    { unfold website_id_or_0. destruct (v_website_id r) as [wr|] eqn:Er; simpl.
      - intros ->. by left.
      - intros <-. by right. }
    split.
    + intros Hvw. pose proof (Hpos v w Hv Hvw) as Hw0.
      destruct Hr0 as [?|[? _]]; [|done|lia].
      apply Hsame. unfold website_id_or_0. by rewrite Hvw.
    + intros Hvn. destruct (Hgen Hvn) as [E|?]; [|by right].
      destruct (Hr0 E) as [?|[_ ?]]; [by left|by right].
  - eapply StronglySorted_weaken; [apply priority_id_key_le|].
    apply filter_duplicate_sorted.
Qed.

(** C9: With no website id in the context the suitability key takes
    website 1 as the current website: of two templates with the same key,
    one scoped to website 1 and one generic, [filter_duplicate] keeps the
    website-1 record, in whichever order the two are given. *)
Theorem filter_duplicate_defaults_to_website_1 (ctx : context) (a b : view) :
  ctx_website_id ctx = None →
  v_key a = v_key b →
  v_website_id a = Some 1 →
  v_website_id b = None →
  context_website_id ctx = 1 ∧
  filter_duplicate ctx [a; b] = Ok [a] ∧
  filter_duplicate ctx [b; a] = Ok [a].
Proof.
  intros Hctx Hk Ha Hb.
  assert (Hcw : context_website_id ctx = 1).
  { unfold context_website_id. by rewrite Hctx. }
  assert (Hsa : _sort_suitability_key ctx a = (false, 1)).
  { unfold _sort_suitability_key, website_id_or_0. by rewrite Hcw, Ha. }
  assert (Hsb : _sort_suitability_key ctx b = (true, 0)).
  { unfold _sort_suitability_key, website_id_or_0. by rewrite Hcw, Hb. }
  split; [done|].
  rewrite !filter_duplicate_comparable.
  2,3: apply (keys_comparable_same_key _ (v_key b));
       intros v Hv; repeat (apply elem_of_cons in Hv as [->|Hv]); try done;
       by apply elem_of_nil in Hv.
  unfold collapsed, sorted_by. simpl.
  rewrite <- Hk, string_leb_refl. simpl.
  rewrite !decide_True by done.
  unfold most_suitable, sorted_by. simpl.
  by rewrite Hsa, Hsb.
Qed.

Lemma filter_duplicate_one_per_key_witness :
  filter_duplicate ex_ctx_2
    [ex_view 1 "" None None true; ex_view 2 "k" (Some 1) None true]
  = Err TypeError ∧
  ∃ res,
    filter_duplicate ex_ctx_2
      [ex_view 1 "k" None None true; ex_view 2 "k" (Some 1) None false;
       ex_view 3 "k" (Some 2) None true; ex_view 4 "l" (Some 2) None true]
    = Ok res ∧
    res = [ex_view 3 "k" (Some 2) None true; ex_view 4 "l" (Some 2) None true] ∧
    NoDup (v_key <$> res).
Proof.
  split.
  - refine (proj1 (filter_duplicate_one_per_key ex_ctx_2
              [ex_view 1 "" None None true; ex_view 2 "k" (Some 1) None true] _)
              eq_refl).
    intros v w Hin Hw.
    repeat (apply elem_of_cons in Hin as [->|Hin];
            [simpl in Hw; first [discriminate Hw | injection Hw as <-; lia]|]).
    by apply elem_of_nil in Hin.
  - destruct (proj2 (filter_duplicate_one_per_key ex_ctx_2
              [ex_view 1 "k" None None true; ex_view 2 "k" (Some 1) None false;
               ex_view 3 "k" (Some 2) None true; ex_view 4 "l" (Some 2) None true]
              ltac:(intros v w Hin Hw;
                    repeat (apply elem_of_cons in Hin as [->|Hin];
                            [simpl in Hw;
                             first [discriminate Hw | injection Hw as <-; lia]|]);
                    by apply elem_of_nil in Hin))
              eq_refl) as (res & E & _ & Hnd & _).
    exists res. split; [exact E|]. split; [|exact Hnd].
    vm_compute in E. by injection E as <-.
Defined.

Lemma filter_duplicate_defaults_to_website_1_witness :
  filter_duplicate ex_ctx_none
    [ex_view 1 "k" (Some 1) None true; ex_view 2 "k" None None true]
  = Ok [ex_view 1 "k" (Some 1) None true].
Proof.
  refine (proj1 (proj2 (filter_duplicate_defaults_to_website_1 ex_ctx_none
            (ex_view 1 "k" (Some 1) None true) (ex_view 2 "k" None None true)
            _ _ _ _))); reflexivity.
Defined.


(** ** Theme updates *)

Lemma super_write_one i v vals st :
  views st !! i = Some v →
  super_write [i] vals st = Ok (set_views (insert i (apply_vals vals v)) st).
Proof. intros H. unfold super_write, read. simpl. by rewrite H. Qed.

Lemma super_write_cons i self vals st :
  super_write (i :: self) vals st =
  do st' <- super_write [i] vals st; super_write self vals st'.
Proof.
  unfold super_write. simpl. by destruct (read st i).
Qed.

Lemma get_theme_specific_view_own ctx i theme st :
  no_foreign_xml_id st theme i →
  _get_theme_specific_view ctx i theme st = Ok (st, [i]).
Proof.
  unfold _get_theme_specific_view.
  intros [->|(x & -> & Hx)]; simpl; [done|].
  by rewrite bool_decide_true.
Qed.

Lemma write_view_theme_in_place rec ctx vals i cw st :
  str_in "theme_" (ctx_module ctx) = true →
  no_foreign_xml_id st (ctx_module ctx) i →
  write_view rec ctx vals i (cw, st) =
  do st' <- super_write [i] vals st; Ok (Some 0, st').
Proof.
  intros Htheme Hxml. unfold write_view. rewrite Htheme.
  by rewrite get_theme_specific_view_own.
Qed.

Lemma write_loop_theme_in_place rec ctx vals self : ∀ cw st,
  str_in "theme_" (ctx_module ctx) = true →
  (∀ i, i ∈ self →
     is_Some (views st !! i) ∧ no_foreign_xml_id st (ctx_module ctx) i) →
  (do r <- for_each (write_view rec ctx vals) self (cw, st); Ok r.2) =
  super_write self vals st ∧
  ∃ st', super_write self vals st = Ok st' ∧
         dom (views st') = dom (views st) ∧ next_view st' = next_view st.
Proof.
  induction self as [|i self IH]; intros cw st Htheme Hself.
  { split; [done|]. by exists st. }
  destruct (Hself i) as [[v Hv] Hxml]; [left|].
  cbn [for_each]. rewrite write_view_theme_in_place by done.
  rewrite (super_write_cons i self).
  rewrite !(super_write_one _ _ _ _ Hv). cbn [bind].
  set (st1 := set_views _ st).
  destruct (IH (Some 0) st1 Htheme) as [E (st' & E' & Hdom & Hnext)].
  { intros j Hj. destruct (Hself j) as [Hsome Hx]; [by right|].
    split; [|exact Hx].
    unfold st1. simpl. destruct (decide (i = j)) as [->|?].
    - by rewrite lookup_insert_eq.
    - by rewrite lookup_insert_ne. }
  split; [done|]. exists st'. split; [done|]. split; [|done].
  rewrite Hdom. unfold st1. simpl. rewrite dom_insert_L.
  apply subseteq_union_1_L, singleton_subseteq_l. by eapply elem_of_dom_2.
Qed.

(** C10: During the update of a theme module, a view that has no external
    id, or whose external id belongs to the updating theme itself, is
    returned unchanged by [_get_theme_specific_view] and written in place:
    [write] does what the storage engine's write does.  The
    current-website id being cleared, no fork is created either: the
    stored views keep the same ids and no id is allocated.  Hence a
    diversion happens only for a view with an external id owned by another
    module. *)
Theorem theme_update_own_view_written_in_place
    (fuel : nat) (ctx : context) (self : list Z) (vals : list field_val) (st : db) :
  ctx_no_cow ctx = false →
  str_in "theme_" (ctx_module ctx) = true →
  (∀ i, i ∈ self →
     is_Some (views st !! i) ∧ no_foreign_xml_id st (ctx_module ctx) i) →
  (∀ i, i ∈ self →
     _get_theme_specific_view ctx i (ctx_module ctx) st = Ok (st, [i])) ∧
  ∃ st', write (S fuel) ctx self vals st = Ok st' ∧
         super_write self vals st = Ok st' ∧
         dom (views st') = dom (views st) ∧
         next_view st' = next_view st.
Proof.
  intros Hcow Htheme Hself. split.
  - intros i Hi. apply get_theme_specific_view_own. by apply Hself.
  - destruct (write_loop_theme_in_place (write fuel) ctx vals self
                (ctx_website_id ctx) st Htheme Hself)
      as [E (st' & E' & Hdom & Hnext)].
    exists st'. cbn [write]. rewrite Hcow. cbn [negb]. rewrite E. done.
Qed.

(** ** The store and the search *)

Lemma v_id_set_field v f : v_id (set_field v f) = v_id v.
Proof. by destruct f. Qed.

Lemma v_id_apply_vals vals : ∀ v, v_id (apply_vals vals v) = v_id v.
Proof.
  induction vals as [|f vals IH]; intros v; [done|].
  unfold apply_vals in *. simpl. by rewrite IH, v_id_set_field.
Qed.

Lemma elem_of_all_views st v :
  v ∈ all_views st ↔ ∃ i, views st !! i = Some v.
Proof.
  unfold all_views, rows. rewrite elem_of_sorted_by, list_elem_of_fmap. split.
  - intros ([i v'] & -> & Hin). exists i. by apply elem_of_map_to_list in Hin.
  - intros [i Hi]. exists (i, v). split; [done|]. by apply elem_of_map_to_list.
Qed.

Lemma all_views_insert_fresh st st' n v :
  views st !! n = None → views st' = <[n := v]> (views st) →
  all_views st' ≡ₚ v :: all_views st.
Proof.
  intros Hn E. unfold all_views, rows. rewrite !sorted_by_perm, E.
  by rewrite map_to_list_insert.
Qed.

Lemma order_views_perm d o l : order_views d o l ≡ₚ l.
Proof. destruct o; apply sorted_by_perm. Qed.

Lemma search_views_perm ctx d o st :
  search_views ctx d o st ≡ₚ
  filter (λ v, eval_domain (effective_domain ctx d) v = true) (all_views st).
Proof. apply order_views_perm. Qed.

Lemma elem_of_search_views ctx d o st v :
  v ∈ search_views ctx d o st ↔
  (∃ i, views st !! i = Some v) ∧ eval_domain (effective_domain ctx d) v = true.
Proof.
  rewrite search_views_perm, list_elem_of_filter, elem_of_all_views. tauto.
Qed.

Lemma search_nil ctx d o st :
  search ctx d o st = [] ↔
  ∀ i v, views st !! i = Some v → eval_domain (effective_domain ctx d) v = false.
Proof.
  unfold search. split.
  - intros E i v Hv. apply fmap_nil_inv in E.
    destruct (eval_domain _ v) eqn:Ev; [|done].
    assert (v ∈ search_views ctx d o st) as Hin
      by (apply elem_of_search_views; eauto).
    rewrite E in Hin. by apply elem_of_nil in Hin.
  - intros H. destruct (search_views ctx d o st) as [|v l] eqn:E; [done|].
    assert (v ∈ search_views ctx d o st) as Hin by (rewrite E; left).
    apply elem_of_search_views in Hin as [[i Hi] Hv].
    rewrite (H i v Hi) in Hv. done.
Qed.

(** Inserting a fresh row that matches a domain nothing else matched makes
    it the only result. *)
Lemma search_insert_fresh_only ctx d o st st' n v :
  views st !! n = None → views st' = <[n := v]> (views st) →
  search ctx d o st = [] →
  eval_domain (effective_domain ctx d) v = true →
  search ctx d o st' = [v_id v].
Proof.
  intros Hn E Hnil Hv. unfold search in *.
  apply fmap_nil_inv in Hnil.
  pose proof (search_views_perm ctx d o st') as Hp.
  rewrite (all_views_insert_fresh st st' n v Hn E) in Hp.
  rewrite filter_cons_True in Hp by done.
  rewrite <- (search_views_perm ctx d o st), Hnil in Hp.
  apply Permutation_singleton_r in Hp. by rewrite Hp.
Qed.

Lemma wf_views_next_fresh st : wf_views st → views st !! next_view st = None.
Proof.
  intros Hwf. destruct (views st !! next_view st) as [v|] eqn:E; [|done].
  apply Hwf in E. lia.
Qed.

Lemma theme_fork_domain_eval ctx key theme v :
  v_key v = key → v_theme_id v = theme →
  (ctx_active_test ctx = true → v_active v = true) →
  eval_domain (effective_domain ctx (theme_fork_domain key theme)) v = true.
Proof.
  intros <- <- Hact. unfold effective_domain, theme_fork_domain. simpl.
  destruct (ctx_active_test ctx); simpl.
  - unfold eval_domain, eval_leaf. simpl. rewrite Hact by done.
    by rewrite !bool_decide_true.
  - unfold eval_domain, eval_leaf. simpl. by rewrite !bool_decide_true.
Qed.

Lemma get_theme_specific_view_copy ctx i v x m st :
  views st !! i = Some v →
  view_xml_ids st i = [x] → imd_module x ≠ ctx_module ctx →
  filter (λ m, mod_name m = ctx_module ctx) (modules st) = [m] →
  search ctx (theme_fork_domain (v_key v) (Some (mod_id m))) OrderDefault st = [] →
  ∃ st', _get_theme_specific_view ctx i (ctx_module ctx) st = Ok (st', [next_view st]) ∧
    views st' = <[next_view st :=
                    apply_vals [FTheme (Some (mod_id m))] (with_id (next_view st) v)]>
                (views st) ∧
    next_view st' = next_view st + 1 ∧
    modules st' = modules st ∧ ir_model_data st' = ir_model_data st.
Proof.
  intros Hv Hx Hne Hm Hs. unfold _get_theme_specific_view.
  rewrite Hx, Hm. simpl. rewrite bool_decide_false by done. simpl.
  unfold read. rewrite Hv. simpl. rewrite Hs.
  unfold copy, read. rewrite Hv. simpl. eexists. split; [done|]. done.
Qed.

Lemma get_theme_specific_view_reuse ctx i v x m st a :
  views st !! i = Some v →
  view_xml_ids st i = [x] → imd_module x ≠ ctx_module ctx →
  filter (λ m, mod_name m = ctx_module ctx) (modules st) = [m] →
  search ctx (theme_fork_domain (v_key v) (Some (mod_id m))) OrderDefault st = [a] →
  _get_theme_specific_view ctx i (ctx_module ctx) st = Ok (st, [a]).
Proof.
  intros Hv Hx Hne Hm Hs. unfold _get_theme_specific_view.
  rewrite Hx, Hm. simpl. rewrite bool_decide_false by done. simpl.
  unfold read. rewrite Hv. simpl. by rewrite Hs.
Qed.


Lemma write_view_theme_diverted rec ctx vals i cw st st' l :
  str_in "theme_" (ctx_module ctx) = true →
  _get_theme_specific_view ctx i (ctx_module ctx) st = Ok (st', l) →
  write_view rec ctx vals i (cw, st) =
  do st'' <- super_write l vals st'; Ok (Some 0, st'').
Proof.
  intros Htheme E. unfold write_view. rewrite Htheme, E. done.
Qed.

Lemma write_one_theme fuel ctx vals i st st' l :
  ctx_no_cow ctx = false →
  str_in "theme_" (ctx_module ctx) = true →
  _get_theme_specific_view ctx i (ctx_module ctx) st = Ok (st', l) →
  write (S fuel) ctx [i] vals st = super_write l vals st'.
Proof.
  intros Hcow Htheme E. cbn [write]. rewrite Hcow. cbn [negb for_each].
  rewrite (write_view_theme_diverted _ _ _ _ _ _ _ _ Htheme E).
  by destruct (super_write l vals st').
Qed.

(** C5 (amended): During the update of a theme module, writing twice on a
    view owned by another module forks it once, provided the first write
    leaves the fork findable: the fork keeps the view's key and the theme,
    and it is active unless the context disables the active filter.  The
    first write creates the fork under the next free id; the second write
    looks up (key, theme), finds exactly that fork, and is diverted to it:
    the stored ids are the same after the second write and no id is
    allocated. *)
Theorem theme_fork_created_once
    (f1 f2 : nat) (ctx : context) (i : Z) (v : view) (x : model_data)
    (m : module) (vals1 vals2 : list field_val) (st : db) :
  ctx_no_cow ctx = false →
  str_in "theme_" (ctx_module ctx) = true →
  wf_views st →
  views st !! i = Some v →
  view_xml_ids st i = [x] → imd_module x ≠ ctx_module ctx →
  filter (λ m, mod_name m = ctx_module ctx) (modules st) = [m] →
  search ctx (theme_fork_domain (v_key v) (Some (mod_id m))) OrderDefault st = [] →
  let n := next_view st in
  let fork := apply_vals vals1
                (apply_vals [FTheme (Some (mod_id m))] (with_id n v)) in
  v_key fork = v_key v →
  v_theme_id fork = Some (mod_id m) →
  (ctx_active_test ctx = true → v_active fork = true) →
  ∃ st1 st2,
    write (S f1) ctx [i] vals1 st = Ok st1 ∧
    views st1 = <[n := fork]> (views st) ∧
    search ctx (theme_fork_domain (v_key v) (Some (mod_id m))) OrderDefault st1 = [n] ∧
    _get_theme_specific_view ctx i (ctx_module ctx) st1 = Ok (st1, [n]) ∧
    write (S f2) ctx [i] vals2 st1 = Ok st2 ∧
    views st2 = <[n := apply_vals vals2 fork]> (views st1) ∧
    dom (views st2) = dom (views st1) ∧
    next_view st2 = next_view st1.
Proof.
  intros Hcow Htheme Hwf Hv Hx Hne Hm Hs n fork Hkey Hth Hact.
  pose proof (wf_views_next_fresh st Hwf) as Hfresh. fold n in Hfresh.
  assert (i ≠ n) as Hin by (intros ->; congruence).
  destruct (get_theme_specific_view_copy ctx i v x m st Hv Hx Hne Hm Hs)
    as (st0 & E0 & Hviews0 & Hnext0 & Hmod0 & Himd0).
  fold n in E0, Hviews0, Hnext0.
  set (fork0 := apply_vals [FTheme (Some (mod_id m))] (with_id n v)) in *.
  assert (views st0 !! n = Some fork0) as Hn0
    by (by rewrite Hviews0, lookup_insert_eq).
  set (st1 := set_views (insert n (apply_vals vals1 fork0)) st0).
  assert (E1 : write (S f1) ctx [i] vals1 st = Ok st1).
  { rewrite (write_one_theme _ _ _ _ _ _ _ Hcow Htheme E0).
    by apply super_write_one. }
  assert (Hviews1 : views st1 = <[n := fork]> (views st)).
  { unfold st1. simpl. by rewrite Hviews0, insert_insert_eq. }
  assert (Hid : v_id fork = n).
  { unfold fork. by rewrite !v_id_apply_vals. }
  assert (Hs1 : search ctx (theme_fork_domain (v_key v) (Some (mod_id m)))
                  OrderDefault st1 = [n]).
  { rewrite <- Hid.
    apply (search_insert_fresh_only ctx _ _ st st1 n fork Hfresh Hviews1 Hs).
    by apply theme_fork_domain_eval. }
  assert (Hv1 : views st1 !! i = Some v).
  { by rewrite Hviews1, lookup_insert_ne. }
  assert (E2 : _get_theme_specific_view ctx i (ctx_module ctx) st1 = Ok (st1, [n])).
  { apply (get_theme_specific_view_reuse ctx i v x m st1 n); try done.
    - unfold view_xml_ids, st1. simpl. rewrite Himd0. exact Hx.
    - unfold st1. simpl. by rewrite Hmod0. }
  assert (Hn1 : views st1 !! n = Some fork)
    by (by rewrite Hviews1, lookup_insert_eq).
  exists st1, (set_views (insert n (apply_vals vals2 fork)) st1).
  split; [done|]. split; [done|]. split; [done|]. split; [done|].
  split.
  { rewrite (write_one_theme _ _ _ _ _ _ _ Hcow Htheme E2).
    by apply super_write_one. }
  split; [done|]. split; [|done].
  simpl. rewrite dom_insert_L.
  apply subseteq_union_1_L, singleton_subseteq_l. by eapply elem_of_dom_2.
Qed.

(** ** The sample database *)

Lemma ex_db_wf : wf_views ex_db.
Proof.
  intros i v H. apply elem_of_list_to_map_2 in H.
  repeat (apply elem_of_cons in H as [H|H]; [injection H as -> ->; simpl; lia|]).
  by apply elem_of_nil in H.
Qed.

(** C5, as stated, fails: a write that renames the key (or deactivates the
    fork) makes the lookup by (key, theme) miss the first fork, and the
    second write forks again. *)
Lemma theme_fork_created_twice :
  (∃ st2,
     (do st1 <- write 1 ex_ctx_theme [1] [FKey "website.renamed"] ex_db;
      write 1 ex_ctx_theme [1] [FKey "website.renamed"] st1) = Ok st2 ∧
     map (λ v, (v_id v, v_key v)) (filter (λ v, v_theme_id v = Some 7) (all_views st2))
       = [(4, "website.renamed"); (5, "website.renamed")]) ∧
  (∃ st2,
     (do st1 <- write 1 ex_ctx_theme [1] [FActive false] ex_db;
      write 1 ex_ctx_theme [1] [FActive false] st1) = Ok st2 ∧
     map (λ v, (v_id v, v_key v)) (filter (λ v, v_theme_id v = Some 7) (all_views st2))
       = [(4, "website.page"); (5, "website.page")]).
Proof. split; eexists; split; vm_compute; reflexivity. Qed.

Lemma theme_fork_created_once_witness :
  ∃ st1 st2,
    write 1 ex_ctx_theme [1] [FName "A"] ex_db = Ok st1 ∧
    write 1 ex_ctx_theme [1] [FName "B"] st1 = Ok st2 ∧
    dom (views st2) = dom (views st1).
Proof.
  destruct (theme_fork_created_once 0 0 ex_ctx_theme 1
              (ex_view 1 "website.page" None None true)
              (mkModelData "website" "page" "ir.ui.view" 1)
              (mkModule 7 "theme_x") [FName "A"] [FName "B"] ex_db)
    as (st1 & st2 & H1 & _ & _ & _ & H2 & _ & Hd & _).
  - reflexivity.
  - reflexivity.
  - exact ex_db_wf.
  - reflexivity.
  - reflexivity.
  - simpl. discriminate.
  - reflexivity.
  - vm_compute. reflexivity.
  - reflexivity.
  - reflexivity.
  - reflexivity.
  - exists st1, st2. auto.
Defined.


Lemma theme_update_own_view_written_in_place_witness :
  ∃ st', write 1 ex_ctx_theme [2; 3] [FArch "<div/>"] ex_db = Ok st' ∧
         dom (views st') = dom (views ex_db).
Proof.
  destruct (theme_update_own_view_written_in_place 0 ex_ctx_theme [2; 3]
              [FArch "<div/>"] ex_db) as [_ (st' & H & _ & Hd & _)].
  - reflexivity.
  - reflexivity.
  - intros i Hi.
    repeat (apply elem_of_cons in Hi as [->|Hi];
            [split; [eexists; reflexivity|left; reflexivity]|]).
    by apply elem_of_nil in Hi.
  - exists st'. auto.
Defined.

(** ** Key resolution *)

Lemma get_view_id_domain_eq theme_ids website_id key :
  get_view_id_domain theme_ids website_id key =
  [DAnd; DOr;
   DLeaf Fd_theme_id OpIn (VRefs (Some <$> theme_ids));
   DAnd; DLeaf Fd_theme_id OpEq (VRef None);
   DLeaf Fd_website_id OpIn (VRefs [None; ref_or_false website_id]);
   DLeaf Fd_key OpEq (VStr key)].
Proof. reflexivity. Qed.

Lemma get_view_id_domain_eval ctx theme_ids website_id key v :
  eval_domain (effective_domain ctx (get_view_id_domain theme_ids website_id key)) v = true
  ↔ visible ctx v ∧ get_view_id_match theme_ids website_id key v.
Proof.
  rewrite get_view_id_domain_eq. unfold effective_domain, visible, get_view_id_match.
  simpl. rewrite andb_true_r.
  assert (Hcore :
    eval_domain [DAnd; DOr;
       DLeaf Fd_theme_id OpIn (VRefs (Some <$> theme_ids));
       DAnd; DLeaf Fd_theme_id OpEq (VRef None);
       DLeaf Fd_website_id OpIn (VRefs [None; ref_or_false website_id]);
       DLeaf Fd_key OpEq (VStr key)] v = true ↔
    v_key v = key ∧
    ((∃ t, v_theme_id v = Some t ∧ t ∈ theme_ids) ∨
     (v_theme_id v = None ∧
      (v_website_id v = None ∨ v_website_id v = ref_or_false website_id)))).
  { unfold eval_domain, eval_leaf. simpl.
    rewrite andb_true_r, andb_true_iff, orb_true_iff, andb_true_iff.
    rewrite !bool_decide_eq_true.
    rewrite list_elem_of_fmap, !elem_of_cons, elem_of_nil.
    split.
    - intros [Hscope Hkey]. injection Hkey as Hkey. split; [done|].
      destruct Hscope as [(t & E & Ht)|[E1 E2]]; [left; eauto|right].
      injection E1 as E1. split; [done|].
      destruct E2 as [E2|[E2|E2]]; [by left|by right|done].
    - intros [Hkey Hscope]. split; [|by rewrite Hkey].
      destruct Hscope as [(t & E & Ht)|[E1 E2]]; [left; eauto|right].
      rewrite E1. split; [done|]. destruct E2; auto. }
  destruct (ctx_active_test ctx).
  - transitivity (v_active v = true ∧
      eval_domain [DAnd; DOr;
       DLeaf Fd_theme_id OpIn (VRefs (Some <$> theme_ids));
       DAnd; DLeaf Fd_theme_id OpEq (VRef None);
       DLeaf Fd_website_id OpIn (VRefs [None; ref_or_false website_id]);
       DLeaf Fd_key OpEq (VStr key)] v = true).
    + unfold eval_domain, eval_leaf. simpl.
      rewrite !andb_true_r, andb_true_iff, bool_decide_eq_true.
      split; intros [H1 H2]; split; try done; [by destruct (v_active v)|by rewrite H1].
    + rewrite Hcore. split; [by intros [? ?]|].
      intros [H ?]. split; [by apply H|done].
  - rewrite Hcore. split; [done|by intros [_ ?]].
Qed.

Lemma website_order_key_le a b :
  le_key pair_leb website_order_key a b → website_order_le a b.
Proof.
  unfold le_key, pair_leb, website_order_key, website_order_le.
  destruct (v_website_id a), (v_website_id b); simpl; lia.
Qed.

(** C6 (amended): [get_view_id] returns a numeric id as it is.  For a string key
    under a context carrying a website id, the records searched are the
    stored records, passing the active filter of the search, whose key is
    the given key and which either belong to a theme of the website or
    have no theme and are generic or scoped to the website; they are
    ordered by website, the id of the first one is returned, and the
    NotFound error is raised exactly when there is no such record. *)
Theorem get_view_id_resolution (ctx : context) (st : db) :
  (∀ i, get_view_id ctx (RefId i) st = Ok i) ∧
  ∀ w key theme_ids,
    ctx_website_id ctx = Some w →
    website_theme_ids st (Some w) = Ok theme_ids →
    let candidates :=
      search_views ctx (get_view_id_domain theme_ids (Some w) key) OrderWebsite st in
    (∀ v, v ∈ candidates ↔
          (∃ i, views st !! i = Some v) ∧ visible ctx v ∧
          get_view_id_match theme_ids (Some w) key v) ∧
    StronglySorted website_order_le candidates ∧
    get_view_id ctx (RefKey key) st =
      match candidates with v :: _ => Ok (v_id v) | [] => Err NotFound end ∧
    (get_view_id ctx (RefKey key) st = Err NotFound ↔
     ¬ ∃ i v, views st !! i = Some v ∧ visible ctx v ∧
              get_view_id_match theme_ids (Some w) key v).
Proof.
  split.
  { intros i. unfold get_view_id. by destruct (ctx_website_id ctx). }
  intros w key theme_ids Hw Hthemes candidates.
  assert (Hcand : ∀ v, v ∈ candidates ↔
            (∃ i, views st !! i = Some v) ∧ visible ctx v ∧
            get_view_id_match theme_ids (Some w) key v).
  { intros v. unfold candidates.
    by rewrite elem_of_search_views, get_view_id_domain_eval. }
  assert (Hget : get_view_id ctx (RefKey key) st =
            match candidates with v :: _ => Ok (v_id v) | [] => Err NotFound end).
  { unfold get_view_id. rewrite Hw. rewrite <- Hw at 1. rewrite Hw, Hthemes.
    cbn [bind]. unfold search. fold candidates. by destruct candidates. }
  split; [done|]. split.
  { unfold candidates, search_views, order_views.
    eapply StronglySorted_weaken; [apply website_order_key_le|].
    apply sorted_by_sorted; eauto using pair_leb_total, pair_leb_trans. }
  split; [done|].
  rewrite Hget. split.
  - destruct candidates as [|v l] eqn:E; [|done].
    intros _ (i & v & Hv & Hvis & Hm).
    apply (elem_of_nil v), Hcand. eauto.
  - intros Hno. destruct candidates as [|v l] eqn:E; [done|].
    exfalso. apply Hno.
    destruct (proj1 (Hcand v)) as ((i & Hi) & ? & ?); [left|]. eauto.
Qed.

Lemma records_stored st l :
  (∀ v, v ∈ l → views st !! v_id v = Some v) →
  records st (v_id <$> l) = l.
Proof.
  induction l as [|v l IH]; intros H; [done|].
  unfold records in *. simpl. rewrite (H v) by left. simpl.
  f_equal. apply IH. intros v' Hv'. apply H. by right.
Qed.

Lemma search_views_stored ctx d o st v :
  wf_views st → v ∈ search_views ctx d o st → views st !! v_id v = Some v.
Proof.
  intros Hwf Hv. apply elem_of_search_views in Hv as [[i Hi] _].
  destruct (Hwf i v Hi) as [-> _]. done.
Qed.

Lemma website_id_or_0_Some v w :
  w ≠ 0 → website_id_or_0 v = w → v_website_id v = Some w.
Proof.
  unfold website_id_or_0. destruct (v_website_id v); simpl; congruence.
Qed.

Lemma view_obj_domain_eval ctx key v :
  eval_domain (effective_domain ctx (_view_obj_domain ctx key).1) v = true
  ↔ visible ctx v ∧ _view_obj_match ctx key v.
Proof.
  unfold _view_obj_domain, effective_domain, visible, _view_obj_match, website_domain.
  unfold eval_domain, eval_leaf.
  destruct (ctx_website_id ctx) as [w|] eqn:Ew; simpl;
    destruct (ctx_active_test ctx); simpl;
    rewrite ?andb_true_r, ?andb_true_iff, ?bool_decide_eq_true,
            ?elem_of_cons, ?elem_of_nil.
  - split.
    + intros (Ha & Hk & Hw). injection Hk as Hk.
      split; [by intros _; destruct (v_active v)|].
      split; [done|]. intros _. destruct Hw as [?|[?|[]]]; auto.
    + intros (Ha & Hk & Hw). rewrite Ha, Hk by done. split; [done|].
      split; [done|]. destruct Hw as [?|?]; eauto.
  - split.
    + intros (Hk & Hw). injection Hk as Hk. split; [done|].
      split; [done|]. intros _. destruct Hw as [?|[?|[]]]; auto.
    + intros (_ & Hk & Hw). rewrite Hk. split; [done|].
      destruct Hw as [?|?]; eauto.
  - split.
    + intros (Ha & Hk). injection Hk as Hk.
      split; [by intros _; destruct (v_active v)|].
      split; [done|]. by intros [? ?].
    + intros (Ha & Hk & _). by rewrite Ha, Hk.
  - split.
    + intros Hk. injection Hk as Hk. split; [done|]. split; [done|]. by intros [? ?].
    + intros (_ & Hk & _). by rewrite Hk.
Qed.


(** ** Inheritance resolution *)


(** C4: Under a website's context the inheriting views are searched with
    the active filter disabled.  When they contain an inactive view
    specific to the current website, and every view among them with that
    key and that website is inactive, [get_inheriting_views_arch] returns
    no entry with that key: the inactive specific view wins the
    duplicate-collapse over any generic view of the key, active or not,
    and the survivor is then dropped for being inactive.  Every entry
    returned is an active stored view of another key.  The keys of the
    inheriting views are taken to be sortable: all the views have a key,
    as two views that share a key have, or none has. *)
Theorem inactive_specific_wins_then_dropped
    (ctx : context) (view_id : Z) (model : string) (st : db)
    (w : Z) (dom : domain) (s : view) :
  wf_views st →
  (∀ i v w', views st !! i = Some v → v_website_id v = Some w' → 0 < w') →
  ctx_website_id ctx = Some w → 0 < w →
  _get_inheriting_views_arch_domain (with_active_test ctx false) view_id model st
    = Ok dom →
  let inheriting :=
    search_views (with_active_test ctx false) dom OrderDefault st in
  keys_comparable inheriting = true →
  s ∈ inheriting → v_website_id s = Some w → v_active s = false →
  (∀ v, v ∈ inheriting → v_key v = v_key s → v_website_id v = Some w →
        v_active v = false) →
  ∃ res, get_inheriting_views_arch ctx view_id model st = Ok res ∧
    ∀ arch i, (arch, i) ∈ res →
      ∃ v, views st !! i = Some v ∧ v_active v = true ∧ v_key v ≠ v_key s.
Proof.
  intros Hwf Hpos Hw Hw0 Hdom inheriting Hcmp Hs Hsw Hsa Hall.
  unfold get_inheriting_views_arch, super_get_inheriting_views_arch.
  rewrite Hw, Hdom. cbn [bind truthy].
  assert ((w =? 0) = false) as -> by lia. cbn [negb].
  fold inheriting. rewrite map_map. cbn [snd].
  change (map (λ x : view, v_id x) inheriting) with (v_id <$> inheriting).
  rewrite records_stored by (intros v Hv; by eapply search_views_stored).
  rewrite (filter_duplicate_comparable ctx inheriting Hcmp). cbn [bind].
  eexists. split; [reflexivity|].
  intros arch i Hin.
  apply list_elem_of_fmap in Hin as (r & E & Hr). injection E as -> ->.
  apply list_elem_of_filter in Hr as [Hact Hr].
  apply filter_duplicate_elem in Hr as [Hri Hmin].
  exists r. split; [by eapply search_views_stored|]. split; [done|].
  intros Hk.
  assert (v_website_id r = Some w) as Hrw.
  { apply website_id_or_0_Some; [lia|].
    assert (context_website_id ctx = w) as Hcw
      by (unfold context_website_id; by rewrite Hw).
    rewrite <- Hcw.
    eapply (suitability_winner ctx r s).
    - intros w' Hw'. apply elem_of_search_views in Hri as [[j Hj] _]. eauto.
    - apply Hmin; [done|by rewrite Hk].
    - unfold website_id_or_0. by rewrite Hsw, Hcw. }
  rewrite (Hall r Hri Hk Hrw) in Hact. done.
Qed.

Lemma ex_db_inherit_wf : wf_views ex_db_inherit.
Proof.
  intros i v H. apply elem_of_list_to_map_2 in H.
  repeat (apply elem_of_cons in H as [H|H]; [injection H as -> ->; simpl; lia|]).
  by apply elem_of_nil in H.
Qed.

Lemma inactive_specific_wins_then_dropped_witness :
  get_inheriting_views_arch ex_ctx 10 "ir.ui.view" ex_db_inherit = Ok [] ∧
  get_inheriting_views_arch (mkCtx (Some 2) false true "") 10 "ir.ui.view" ex_db_inherit
    = Ok [("<t/>", 11)] ∧
  ∃ res, get_inheriting_views_arch ex_ctx 10 "ir.ui.view" ex_db_inherit = Ok res ∧
    ∀ arch i, (arch, i) ∈ res →
      ∃ v, views ex_db_inherit !! i = Some v ∧ v_active v = true ∧
           v_key v ≠ "website.patch".
Proof.
  split; [vm_compute; reflexivity|]. split; [vm_compute; reflexivity|].
  refine (inactive_specific_wins_then_dropped ex_ctx 10 "ir.ui.view" ex_db_inherit 1
            [DAnd; DLeaf Fd_website_id OpIn (VRefs [None; Some 1]); DAnd;
             DLeaf Fd_inherit_id OpEq (VRef (Some 10));
             DLeaf Fd_model OpEq (VStr "ir.ui.view")]
            (ex_view 12 "website.patch" (Some 1) (Some 10) false)
            ex_db_inherit_wf _ eq_refl _ eq_refl eq_refl _ eq_refl eq_refl _).
  - intros i v w' H Hw. apply elem_of_list_to_map_2 in H.
    repeat (apply elem_of_cons in H as [H|H];
            [injection H as -> ->; simpl in Hw;
             first [discriminate Hw | injection Hw as <-; lia]|]).
    by apply elem_of_nil in H.
  - lia.
  - vm_compute. apply list_elem_of_In. right. left. reflexivity.
  - intros v Hv Hk Hw.
    assert (Hl : search_views (with_active_test ex_ctx false)
                   [DAnd; DLeaf Fd_website_id OpIn (VRefs [None; Some 1]); DAnd;
                    DLeaf Fd_inherit_id OpEq (VRef (Some 10));
                    DLeaf Fd_model OpEq (VStr "ir.ui.view")] OrderDefault
                   ex_db_inherit
                 = [ex_view 11 "website.patch" None (Some 10) true;
                    ex_view 12 "website.patch" (Some 1) (Some 10) false])
      by (vm_compute; reflexivity).
    rewrite Hl in Hv.
    repeat (apply elem_of_cons in Hv as [->|Hv];
            [first [discriminate Hw | reflexivity]|]).
    by apply elem_of_nil in Hv.
Defined.

Lemma get_view_id_resolution_witness :
  get_view_id ex_ctx (RefKey "website.page") ex_db = Ok 1 ∧
  (get_view_id ex_ctx (RefKey "website.none") ex_db = Err NotFound ↔
   ¬ ∃ i v, views ex_db !! i = Some v ∧ visible ex_ctx v ∧
            get_view_id_match [] (Some 1) "website.none" v).
Proof.
  split.
  - exact (proj1 (proj2 (proj2
      (proj2 (get_view_id_resolution ex_ctx ex_db) 1 "website.page" []
             eq_refl eq_refl)))).
  - exact (proj2 (proj2 (proj2
      (proj2 (get_view_id_resolution ex_ctx ex_db) 1 "website.none" []
             eq_refl eq_refl)))).
Defined.

(** C6, as stated, fails on an inactive view: the only view of
    [ex_db_hidden] matches the domain that [get_view_id] searches for its
    key under website 1, and yet the key is not found, because the search
    leaves inactive views out; with the active filter disabled by the
    context the same view is returned. *)
Lemma get_view_id_not_found_though_domain_matches :
  ctx_website_id ex_ctx = Some 1 ∧
  website_theme_ids ex_db_hidden (Some 1) = Ok [] ∧
  views ex_db_hidden !! 20 = Some (ex_view 20 "website.hidden" None None false) ∧
  eval_domain (get_view_id_domain [] (Some 1) "website.hidden")
              (ex_view 20 "website.hidden" None None false) = true ∧
  get_view_id ex_ctx (RefKey "website.hidden") ex_db_hidden = Err NotFound ∧
  get_view_id ex_ctx_all (RefKey "website.hidden") ex_db_hidden = Ok 20.
Proof. repeat split; vm_compute; reflexivity. Qed.


(** ** Copy-on-write: the frame of a fork *)

Lemma same_except_parent_refl v : same_except_parent v v.
Proof. exists (v_inherit_id v). by destruct v. Qed.

Lemma same_except_parent_trans v1 v2 v3 :
  same_except_parent v1 v2 → same_except_parent v2 v3 → same_except_parent v1 v3.
Proof. intros [q ->] [q' ->]. by exists q'. Qed.

Lemma same_except_parent_generic v v' :
  same_except_parent v v' → is_generic v' = is_generic v.
Proof. by intros [q ->]. Qed.

Lemma same_except_parent_id v v' : same_except_parent v v' → v_id v' = v_id v.
Proof. by intros [q ->]. Qed.

Lemma evolves_refl st : evolves st st.
Proof.
  split; [lia|]. split; [done|]. split; [done|]. split; [|done].
  intros x vx Hx. exists vx. split; [done|apply same_except_parent_refl].
Qed.

Lemma evolves_trans st1 st2 st3 :
  evolves st1 st2 → evolves st2 st3 → evolves st1 st3.
Proof.
  intros (Hn1 & Hw1 & Hg1 & He1 & Hb1) (Hn2 & Hw2 & Hg2 & He2 & Hb2).
  split; [lia|]. split; [congruence|]. split; [by eauto|]. split.
  - intros x vx Hx. destruct (He1 x vx Hx) as (v2 & H2 & S2).
    destruct (He2 x v2 H2) as (v3 & H3 & S3).
    exists v3. split; [done|]. by eapply same_except_parent_trans.
  - by eauto.
Qed.

Lemma rank_ok_evolves rank st st' :
  rank_ok rank st → evolves st st' → rank_ok rank st'.
Proof.
  intros Hr (_ & _ & _ & _ & Hb) c vc p Hc Hg Hp.
  eapply Hr; [by apply Hb| |]; done.
Qed.

Lemma touchable_evolves rank st st' r x vx :
  evolves st st' → views st !! x = Some vx → views st' !! x = Some vx →
  touchable rank st' r x → touchable rank st r x.
Proof.
  intros (_ & _ & _ & _ & Hb) Hx Hx' (vx' & d & vd & Hx2 & Hp & Hd & Hg & Hr).
  assert (vx' = vx) as -> by congruence.
  exists vx, d, vd. eauto 10.
Qed.

Lemma touchable_mono rank st r r' x :
  (r ≤ r')%nat → touchable rank st r x → touchable rank st r' x.
Proof.
  intros Hle (vx & d & vd & ? & ? & ? & ? & ?).
  exists vx, d, vd. repeat split; try done. lia.
Qed.

Lemma copy_stored i v default st :
  views st !! i = Some v →
  copy i default st =
  Ok (mkDb (<[next_view st := apply_vals default (with_id (next_view st) v)]> (views st))
           (pages st) (menus st) (websites st) (modules st) (ir_model_data st)
           (next_view st + 1) (next_page st) (next_menu st) (view_order st),
      next_view st).
Proof. intros H. unfold copy, read. by rewrite H. Qed.

Lemma menus_loop_views ctx ms n : ∀ st,
  views (fold_left (λ st menu, menu_write ctx menu n st) ms st) = views st ∧
  next_view (fold_left (λ st menu, menu_write ctx menu n st) ms st) = next_view st ∧
  websites (fold_left (λ st menu, menu_write ctx menu n st) ms st) = websites st.
Proof.
  induction ms as [|m ms IH]; intros st; simpl; [done|].
  destruct (IH (menu_write ctx m n st)) as (-> & -> & ->).
  unfold menu_write. by destruct (menu_cow ctx m).
Qed.

Lemma copy_page_and_menus_views ctx n st p :
  views (copy_page_and_menus ctx n st p) = views st ∧
  next_view (copy_page_and_menus ctx n st p) = next_view st ∧
  websites (copy_page_and_menus ctx n st p) = websites st.
Proof.
  unfold copy_page_and_menus, page_copy.
  match goal with |- context [fold_left ?f ?ms ?s] =>
    destruct (menus_loop_views ctx ms (next_page st) s) as (-> & -> & ->) end.
  done.
Qed.

Lemma create_pages_views ctx i n st :
  views (_create_website_specific_pages_for_view ctx i n st) = views st ∧
  next_view (_create_website_specific_pages_for_view ctx i n st) = next_view st ∧
  websites (_create_website_specific_pages_for_view ctx i n st) = websites st.
Proof.
  unfold _create_website_specific_pages_for_view.
  generalize (page_ids st i). intros ps. revert st.
  induction ps as [|p ps IH]; intros st; simpl; [done|].
  destruct (IH (copy_page_and_menus ctx n st p)) as (-> & -> & ->).
  apply copy_page_and_menus_views.
Qed.

Lemma all_views_ids_NoDup st : wf_views st → NoDup (v_id <$> all_views st).
Proof.
  intros Hwf. unfold all_views, rows. rewrite sorted_by_perm.
  assert (v_id <$> map snd (map_to_list (views st)) = (map_to_list (views st)).*1) as ->.
  { change (map snd (map_to_list (views st))) with ((map_to_list (views st)).*2).
    rewrite <- list_fmap_compose. apply list_fmap_ext.
    intros k [i v] Hin. apply list_elem_of_lookup_2, elem_of_map_to_list in Hin.
    simpl. by destruct (Hwf i v Hin). }
  apply NoDup_fst_map_to_list.
Qed.

Lemma NoDup_fmap_filter {A B} (f : A → B) (P : A → Prop) `{∀ x, Decision (P x)} l :
  NoDup (f <$> l) → NoDup (f <$> filter P l).
Proof.
  induction l as [|x l IH]; simpl; [done|].
  rewrite NoDup_cons. intros [Hx Hl].
  rewrite filter_cons. case_decide; [|by apply IH].
  simpl. apply NoDup_cons. split; [|by apply IH].
  intros Hin. apply Hx. apply list_elem_of_fmap in Hin as (y & -> & Hy).
  apply list_elem_of_filter in Hy as [_ Hy]. by apply list_elem_of_fmap_2.
Qed.

Lemma inherit_children_ids_NoDup st i :
  wf_views st → NoDup (inherit_children_ids st i).
Proof.
  intros Hwf. unfold inherit_children_ids.
  change (map v_id ?l) with (v_id <$> l).
  rewrite order_views_perm. apply NoDup_fmap_filter. by apply all_views_ids_NoDup.
Qed.

Lemma elem_of_inherit_children_ids st i c :
  wf_views st →
  c ∈ inherit_children_ids st i ↔
  ∃ vc, views st !! c = Some vc ∧ v_inherit_id vc = Some i.
Proof.
  intros Hwf. unfold inherit_children_ids.
  change (map v_id ?l) with (v_id <$> l).
  rewrite order_views_perm, list_elem_of_fmap. split.
  - intros (vc & -> & Hin). apply list_elem_of_filter in Hin as [Hp Hin].
    apply elem_of_all_views in Hin as [j Hj].
    destruct (Hwf j vc Hj) as [-> _]. eauto.
  - intros (vc & Hc & Hp). exists vc. destruct (Hwf c vc Hc) as [Hid _].
    split; [done|]. apply list_elem_of_filter. split; [done|].
    apply elem_of_all_views. eauto.
Qed.

Section CopyOnWrite.
Context (rank : Z → nat) (ctx : context) (w : Z).
Hypothesis Hcow : cow_context ctx w.

Lemma cow_truthy : truthy (ctx_website_id ctx) = true.
Proof using Hcow.
  destruct Hcow as (_ & _ & -> & Hw0). simpl.
  by destruct (Z.eqb_spec w 0).
Qed.

Lemma write_specific_in_place fuel c vc vals st :
  views st !! c = Some vc → is_generic vc = false →
  write (S fuel) ctx [c] vals st = Ok (set_views (insert c (apply_vals vals vc)) st).
Proof using Hcow.
  intros Hc Hg. pose proof cow_truthy as Ht.
  destruct Hcow as (Hnc & Hth & Hw & Hw0).
  cbn [write]. rewrite Hnc. cbn [negb for_each]. unfold write_view.
  rewrite Hth. cbn [bind]. rewrite Ht. cbn [read_one]. unfold read at 1.
  rewrite Hc. cbn [bind]. rewrite Hg.
  by rewrite (super_write_one _ _ _ _ Hc).
Qed.

Lemma write_generic_unfold fuel i v vals st :
  views st !! i = Some v → is_generic v = true →
  write (S fuel) ctx [i] vals st = write_fork (write fuel) ctx vals i (Some w) st.
Proof using Hcow.
  intros Hi Hg. pose proof cow_truthy as Ht.
  destruct Hcow as (Hnc & Hth & Hw & Hw0).
  cbn [write]. rewrite Hnc. cbn [negb for_each]. unfold write_view.
  rewrite Hth. cbn [bind]. rewrite Ht. cbn [read_one]. unfold read at 1.
  rewrite Hi. cbn [bind]. rewrite Hg, Hw.
  by destruct (write_fork _ _ _ _ _ _).
Qed.

Lemma write_in_place_evolves c vc q st :
  wf_views st → views st !! c = Some vc → is_generic vc = false →
  wf_views (set_views (insert c (set_field vc (FInherit q))) st) ∧
  evolves st (set_views (insert c (set_field vc (FInherit q))) st).
Proof.
  intros Hwf Hc Hg. split.
  - intros x vx. simpl. destruct (decide (c = x)) as [->|Hne].
    + rewrite lookup_insert_eq. intros [= <-]. simpl. by apply Hwf in Hc.
    + rewrite lookup_insert_ne by done. apply Hwf.
  - split; [simpl; lia|]. split; [done|]. simpl. split; [|split].
    + intros x vx Hx Hgx. rewrite lookup_insert_ne; [done|]. congruence.
    + intros x vx Hx. destruct (decide (c = x)) as [->|Hne].
      * rewrite lookup_insert_eq. eexists. split; [done|].
        assert (vx = vc) as -> by congruence. by exists q.
      * rewrite lookup_insert_ne by done. exists vx.
        split; [done|apply same_except_parent_refl].
    + intros x vx. destruct (decide (c = x)) as [->|Hne].
      * rewrite lookup_insert_eq. intros [= <-]. simpl.
        unfold is_generic in *. simpl. congruence.
      * by rewrite lookup_insert_ne.
Qed.
End CopyOnWrite.

(** ** Copy-on-write: pages and menus *)

Lemma elem_of_rows {T} (tid : T → Z) (table : gmap Z T) x :
  x ∈ rows tid table ↔ ∃ i, table !! i = Some x.
Proof.
  unfold rows. rewrite elem_of_sorted_by, list_elem_of_fmap. split.
  - intros ([i y] & -> & Hin). exists i. by apply elem_of_map_to_list in Hin.
  - intros [i Hi]. exists (i, x). split; [done|]. by apply elem_of_map_to_list.
Qed.

Lemma rows_ids_NoDup {T} (tid : T → Z) (table : gmap Z T) :
  (∀ i x, table !! i = Some x → tid x = i) → NoDup (tid <$> rows tid table).
Proof.
  intros Hwf. unfold rows. rewrite sorted_by_perm.
  assert (tid <$> map snd (map_to_list table) = (map_to_list table).*1) as ->.
  { change (map snd (map_to_list table)) with ((map_to_list table).*2).
    rewrite <- list_fmap_compose. apply list_fmap_ext.
    intros k [i y] Hin. apply list_elem_of_lookup_2, elem_of_map_to_list in Hin.
    simpl. by apply Hwf. }
  apply NoDup_fst_map_to_list.
Qed.

Lemma elem_of_menu_ids st k m :
  wf_menus st →
  m ∈ menu_ids st k ↔ menus st !! m_id m = Some m ∧ m_page_id m = Some k.
Proof.
  intros Hwf. unfold menu_ids. rewrite list_elem_of_filter, elem_of_rows. split.
  - intros [Hp [j Hj]]. destruct (Hwf j m Hj) as [-> _]. done.
  - intros [Hm Hp]. eauto.
Qed.

Lemma menu_ids_NoDup st k : wf_menus st → NoDup (m_id <$> menu_ids st k).
Proof.
  intros Hwf. unfold menu_ids. apply NoDup_fmap_filter, rows_ids_NoDup.
  intros j m Hj. by destruct (Hwf _ _ Hj).
Qed.

Lemma elem_of_page_ids st i p :
  wf_pages st →
  p ∈ page_ids st i ↔ pages st !! p_id p = Some p ∧ p_view_id p = i.
Proof.
  intros Hwf. unfold page_ids. rewrite list_elem_of_filter, elem_of_rows. split.
  - intros [Hp [j Hj]]. destruct (Hwf j p Hj) as [-> _]. done.
  - intros [Hm Hp]. eauto.
Qed.

Lemma page_ids_NoDup st i : wf_pages st → NoDup (p_id <$> page_ids st i).
Proof.
  intros Hwf. unfold page_ids. apply NoDup_fmap_filter, rows_ids_NoDup.
  intros j p Hj. by destruct (Hwf _ _ Hj).
Qed.

Lemma menu_rewritten_weaken ctx s sa s' j m k' :
  next_menu s ≤ next_menu sa →
  menu_rewritten ctx sa s' j m k' → menu_rewritten ctx s s' j m k'.
Proof.
  unfold menu_rewritten. intros Hle. destruct (menu_cow ctx m); [|done].
  intros [Hm (j' & Hb & Hj')]. split; [done|]. exists j'. split; [lia|done].
Qed.

Lemma menus_loop ctx k' : ∀ ms s,
  wf_menus s → NoDup (m_id <$> ms) →
  (∀ m, m ∈ ms → menus s !! m_id m = Some m) →
  wf_menus (fold_left (λ s m, menu_write ctx m k' s) ms s) ∧
  next_menu s ≤ next_menu (fold_left (λ s m, menu_write ctx m k' s) ms s) ∧
  pages (fold_left (λ s m, menu_write ctx m k' s) ms s) = pages s ∧
  next_page (fold_left (λ s m, menu_write ctx m k' s) ms s) = next_page s ∧
  (∀ j m0, menus s !! j = Some m0 → j ∉ m_id <$> ms →
     menus (fold_left (λ s m, menu_write ctx m k' s) ms s) !! j = Some m0) ∧
  (∀ m, m ∈ ms →
     menu_rewritten ctx s (fold_left (λ s m, menu_write ctx m k' s) ms s)
                    (m_id m) m k').
Proof.
  induction ms as [|m ms IH]; intros s Hwf Hnd Hst; simpl.
  { split; [done|]. split; [lia|]. split; [done|]. split; [done|].
    split; [done|]. intros m Hm. by apply elem_of_nil in Hm. }
  apply NoDup_cons in Hnd as [Hm_notin Hnd].
  assert (Hm : menus s !! m_id m = Some m) by (apply Hst; left).
  pose proof (Hwf _ _ Hm) as [_ Hm_lt].
  set (sa := menu_write ctx m k' s).
  (* the state after the head *)
  assert (Hsa : wf_menus sa ∧ next_menu s ≤ next_menu sa ∧
            pages sa = pages s ∧ next_page sa = next_page s ∧
            (∀ j m0, menus s !! j = Some m0 → j ≠ m_id m → menus sa !! j = Some m0) ∧
            menu_rewritten ctx s sa (m_id m) m k' ∧
            (∀ j m0, menus sa !! j = Some m0 → menus s !! j = None →
                     j = next_menu s)).
  { unfold sa, menu_write, menu_rewritten. destruct (menu_cow ctx m); simpl.
    - split.
      { intros j m0. simpl. destruct (decide (next_menu s = j)) as [<-|Hne].
        - rewrite lookup_insert_eq. intros [= <-]. simpl. lia.
        - rewrite lookup_insert_ne by done. intros Hj. apply Hwf in Hj. lia. }
      split; [lia|]. split; [done|]. split; [done|]. split.
      { intros j m0 Hj _. rewrite lookup_insert_ne; [done|].
        intros <-. apply Hwf in Hj. lia. }
      split.
      { split; [rewrite lookup_insert_ne; [done|lia]|].
        exists (next_menu s). split; [lia|]. by rewrite lookup_insert_eq. }
      intros j m0. destruct (decide (next_menu s = j)) as [<-|Hne]; [done|].
      rewrite lookup_insert_ne by done. congruence.
    - split.
      { intros j m0. simpl. destruct (decide (m_id m = j)) as [<-|Hne].
        - rewrite lookup_insert_eq. intros [= <-]. simpl. lia.
        - rewrite lookup_insert_ne by done. apply Hwf. }
      split; [lia|]. split; [done|]. split; [done|]. split.
      { intros j m0 Hj Hne. by rewrite lookup_insert_ne. }
      split; [by rewrite lookup_insert_eq|].
      intros j m0. destruct (decide (m_id m = j)) as [<-|Hne]; [congruence|].
      rewrite lookup_insert_ne by done. congruence. }
  destruct Hsa as (Hwfa & Hna & Hpa & Hnpa & Hfra & Hresa & Hnewa).
  destruct (IH sa) as (Hwf' & Hn' & Hp' & Hnp' & Hfr' & Hres'); try done.
  { intros m2 Hm2. apply Hfra; [by apply Hst; right|].
    intros E. apply Hm_notin. rewrite <- E. by apply list_elem_of_fmap_2. }
  assert (Hfresh_notin : next_menu s ∉ m_id <$> ms).
  { intros Hin. apply list_elem_of_fmap in Hin as (m2 & E & Hm2).
    assert (menus s !! m_id m2 = Some m2) as H2 by (apply Hst; by right).
    apply Hwf in H2. lia. }
  split; [done|]. split; [lia|]. split; [congruence|]. split; [congruence|].
  split.
  - intros j m0 Hj Hnotin. apply not_elem_of_cons in Hnotin as [Hne Hnotin].
    apply Hfr'; [by apply Hfra|done].
  - intros m2 Hm2. apply elem_of_cons in Hm2 as [->|Hm2].
    + unfold menu_rewritten in *. destruct (menu_cow ctx m).
      * destruct Hresa as [Hm_a (j' & Hb & Hj')]. split; [by apply Hfr'|].
        exists j'. split; [lia|].
        apply Hfr'; [done|].
        assert (j' = next_menu s) as ->; [|done].
        apply (Hnewa j' _ Hj').
        destruct (menus s !! j') as [m0|] eqn:E0; [|done].
        apply Hwf in E0. lia.
      * by apply Hfr'.
    + eapply menu_rewritten_weaken; [exact Hna|]. by apply Hres'.
Qed.

Lemma menu_rewritten_persist ctx s sa s' j m k' :
  next_menu sa ≤ next_menu s' →
  (∀ j0 m0, menus sa !! j0 = Some m0 →
     m_page_id m0 = m_page_id m ∨ m_page_id m0 = Some k' →
     menus s' !! j0 = Some m0) →
  menu_rewritten ctx s sa j m k' → menu_rewritten ctx s s' j m k'.
Proof.
  unfold menu_rewritten. intros Hle Hkeep. destruct (menu_cow ctx m).
  - intros [Hm (j' & Hb & Hj')]. split; [apply Hkeep; auto|].
    exists j'. split; [lia|]. apply Hkeep; auto.
  - intros Hm. apply Hkeep; auto.
Qed.

Lemma pages_loop ctx n : ∀ ps s,
  wf_pages s → wf_menus s → NoDup (p_id <$> ps) →
  (∀ p, p ∈ ps → pages s !! p_id p = Some p) →
  wf_pages (fold_left (copy_page_and_menus ctx n) ps s) ∧
  wf_menus (fold_left (copy_page_and_menus ctx n) ps s) ∧
  next_page s ≤ next_page (fold_left (copy_page_and_menus ctx n) ps s) ∧
  next_menu s ≤ next_menu (fold_left (copy_page_and_menus ctx n) ps s) ∧
  (∀ k p, pages s !! k = Some p →
     pages (fold_left (copy_page_and_menus ctx n) ps s) !! k = Some p) ∧
  (∀ j m, menus s !! j = Some m →
     (∀ p, p ∈ ps → m_page_id m ≠ Some (p_id p)) →
     menus (fold_left (copy_page_and_menus ctx n) ps s) !! j = Some m) ∧
  (∀ p, p ∈ ps →
     ∃ k', next_page s ≤ k' < next_page (fold_left (copy_page_and_menus ctx n) ps s) ∧
       pages (fold_left (copy_page_and_menus ctx n) ps s) !! k'
         = Some (mkPage k' n (p_url p)) ∧
       ∀ j m, menus s !! j = Some m → m_page_id m = Some (p_id p) →
         menu_rewritten ctx s (fold_left (copy_page_and_menus ctx n) ps s) j m k').
Proof.
  induction ps as [|p ps IH]; intros s Hwfp Hwfm Hnd Hst; simpl.
  { split; [done|]. split; [done|]. split; [lia|]. split; [lia|].
    split; [done|]. split; [done|]. intros p Hp. by apply elem_of_nil in Hp. }
  apply NoDup_cons in Hnd as [Hp_notin Hnd].
  assert (Hp : pages s !! p_id p = Some p) by (apply Hst; left).
  pose proof (Hwfp _ _ Hp) as [_ Hp_lt].
  set (k' := next_page s).
  set (s0 := (page_copy p n s).1).
  assert (Hwfm0 : wf_menus s0) by done.
  destruct (menus_loop ctx k' (menu_ids s0 (p_id p)) s0 Hwfm0)
    as (Hwfma & Hnma & Hpa & Hnpa & Hfra & Hresa).
  { by apply menu_ids_NoDup. }
  { intros m Hm. by apply elem_of_menu_ids in Hm as [? _]. }
  change (copy_page_and_menus ctx n s p) with
    (fold_left (λ s m, menu_write ctx m k' s) (menu_ids s0 (p_id p)) s0).
  set (sa := fold_left (λ s m, menu_write ctx m k' s) (menu_ids s0 (p_id p)) s0) in *.
  simpl in Hpa, Hnpa, Hnma.
  assert (Hwfpa : wf_pages sa).
  { intros k q. rewrite Hpa, Hnpa. fold k'.
    destruct (decide (k' = k)) as [<-|Hne].
    - rewrite lookup_insert_eq. intros [= <-]. simpl. lia.
    - rewrite lookup_insert_ne by done. intros Hk. apply Hwfp in Hk. lia. }
  assert (Hpages_a : ∀ k q, pages s !! k = Some q → pages sa !! k = Some q).
  { intros k q Hk. rewrite Hpa. fold k'. rewrite lookup_insert_ne; [done|].
    intros <-. apply Hwfp in Hk. lia. }
  assert (Hmenus_a : ∀ j m, menus s !! j = Some m → m_page_id m ≠ Some (p_id p) →
            menus sa !! j = Some m).
  { intros j m Hj Hne. apply Hfra; [done|].
    intros Hin. apply list_elem_of_fmap in Hin as (m2 & -> & Hm2).
    apply elem_of_menu_ids in Hm2 as [H2 Hp2]; [|done].
    assert (m2 = m) as -> by (simpl in H2; congruence). done. }
  destruct (IH sa) as (Hwfp' & Hwfm' & Hnp' & Hnm' & Hpg' & Hmn' & Hres'); try done.
  { intros p2 Hp2. apply Hpages_a. apply Hst. by right. }
  assert (Hother : ∀ p2, p2 ∈ ps → p_id p2 ≠ p_id p ∧ p_id p2 ≠ k').
  { intros p2 Hp2. split.
    - intros E. apply Hp_notin. rewrite <- E. by apply list_elem_of_fmap_2.
    - intros E. assert (pages s !! p_id p2 = Some p2) as H2 by (apply Hst; by right).
      apply Hwfp in H2. unfold k' in E. lia. }
  split; [done|]. split; [done|]. split; [lia|]. split; [lia|].
  split; [by auto|]. split.
  - intros j m Hj Hnot. apply Hmn'.
    + apply Hmenus_a; [done|]. apply Hnot. left.
    + intros p2 Hp2. apply Hnot. by right.
  - intros p0 Hp0. apply elem_of_cons in Hp0 as [->|Hp0].
    + exists k'. split; [unfold k'; lia|]. split.
      { apply Hpg'. rewrite Hpa. fold k'. by rewrite lookup_insert_eq. }
      intros j m Hj Hpj.
      assert (m ∈ menu_ids s0 (p_id p)) as Hin.
      { apply elem_of_menu_ids; [done|]. split; [|done].
        destruct (Hwfm _ _ Hj) as [-> _]. done. }
      specialize (Hresa m Hin). destruct (Hwfm _ _ Hj) as [Hid _].
      rewrite Hid in Hresa.
      eapply (menu_rewritten_persist ctx s0 sa); [lia| |exact Hresa].
      intros j0 m0 Hj0 Hpage. apply Hmn'; [done|].
      intros p2 Hp2 E. destruct (Hother p2 Hp2) as [Hne1 Hne2].
      destruct Hpage as [Hpage|Hpage]; rewrite Hpage in E; congruence.
    + destruct (Hres' p0 Hp0) as (k2 & Hb2 & Hk2 & Hm2).
      exists k2. split; [lia|]. split; [done|].
      intros j m Hj Hpj.
      eapply menu_rewritten_weaken; [exact Hnma|].
      apply Hm2; [|done]. apply Hmenus_a; [done|].
      rewrite Hpj. destruct (Hother p0 Hp0) as [Hne _]. congruence.
Qed.

Lemma pm_evolves_same st st' :
  pages st' = pages st → menus st' = menus st →
  next_page st' = next_page st → next_menu st' = next_menu st →
  pm_evolves st st'.
Proof.
  intros Hp Hm Hnp Hnm Hwfp Hwfm. unfold wf_pages, wf_menus.
  rewrite Hp, Hm, Hnp, Hnm.
  split; [exact Hwfp|]. split; [exact Hwfm|]. split; [lia|]. split; [lia|].
  split; by auto.
Qed.

Lemma protected_menu_evolves st st' m :
  evolves st st' →
  (∀ k p, pages st !! k = Some p → pages st' !! k = Some p) →
  protected_menu st m → protected_menu st' m.
Proof.
  intros (_ & _ & _ & He & _) Hpg [Hg|(k & pk & vo & Hk & Hpk & Hvo & Hgo)];
    [by left|right].
  destruct (He _ _ Hvo) as (vo' & Hvo' & Hs).
  exists k, pk, vo'. repeat split; try done; [by apply Hpg|].
  by rewrite (same_except_parent_generic _ _ Hs).
Qed.

Lemma pm_evolves_trans st1 st2 st3 :
  evolves st1 st2 → pm_evolves st1 st2 → pm_evolves st2 st3 → pm_evolves st1 st3.
Proof.
  intros Hev H12 H23 Hwfp Hwfm.
  destruct (H12 Hwfp Hwfm) as (Hwfp2 & Hwfm2 & Hnp2 & Hnm2 & Hpg2 & Hmn2).
  destruct (H23 Hwfp2 Hwfm2) as (Hwfp3 & Hwfm3 & Hnp3 & Hnm3 & Hpg3 & Hmn3).
  split; [done|]. split; [done|]. split; [lia|]. split; [lia|].
  split; [by auto|].
  intros j m Hj Hpr. apply Hmn3; [by apply Hmn2|].
  by eapply protected_menu_evolves.
Qed.

Lemma evolves_same_views st st' :
  views st' = views st → next_view st' = next_view st →
  websites st' = websites st → evolves st st'.
Proof.
  intros Hv Hn Hw. unfold evolves. rewrite Hv, Hn, Hw.
  split; [lia|]. split; [done|]. split; [done|]. split; [|done].
  intros x vx Hx. exists vx. split; [done|apply same_except_parent_refl].
Qed.

Lemma menu_rewritten_protected ctx s sa s' j m k' pk vo :
  next_menu sa ≤ next_menu s' →
  pages sa !! k' = Some pk → views sa !! p_view_id pk = Some vo →
  is_generic vo = false →
  (∀ j0 m0, menus sa !! j0 = Some m0 → protected_menu sa m0 →
            menus s' !! j0 = Some m0) →
  menu_rewritten ctx s sa j m k' → menu_rewritten ctx s s' j m k'.
Proof.
  unfold menu_rewritten. intros Hle Hpk Hvo Hgo Hkeep.
  assert (Hnew : ∀ m0, m_page_id m0 = Some k' → protected_menu sa m0).
  { intros m0 Hm0. right. exists k', pk, vo. done. }
  destruct (menu_cow ctx m) eqn:Hc.
  - intros [Hm (j' & Hb & Hj')]. split.
    + apply Hkeep; [done|]. left. unfold menu_cow in Hc.
      apply andb_true_iff in Hc as [_ Hc]. by apply negb_true_iff in Hc.
    + exists j'. split; [lia|]. apply Hkeep; [done|]. by apply Hnew.
  - intros Hm. apply Hkeep; [done|]. by apply Hnew.
Qed.

(** The copy of the pages and menus of the generic view [i] for the new
    view [n]. *)
Lemma create_pages_pm ctx w i v n st :
  cow_context ctx w →
  views st !! i = Some v → is_generic v = true →
  pm_evolves st (_create_website_specific_pages_for_view ctx i n st) ∧
  (wf_pages st → wf_menus st →
   ∀ k p, pages st !! k = Some p → p_view_id p = i →
     ∃ k', next_page st ≤ k'
             < next_page (_create_website_specific_pages_for_view ctx i n st) ∧
       pages (_create_website_specific_pages_for_view ctx i n st) !! k'
         = Some (mkPage k' n (p_url p)) ∧
       ∀ j m, menus st !! j = Some m → m_page_id m = Some k →
         menu_rewritten ctx st (_create_website_specific_pages_for_view ctx i n st)
                        j m k').
Proof.
  intros Hcow Hi Hgi.
  assert (Hloop : wf_pages st → wf_menus st → _) by
    (intros Hwfp Hwfm;
     exact (pages_loop ctx n (page_ids st i) st Hwfp Hwfm
              (page_ids_NoDup st i Hwfp)
              (λ p Hp, proj1 (proj1 (elem_of_page_ids st i p Hwfp) Hp)))).
  fold (_create_website_specific_pages_for_view ctx i n st) in Hloop.
  split.
  - intros Hwfp Hwfm.
    destruct (Hloop Hwfp Hwfm) as (Hwfp' & Hwfm' & Hnp & Hnm & Hpg & Hmn & Hres).
    split; [done|]. split; [done|]. split; [done|]. split; [done|].
    split; [done|]. intros j m Hj Hpr.
    destruct (m_page_id m) as [k|] eqn:Hk;
      [|apply Hmn; [done|]; intros p _; congruence].
    destruct (pages st !! k) as [pk|] eqn:Hpk.
    2:{ apply Hmn; [done|]. intros p Hp E. rewrite Hk in E. injection E as ->.
        apply elem_of_page_ids in Hp as [Hp _]; [|done]. congruence. }
    destruct (decide (p_view_id pk = i)) as [Hown|Hown].
    + destruct (Hwfp _ _ Hpk) as [Hid _].
      assert (pk ∈ page_ids st i) as Hin.
      { apply elem_of_page_ids; [done|]. by rewrite Hid. }
      destruct (Hres pk Hin) as (k' & _ & _ & Hm).
      specialize (Hm j m Hj). rewrite Hid in Hm. specialize (Hm Hk).
      unfold menu_rewritten in Hm.
      destruct Hpr as [Hg|(k2 & pk2 & vo & Hk2 & Hpk2 & Hvo & Hgo)].
      * assert (menu_cow ctx m = true) as Hc.
        { unfold menu_cow. destruct Hcow as (-> & _ & -> & Hw0). simpl.
          rewrite Hg. by destruct (Z.eqb_spec w 0). }
        rewrite Hc in Hm. by destruct Hm.
      * rewrite Hk in Hk2. injection Hk2 as <-.
        assert (pk2 = pk) as -> by congruence. rewrite Hown in Hvo. congruence.
    + apply Hmn; [done|]. intros p Hp E. rewrite Hk in E. injection E as ->.
      apply elem_of_page_ids in Hp as [Hp Hpi]; [|done]. congruence.
  - intros Hwfp Hwfm k p Hk Hown.
    destruct (Hloop Hwfp Hwfm) as (_ & _ & _ & _ & _ & _ & Hres).
    destruct (Hwfp _ _ Hk) as [Hid _].
    assert (p ∈ page_ids st i) as Hin.
    { apply elem_of_page_ids; [done|]. by rewrite Hid. }
    destruct (Hres p Hin) as (k' & Hb & Hk' & Hm).
    exists k'. split; [done|]. split; [done|]. by rewrite Hid in Hm.
Qed.

Lemma fork_of_not_generic v n w : w ≠ 0 → is_generic (fork_of v n w) = false.
Proof.
  intros Hw. unfold fork_of, is_generic, apply_vals. simpl.
  by destruct (Z.eqb_spec w 0).
Qed.

Lemma not_touchable_specific_parent rank st r x vx p vp :
  views st !! x = Some vx → v_inherit_id vx = Some p →
  views st !! p = Some vp → is_generic vp = false →
  ¬ touchable rank st r x.
Proof.
  intros Hx Hp Hvp Hg (vx' & d & vd & Hx' & Hd & Hvd & Hgd & _).
  congruence.
Qed.

Section ForkInduction.
Context (rank : Z → nat) (ctx : context) (w : Z).
Hypothesis Hcow : cow_context ctx w.

(** The statement proved by induction on the fuel. *)
Context (fuel : nat).
Hypothesis write_reparented : ∀ c vc q st,
  wf_views st → rank_ok rank st → views st !! c = Some vc →
  (is_generic vc = true → (rank c + 2 ≤ fuel)%nat) → (1 ≤ fuel)%nat →
  ∃ st', write fuel ctx [c] [FInherit q] st = Ok st' ∧
         reparented rank w st st' c vc q.

Lemma children_loop i v n : ∀ cs st,
  wf_views st → rank_ok rank st → NoDup cs → (1 ≤ fuel)%nat →
  views st !! i = Some v → is_generic v = true →
  (∃ vn, views st !! n = Some vn ∧ is_generic vn = false) →
  (∀ c, c ∈ cs → ∃ vc, views st !! c = Some vc ∧ v_inherit_id vc = Some i ∧
                       (is_generic vc = true → (rank c + 2 ≤ fuel)%nat)) →
  ∃ st',
    for_each (λ c s, write fuel ctx [c] [FInherit (Some n)] s) cs st = Ok st' ∧
    wf_views st' ∧ evolves st st' ∧ pm_evolves st st' ∧
    (∀ x vx, views st !! x = Some vx → x ∉ cs →
             ¬ touchable rank st (rank i) x → views st' !! x = Some vx) ∧
    (∀ c vc, c ∈ cs → views st !! c = Some vc →
       if is_generic vc
       then ∃ c', next_view st ≤ c' < next_view st' ∧
                  views st' !! c' =
                    Some (set_field (fork_of vc c' w) (FInherit (Some n)))
       else views st' !! c = Some (set_field vc (FInherit (Some n)))).
Proof using Hcow write_reparented.
  induction cs as [|c cs IH]; intros st Hwf Hrk Hnd Hfuel Hi Hgi Hn Hcs.
  { exists st. split; [done|]. split; [done|]. split; [apply evolves_refl|].
    split; [by apply pm_evolves_same|]. split; [done|]. intros c vc Hc. by apply elem_of_nil in Hc. }
  apply NoDup_cons in Hnd as [Hc_notin Hnd].
  destruct (Hcs c) as (vc & Hc & Hcp & Hcf); [left|].
  destruct (write_reparented c vc (Some n) st Hwf Hrk Hc Hcf Hfuel)
    as (sta & Ea & Hwfa & Heva & Hpma & Hra).
  pose proof Heva as (Hna & Hwsa & Hga & Hea & Hba).
  (* what the head step leaves alone *)
  assert (Hkeep : ∀ x vx, views st !! x = Some vx → x ≠ c →
            ¬ touchable rank st (rank i) x → views sta !! x = Some vx).
  { intros x vx Hx Hxc Hnt. destruct (is_generic vc) eqn:Hgc.
    - destruct Hra as (Hfr & _ & _). apply Hfr; [done|].
      intros Ht. apply Hnt. eapply touchable_mono; [|exact Ht].
      specialize (Hrk c vc i Hc Hgc Hcp). lia.
    - destruct Hra as (Hv & _). by rewrite Hv, lookup_insert_ne. }
  assert (Hsib : ∀ c2 vc2, c2 ∈ cs → views st !! c2 = Some vc2 →
            views sta !! c2 = Some vc2).
  { intros c2 vc2 Hc2 Hv2. destruct (is_generic vc) eqn:Hgc.
    - destruct Hra as (Hfr & _ & _). apply Hfr; [done|].
      intros (vx & d & vd & Hx & Hd & Hvd & Hgd & Hle).
      destruct (Hcs c2) as (vc2' & Hv2' & Hp2 & _); [by right|].
      assert (d = i) as -> by congruence.
      specialize (Hrk c vc i Hc Hgc Hcp). lia.
    - destruct Hra as (Hv & _). rewrite Hv, lookup_insert_ne; [done|].
      intros ->. done. }
  destruct Hn as (vn & Hvn & Hgn).
  destruct (Hea n vn Hvn) as (vn' & Hvn' & Hsn).
  assert (Hgn' : is_generic vn' = false)
    by (by rewrite (same_except_parent_generic _ _ Hsn)).
  destruct (IH sta) as (st' & E' & Hwf' & Hev' & Hpm' & Hfr' & Hres'); try done.
  { by eapply rank_ok_evolves. }
  { by apply Hga. }
  { eauto. }
  { intros c2 Hc2. destruct (Hcs c2) as (vc2 & Hv2 & Hp2 & Hf2); [by right|].
    exists vc2. split; [by apply Hsib|]. done. }
  exists st'. split; [cbn [for_each]; by rewrite Ea|].
  split; [done|]. split; [by eapply evolves_trans|].
  split; [by eapply pm_evolves_trans|].
  pose proof Hev' as (Hn' & _).
  split.
  - intros x vx Hx Hxn Hnt. apply not_elem_of_cons in Hxn as [Hxc Hxcs].
    apply Hfr'; [by apply Hkeep|done|].
    intros Ht. apply Hnt.
    eapply touchable_evolves; [exact Heva|exact Hx|by apply Hkeep|exact Ht].
  - intros c0 vc0 Hc0 Hv0. apply elem_of_cons in Hc0 as [->|Hc0].
    + assert (vc0 = vc) as -> by congruence.
      destruct (is_generic vc) eqn:Hgc.
      * destruct Hra as (_ & Hlt & Hnew).
        exists (next_view st). split; [lia|].
        apply Hfr'; [done| |].
        -- intros Hin. destruct (Hcs (next_view st)) as (vx & Hx & _); [by right|].
           apply Hwf in Hx. lia.
        -- eapply not_touchable_specific_parent; [exact Hnew|done|exact Hvn'|done].
      * destruct Hra as (Hv & _).
        assert (Hca : views sta !! c = Some (set_field vc (FInherit (Some n))))
          by (by rewrite Hv, lookup_insert_eq).
        apply Hfr'; [done|done|].
        eapply not_touchable_specific_parent; [exact Hca|done|exact Hvn'|done].
    + specialize (Hres' c0 vc0 Hc0 (Hsib c0 vc0 Hc0 Hv0)).
      destruct (is_generic vc0); [|done].
      destruct Hres' as (c' & Hb & Hv'). exists c'. split; [lia|done].
Qed.

Lemma copy_for_website_evolves i v st :
  wf_views st → rank_ok rank st → views st !! i = Some v →
  ∀ st1, views st1 = <[next_view st := fork_of v (next_view st) w]> (views st) →
         next_view st1 = next_view st + 1 → websites st1 = websites st →
  wf_views st1 ∧ rank_ok rank st1 ∧ evolves st st1.
Proof using Hcow.
  intros Hwf Hrk Hi st1 Hv1 Hn1 Hw1.
  destruct Hcow as (_ & _ & _ & Hw0).
  pose proof (wf_views_next_fresh st Hwf) as Hfresh.
  assert (Hwf1 : wf_views st1).
  { intros x vx. rewrite Hv1, Hn1.
    destruct (decide (next_view st = x)) as [<-|Hne].
    - rewrite lookup_insert_eq. intros [= <-]. split; [|lia].
      unfold fork_of. by rewrite v_id_apply_vals.
    - rewrite lookup_insert_ne by done. intros Hx. apply Hwf in Hx. lia. }
  assert (Hev : evolves st st1).
  { split; [lia|]. split; [done|]. rewrite Hv1. split; [|split].
    - intros x vx Hx _. rewrite lookup_insert_ne; [done|]. congruence.
    - intros x vx Hx. exists vx. split; [|apply same_except_parent_refl].
      rewrite lookup_insert_ne; [done|]. congruence.
    - intros x vx. destruct (decide (next_view st = x)) as [<-|Hne].
      + rewrite lookup_insert_eq. intros [= <-].
        by rewrite fork_of_not_generic.
      + by rewrite lookup_insert_ne. }
  split; [done|]. split; [|done]. by eapply rank_ok_evolves.
Qed.

Lemma fork_and_propagate_forked i v st :
  wf_views st → rank_ok rank st →
  views st !! i = Some v → is_generic v = true → (rank i + 1 ≤ fuel)%nat →
  ∃ st', fork_and_propagate (write fuel) ctx i (Some w) st = Ok (st', next_view st) ∧
         forked rank ctx w st st' i v (next_view st).
Proof using Hcow write_reparented.
  intros Hwf Hrk Hi Hgi Hfuel.
  pose proof Hcow as (_ & _ & _ & Hw0).
  pose proof (wf_views_next_fresh st Hwf) as Hfresh.
  set (n := next_view st) in *.
  unfold fork_and_propagate. rewrite (copy_stored _ _ _ _ Hi). cbn [bind].
  fold n. fold (fork_of v n w).
  match goal with |- context [_create_website_specific_pages_for_view ctx i n ?s] =>
    set (st0 := s);
    set (st1 := _create_website_specific_pages_for_view ctx i n st0) end.
  destruct (create_pages_views ctx i n st0) as (Hv1 & Hn1 & Hw1).
  fold st1 in Hv1, Hn1, Hw1. simpl in Hv1, Hn1, Hw1.
  destruct (copy_for_website_evolves i v st Hwf Hrk Hi st1 Hv1 Hn1 Hw1)
    as (Hwf1 & Hrk1 & Hev1).
  destruct (copy_for_website_evolves i v st Hwf Hrk Hi st0 eq_refl eq_refl eq_refl)
    as (_ & _ & Hev0).
  assert (Hin : i ≠ n) by (intros ->; congruence).
  assert (Hi0 : views st0 !! i = Some v) by (simpl; by rewrite lookup_insert_ne).
  assert (Hi1 : views st1 !! i = Some v) by (by rewrite Hv1, lookup_insert_ne).
  assert (Hn1' : views st1 !! n = Some (fork_of v n w))
    by (by rewrite Hv1, lookup_insert_eq).
  destruct (create_pages_pm ctx w i v n st0 Hcow Hi0 Hgi) as [Hpm01 Hpages01].
  fold st1 in Hpm01, Hpages01.
  assert (Hpm0 : pm_evolves st st0) by (by apply pm_evolves_same).
  assert (Hpm1 : pm_evolves st st1)
    by exact (pm_evolves_trans _ _ _ Hev0 Hpm0 Hpm01).
  assert (Hold : ∀ x vx, views st !! x = Some vx → views st1 !! x = Some vx).
  { intros x vx Hx. rewrite Hv1, lookup_insert_ne; [done|]. congruence. }
  assert (Hback : ∀ x vx, views st1 !! x = Some vx → is_generic vx = true →
            views st !! x = Some vx).
  { destruct Hev1 as (_ & _ & _ & _ & Hb). exact Hb. }
  destruct (children_loop i v n (inherit_children_ids st1 i) st1)
    as (st' & E & Hwf' & Hev' & Hpm' & Hfr' & Hres'); try done.
  { by apply inherit_children_ids_NoDup. }
  { lia. }
  { exists (fork_of v n w). split; [done|by apply fork_of_not_generic]. }
  { intros c Hc. apply elem_of_inherit_children_ids in Hc as (vc & Hc & Hp); [|done].
    exists vc. split; [done|]. split; [done|]. intros Hg.
    specialize (Hrk c vc i (Hback c vc Hc Hg) Hg Hp). lia. }
  exists st'. rewrite E. cbn [bind]. split; [done|].
  pose proof Hev' as (Hn' & _).
  split; [done|]. split; [exact (evolves_trans _ _ _ Hev1 Hev')|].
  split; [exact (pm_evolves_trans _ _ _ Hev1 Hpm1 Hpm')|].
  split; [done|]. split; [lia|].
  assert (Hrank_i : ∀ d, v_inherit_id v = Some d → (rank i < rank d)%nat).
  { intros d Hd. by eapply Hrk. }
  split; [|split; [|split]].
  - apply Hfr'; [done| |].
    + intros Hc. apply elem_of_inherit_children_ids in Hc as (vc & Hc & Hp); [|done].
      assert (vc = fork_of v n w) as -> by congruence.
      unfold fork_of, apply_vals in Hp. simpl in Hp.
      specialize (Hrank_i i Hp). lia.
    + intros (vx & d & vd & Hx & Hd & Hvd & Hgd & Hle).
      assert (vx = fork_of v n w) as -> by congruence.
      unfold fork_of, apply_vals in Hd. simpl in Hd.
      specialize (Hrank_i d Hd). lia.
  - intros x vx Hx Hnt. apply Hfr'; [by apply Hold| |].
    + intros Hc. apply elem_of_inherit_children_ids in Hc as (vc & Hc & Hp); [|done].
      apply Hnt. assert (vc = vx) as -> by (apply Hold in Hx; congruence).
      exists vx, i, v. repeat split; try done.
    + intros (vx' & d & vd & Hx' & Hd & Hvd & Hgd & Hle). apply Hnt.
      assert (vx' = vx) as -> by (apply Hold in Hx; congruence).
      exists vx, d, vd. repeat split; try done. by apply Hback.
  - intros c vc Hc Hp.
    assert (c ∈ inherit_children_ids st1 i) as Hcin.
    { apply elem_of_inherit_children_ids; [done|]. eauto. }
    specialize (Hres' c vc Hcin (Hold c vc Hc)).
    destruct (is_generic vc); [|done].
    destruct Hres' as (c' & Hb & Hv'). exists c'. split; [lia|done].
  - intros Hwfp Hwfm k p Hk Hown.
    destruct (Hpages01 Hwfp Hwfm k p Hk Hown) as (k' & Hb & Hk' & Hm).
    destruct (Hpm01 Hwfp Hwfm) as (Hwfp1 & Hwfm1 & _).
    destruct (Hpm' Hwfp1 Hwfm1) as (_ & _ & Hnp' & Hnm' & Hpg' & Hmn').
    exists k'. split; [simpl in Hb; lia|]. split; [by apply Hpg'|].
    intros j m Hj Hpj.
    eapply (menu_rewritten_protected ctx st st1 st' j m k' _ (fork_of v n w));
      [done|exact Hk'|exact Hn1'|by apply fork_of_not_generic|done|].
    by apply Hm.
Qed.
End ForkInduction.

Section WriteFork.
Context (rank : Z → nat) (ctx : context) (w : Z).
Hypothesis Hcow : cow_context ctx w.

(** The write of a value set on a generic view: the view is forked, and
    the values go to the fork, in place. *)
Lemma write_generic_step fuel i v vals st :
  (∀ c vc q st,
     wf_views st → rank_ok rank st → views st !! c = Some vc →
     (is_generic vc = true → (rank c + 2 ≤ fuel)%nat) → (1 ≤ fuel)%nat →
     ∃ st', write fuel ctx [c] [FInherit q] st = Ok st' ∧
            reparented rank w st st' c vc q) →
  wf_views st → rank_ok rank st →
  views st !! i = Some v → is_generic v = true → (rank i + 1 ≤ fuel)%nat →
  ∃ st1, forked rank ctx w st st1 i v (next_view st) ∧
    write (S fuel) ctx [i] vals st =
    Ok (set_views (insert (next_view st)
                     (apply_vals vals (fork_of v (next_view st) w))) st1).
Proof using Hcow.
  intros IH Hwf Hrk Hi Hgi Hfuel.
  destruct (fork_and_propagate_forked rank ctx w Hcow fuel IH i v st)
    as (st1 & E & Hf); try done.
  exists st1. split; [done|].
  rewrite (write_generic_unfold ctx w Hcow _ _ _ _ _ Hi Hgi).
  unfold write_fork. rewrite E. cbn [bind].
  destruct Hf as (_ & _ & _ & _ & _ & Hn & _).
  destruct fuel as [|fuel]; [lia|].
  apply (write_specific_in_place ctx w Hcow); [done|].
  apply fork_of_not_generic. by destruct Hcow as (_ & _ & _ & ?).
Qed.

Lemma write_reparent_spec : ∀ fuel c vc q st,
  wf_views st → rank_ok rank st → views st !! c = Some vc →
  (is_generic vc = true → (rank c + 2 ≤ fuel)%nat) → (1 ≤ fuel)%nat →
  ∃ st', write fuel ctx [c] [FInherit q] st = Ok st' ∧
         reparented rank w st st' c vc q.
Proof using Hcow.
  induction fuel as [|fuel IH]; intros c vc q st Hwf Hrk Hc Hgf Hf; [lia|].
  pose proof Hcow as (_ & _ & _ & Hw0).
  destruct (is_generic vc) eqn:Hg.
  - destruct (write_generic_step fuel c vc [FInherit q] st IH)
      as (st1 & Hfk & E); try done.
    { specialize (Hgf eq_refl). lia. }
    eexists. split; [exact E|].
    destruct Hfk as (Hwf1 & Hev1 & Hpm1 & _ & Hlt & Hn & Hfr & _).
    destruct (write_in_place_evolves (next_view st) (fork_of vc (next_view st) w)
                q st1 Hwf1 Hn (fork_of_not_generic _ _ _ Hw0)) as [Hwf2 Hev2].
    unfold reparented. rewrite Hg.
    split; [done|]. split; [by eapply evolves_trans|].
    split; [eapply pm_evolves_trans; [exact Hev1|exact Hpm1|by apply pm_evolves_same]|].
    split; [|split].
    + intros x vx Hx Hnt. simpl. rewrite lookup_insert_ne; [by apply Hfr|].
      intros <-. apply Hwf in Hx. lia.
    + simpl. lia.
    + simpl. by rewrite lookup_insert_eq.
  - rewrite (write_specific_in_place ctx w Hcow _ _ _ _ _ Hc Hg).
    eexists. split; [done|].
    destruct (write_in_place_evolves c vc q st Hwf Hc Hg) as [Hwf2 Hev2].
    unfold reparented. rewrite Hg.
    split; [done|]. split; [done|]. split; [by apply pm_evolves_same|]. done.
Qed.

(** Enough fuel for the fork of a view: its rank and two more calls. *)
Lemma write_generic_spec fuel i v vals st :
  wf_views st → rank_ok rank st →
  views st !! i = Some v → is_generic v = true → (rank i + 2 ≤ fuel)%nat →
  ∃ st1, forked rank ctx w st st1 i v (next_view st) ∧
    write fuel ctx [i] vals st =
    Ok (set_views (insert (next_view st)
                     (apply_vals vals (fork_of v (next_view st) w))) st1).
Proof using Hcow.
  intros Hwf Hrk Hi Hg Hfuel.
  destruct fuel as [|fuel]; [lia|].
  apply write_generic_step; try done; [|lia].
  intros c vc q st0. apply write_reparent_spec.
Qed.
End WriteFork.

(** ** Copy-on-write: isolation *)



Lemma ex_db_rank_ok : rank_ok ex_rank ex_db.
Proof.
  intros c vc p H Hg Hp. apply elem_of_list_to_map_2 in H.
  repeat (apply elem_of_cons in H as [H|H];
          [injection H as -> ->; simpl in Hp, Hg;
           first [discriminate Hp | discriminate Hg |
                  injection Hp as <-; vm_compute; lia]|]).
  by apply elem_of_nil in H.
Qed.



(** ** Copy-on-write: the structure of a fork *)

(** X21: Forking a generic view [i] for a website [w] carries its
    structure over to the fork [n].  Every page owned by the view is
    copied to a new page owned by the fork, the existing pages staying as
    they are.  The new page is written on every menu entry of the original
    page: a generic entry stays with the original page and a new entry of
    the website points at the new page; an entry that is already website
    specific is moved to the new page.  The fork is written as parent on
    every inheriting view: a generic one is specialized in turn (it keeps
    the original as parent, and a new copy of it for the website inherits
    from the fork); one that is already website specific is re-parented in
    place. *)
Theorem fork_copies_pages_menus_children
    (rank : Z → nat) (fuel : nat) (ctx : context) (w i : Z) (v : view)
    (vals : list field_val) (st : db) :
  cow_context ctx w →
  wf_views st → wf_pages st → wf_menus st → rank_ok rank st →
  views st !! i = Some v → v_website_id v = None →
  (rank i + 2 ≤ fuel)%nat →
  ∃ st', write fuel ctx [i] vals st = Ok st' ∧
    (∀ k p, pages st !! k = Some p → pages st' !! k = Some p) ∧
    (∀ k p, pages st !! k = Some p → p_view_id p = i →
       ∃ k', pages st !! k' = None ∧
             pages st' !! k' = Some (mkPage k' (next_view st) (p_url p)) ∧
             ∀ j m, menus st !! j = Some m → m_page_id m = Some k →
                    menu_rewritten ctx st st' j m k') ∧
    (∀ c vc, views st !! c = Some vc → v_inherit_id vc = Some i →
       if is_generic vc
       then views st' !! c = Some vc ∧
            ∃ c', views st !! c' = None ∧
                  views st' !! c' =
                    Some (set_field (fork_of vc c' w) (FInherit (Some (next_view st))))
       else views st' !! c = Some (set_field vc (FInherit (Some (next_view st))))).
Proof.
  intros Hcow Hwf Hwfp Hwfm Hrk Hi Hgen Hfuel.
  assert (Hg : is_generic v = true) by (unfold is_generic; by rewrite Hgen).
  destruct (write_generic_spec rank ctx w Hcow fuel i v vals st)
    as (st1 & Hfk & E); try done.
  destruct Hfk as (Hwf1 & Hev & Hpm & _ & Hlt & Hn & _ & Hch & Hpg).
  destruct (Hpm Hwfp Hwfm) as (_ & _ & _ & _ & Hpages & _).
  destruct Hev as (_ & _ & Hkeep & _).
  eexists. split; [exact E|]. split; [exact Hpages|]. split.
  - intros k p Hk Hown.
    destruct (Hpg Hwfp Hwfm k p Hk Hown) as (k' & Hb & Hk' & Hm).
    exists k'. split; [|split; [exact Hk'|exact Hm]].
    destruct (pages st !! k') as [p'|] eqn:E'; [|done].
    apply Hwfp in E'. lia.
  - intros c vc Hc Hp. specialize (Hch c vc Hc Hp).
    pose proof (Hwf _ _ Hc) as [_ Hc_lt].
    destruct (is_generic vc) eqn:Hgc.
    + destruct Hch as (c' & Hb & Hc').
      split; [simpl; rewrite lookup_insert_ne by lia; by apply Hkeep|].
      exists c'. split.
      * destruct (views st !! c') as [x|] eqn:E'; [|done].
        apply Hwf in E'. lia.
      * simpl. by rewrite lookup_insert_ne by lia.
    + simpl. by rewrite lookup_insert_ne by lia.
Qed.

(** C7: The fork does not own only newly created children.  An
    inheriting view that is already website specific is not specialized:
    writing on view 1 of [ex_db] under website 1 re-parents view 3, which
    belongs to website 2, to the fork 4 of website 1, so the fork takes
    over an existing record of the original, and the original loses it.
    The generic inheriting view 2 is not rewritten: it keeps view 1 as
    parent and its copy 5 inherits from the fork. *)
Lemma fork_takes_over_specific_child :
  views ex_db !! 3 = Some (ex_view 3 "website.custom" (Some 2) (Some 1) true) ∧
  inherit_children_ids ex_db 1 = [2; 3] ∧
  ∃ st', write 3 ex_ctx [1] [FArch "<div/>"] ex_db = Ok st' ∧
    views st' !! 3 = Some (ex_view 3 "website.custom" (Some 2) (Some 4) true) ∧
    views st' !! 2 = Some (ex_view 2 "website.child" None (Some 1) true) ∧
    inherit_children_ids st' 1 = [2] ∧
    inherit_children_ids st' 4 = [3; 5] ∧
    dom (views st') = {[1; 2; 3; 4; 5]}.
Proof.
  split; [done|]. split; [vm_compute; reflexivity|].
  eexists. split; [vm_compute; reflexivity|].
  split; [done|]. split; [done|].
  split; [vm_compute; reflexivity|]. split; [vm_compute; reflexivity|].
  vm_compute. reflexivity.
Qed.

Lemma ex_db_wf_pages : wf_pages ex_db.
Proof.
  intros k p H. apply elem_of_list_to_map_2 in H.
  repeat (apply elem_of_cons in H as [H|H]; [injection H as -> ->; simpl; lia|]).
  by apply elem_of_nil in H.
Qed.

Lemma ex_db_wf_menus : wf_menus ex_db.
Proof.
  intros k p H. apply elem_of_list_to_map_2 in H.
  repeat (apply elem_of_cons in H as [H|H]; [injection H as -> ->; simpl; lia|]).
  by apply elem_of_nil in H.
Qed.

Lemma fork_copies_pages_menus_children_witness :
  ∃ st', write 3 ex_ctx [1] [FArch "<div/>"] ex_db = Ok st' ∧
    (∃ k', pages ex_db !! k' = None ∧ pages st' !! k' = Some (mkPage k' 4 "/page") ∧
           menu_rewritten ex_ctx ex_db st' 1 (mkMenu 1 (Some 1) None) k') ∧
    views st' !! 3 = Some (ex_view 3 "website.custom" (Some 2) (Some 4) true).
Proof.
  destruct (fork_copies_pages_menus_children ex_rank 3 ex_ctx 1 1
              (ex_view 1 "website.page" None None true) [FArch "<div/>"] ex_db)
    as (st' & E & _ & Hpg & Hch).
  - by repeat split.
  - exact ex_db_wf.
  - exact ex_db_wf_pages.
  - exact ex_db_wf_menus.
  - exact ex_db_rank_ok.
  - reflexivity.
  - reflexivity.
  - vm_compute. lia.
  - exists st'. split; [exact E|]. split.
    + destruct (Hpg 1 (mkPage 1 1 "/page") eq_refl eq_refl) as (k' & Hk & Hk' & Hm).
      exists k'. split; [exact Hk|]. split; [exact Hk'|].
      exact (Hm 1 (mkMenu 1 (Some 1) None) eq_refl eq_refl).
    + exact (Hch 3 (ex_view 3 "website.custom" (Some 2) (Some 1) true) eq_refl eq_refl).
Defined.

(** ** Copy-on-unlink *)

Lemma filtered_generic_loop st self : ∀ acc,
  (∀ i, i ∈ self → is_Some (views st !! i)) →
  for_each (λ i acc, do v <- read st i;
                     Ok (if truthy (v_website_id v) then acc else acc ++ [i]))
           self acc
  = Ok (acc ++ filter (λ i, generic_at st i = true) self).
Proof.
  induction self as [|i self IH]; intros acc Hst; simpl.
  { by rewrite app_nil_r. }
  destruct (Hst i) as [v Hv]; [left|]. unfold read at 1. rewrite Hv. simpl.
  rewrite IH by (intros j Hj; apply Hst; by right).
  assert (Hg : generic_at st i = negb (truthy (v_website_id v)))
    by (unfold generic_at; by rewrite Hv).
  f_equal. rewrite filter_cons.
  destruct (truthy (v_website_id v)) eqn:Ht; simpl in Hg.
  - rewrite decide_False; [done|]. by rewrite Hg.
  - rewrite decide_True by done. by rewrite <- app_assoc.
Qed.

Lemma filtered_generic_spec st self :
  (∀ i, i ∈ self → is_Some (views st !! i)) →
  ∃ gs, filtered_generic st self = Ok gs ∧
    ∀ i, i ∈ gs ↔ i ∈ self ∧ ∃ v, views st !! i = Some v ∧ is_generic v = true.
Proof.
  intros Hst. eexists. split.
  - unfold filtered_generic. by rewrite filtered_generic_loop.
  - intros i. simpl. rewrite list_elem_of_filter. unfold generic_at.
    split.
    + intros [Hg Hin]. split; [done|].
      destruct (views st !! i) as [v|]; [eauto|done].
    + intros [Hin (v & Hv & Hg)]. by rewrite Hv.
Qed.

Lemma mapped_keys_loop st self : ∀ acc,
  (∀ i, i ∈ self → is_Some (views st !! i)) →
  ∃ keys,
    for_each (λ i acc, do v <- read st i;
                       Ok (if bool_decide (v_key v = "") then acc
                           else acc ++ [v_key v]))
             self acc = Ok keys ∧
    ∀ K, K ∈ keys ↔
         K ∈ acc ∨ (K ≠ "" ∧ ∃ i v, i ∈ self ∧ views st !! i = Some v ∧ v_key v = K).
Proof.
  induction self as [|i self IH]; intros acc Hst; simpl.
  { exists acc. split; [done|]. intros K. split; [by left|].
    intros [?|(_ & j & v & Hj & _)]; [done|]. by apply elem_of_nil in Hj. }
  destruct (Hst i) as [v Hv]; [left|]. unfold read at 1. rewrite Hv. simpl.
  match goal with |- context [for_each _ self ?a] =>
    destruct (IH a) as (keys & E & Hkeys) end.
  { intros j Hj. apply Hst. by right. }
  exists keys. split; [done|]. intros K. rewrite Hkeys. clear E Hkeys IH.
  split.
  - intros [Hin|(Hne & j & vj & Hj & Hvj & Hk)].
    + case_bool_decide; [by left|].
      apply elem_of_app in Hin as [Hin|Hin]; [by left|].
      apply list_elem_of_singleton in Hin as ->.
      right. split; [done|]. exists i, v. split; [left|done].
    + right. split; [done|]. exists j, vj. split; [by right|done].
  - intros [Hin|(Hne & j & vj & Hj & Hvj & Hk)].
    + left. case_bool_decide; [done|]. apply elem_of_app. by left.
    + apply elem_of_cons in Hj as [->|Hj].
      * assert (vj = v) as -> by congruence. left.
        case_bool_decide; [congruence|].
        apply elem_of_app. right. rewrite Hk. left.
      * right. split; [done|]. eauto.
Qed.

Lemma mapped_keys_spec st self :
  (∀ i, i ∈ self → is_Some (views st !! i)) →
  ∃ keys, mapped_keys st self = Ok keys ∧
    ∀ K, K ∈ keys ↔
         K ≠ "" ∧ ∃ i v, i ∈ self ∧ views st !! i = Some v ∧ v_key v = K.
Proof.
  intros Hst. destruct (mapped_keys_loop st self [] Hst) as (keys & E & Hk).
  exists keys. split; [done|]. intros K. rewrite Hk. split.
  - intros [Hin|?]; [by apply elem_of_nil in Hin|done].
  - by right.
Qed.

Lemma elem_of_ordered_set_loop (x : Z) (ids : list Z) : ∀ acc : list Z,
  x ∈ fold_left (λ acc x, if bool_decide (x ∈ acc) then acc else acc ++ [x]) ids acc
  ↔ x ∈ acc ∨ x ∈ ids.
Proof.
  induction ids as [|y ids IH]; intros acc; simpl.
  { split; [by left|]. intros [?|H]; [done|by apply elem_of_nil in H]. }
  rewrite IH, elem_of_cons. case_bool_decide as Hy.
  - split; [intros [?|?]; auto|]. intros [?|[->|?]]; auto.
  - rewrite elem_of_app, list_elem_of_singleton. tauto.
Qed.

Lemma elem_of_ordered_set (x : Z) (ids : list Z) : x ∈ ordered_set ids ↔ x ∈ ids.
Proof.
  unfold ordered_set. rewrite elem_of_ordered_set_loop. split; [|by right].
  intros [H|?]; [by apply elem_of_nil in H|done].
Qed.

Lemma lookup_super_unlink self st x :
  views (super_unlink self st) !! x =
  if decide (x ∈ self) then None else views st !! x.
Proof.
  unfold super_unlink. simpl. generalize (views st). intros m. revert m.
  induction self as [|i self IH]; intros m; simpl.
  { destruct (decide (x ∈ [])) as [H|]; [by apply elem_of_nil in H|done]. }
  rewrite IH.
  destruct (decide (x ∈ self)) as [Hin|Hnotin];
    destruct (decide (x ∈ i :: self)) as [Hin'|Hnotin']; try done.
  - exfalso. apply Hnotin'. by right.
  - apply elem_of_cons in Hin' as [->|?]; [|done]. by rewrite lookup_delete_eq.
  - rewrite lookup_delete_ne; [done|]. intros ->. apply Hnotin'. left.
Qed.

Lemma cou_copy_persist v b f f' :
  cou_copy v b f → same_except_parent f f' → cou_copy v b f'.
Proof.
  intros [q Hf] [q' ->]. exists q'. rewrite Hf at 1. simpl. done.
Qed.

Section CopyOnUnlink.
Context (rank : Z → nat) (ctx : context) (a : Z) (fuel : nat).
Hypothesis Hcow : cow_context ctx a.

Lemma cow_with_website b : b ≠ 0 → cow_context (with_website ctx b) b.
Proof using Hcow.
  intros Hb. destruct Hcow as (Hnc & Hth & _ & _). by repeat split.
Qed.

(** One copy-on-unlink write: the generic view [i] is forked for the
    website [b], and the fork gets the renamed key. *)
Lemma cou_write_spec i v b st :
  wf_views st → rank_ok rank st →
  views st !! i = Some v → is_generic v = true →
  (rank i + 2 ≤ fuel)%nat → w_id b ≠ 0 →
  ∃ st', cou_write fuel ctx i b st = Ok st' ∧
    wf_views st' ∧ rank_ok rank st' ∧ evolves st st' ∧
    views st !! next_view st = None ∧
    ∃ f, views st' !! next_view st = Some f ∧ cou_copy v (w_id b) f.
Proof using Hcow.
  intros Hwf Hrk Hi Hg Hfuel Hb.
  pose proof (wf_views_next_fresh st Hwf) as Hfresh.
  unfold cou_write, read. rewrite Hi. cbn [bind].
  destruct (write_generic_spec rank (with_website ctx (w_id b)) (w_id b)
              (cow_with_website _ Hb) fuel i v
              [FKey (cou_key (v_key v) (w_id b))] st)
    as (st1 & Hfk & E); try done.
  destruct Hfk as (Hwf1 & Hev1 & _ & _ & Hlt & Hn & _).
  set (n := next_view st) in *.
  set (f := apply_vals [FKey (cou_key (v_key v) (w_id b))] (fork_of v n (w_id b))) in *.
  exists (set_views (insert n f) st1). split; [exact E|].
  assert (Hwf' : wf_views (set_views (insert n f) st1)).
  { intros x vx. simpl. destruct (decide (n = x)) as [<-|Hne].
    - rewrite lookup_insert_eq. intros [= <-]. split; [done|lia].
    - rewrite lookup_insert_ne by done. apply Hwf1. }
  assert (Hev' : evolves st (set_views (insert n f) st1)).
  { destruct Hev1 as (Hn1 & Hw1 & Hg1 & He1 & Hb1).
    split; [simpl; lia|]. split; [done|]. simpl. split; [|split].
    - intros x vx Hx Hgx. rewrite lookup_insert_ne by congruence. by apply Hg1.
    - intros x vx Hx. rewrite lookup_insert_ne by congruence. by apply He1.
    - intros x vx. destruct (decide (n = x)) as [<-|Hne].
      + rewrite lookup_insert_eq. intros [= <-]. unfold f, is_generic. simpl.
        by destruct (Z.eqb_spec (w_id b) 0).
      + rewrite lookup_insert_ne by done. apply Hb1. }
  split; [done|]. split; [by eapply rank_ok_evolves|]. split; [done|].
  split; [done|]. exists f. split; [simpl; by rewrite lookup_insert_eq|].
  exists (v_inherit_id v). reflexivity.
Qed.

Lemma cou_websites_loop i v : ∀ ws st,
  wf_views st → rank_ok rank st →
  views st !! i = Some v → is_generic v = true →
  (rank i + 2 ≤ fuel)%nat → (∀ b, b ∈ ws → w_id b ≠ 0) →
  ∃ st', for_each (cou_write fuel ctx i) ws st = Ok st' ∧
    wf_views st' ∧ rank_ok rank st' ∧ evolves st st' ∧
    ∀ b, b ∈ ws → ∃ n f, views st !! n = None ∧ views st' !! n = Some f ∧
                         cou_copy v (w_id b) f.
Proof using Hcow.
  induction ws as [|b ws IH]; intros st Hwf Hrk Hi Hg Hfuel Hws.
  { exists st. split; [done|]. split; [done|]. split; [done|].
    split; [apply evolves_refl|]. intros b Hb. by apply elem_of_nil in Hb. }
  destruct (cou_write_spec i v b st) as (sta & Ea & Hwfa & Hrka & Heva & Hfr & f & Hf & Hc);
    try done.
  { apply Hws. left. }
  pose proof Heva as (_ & _ & Hga & Hea & _).
  destruct (IH sta) as (st' & E' & Hwf' & Hrk' & Hev' & Hres'); try done.
  { by apply Hga. }
  { intros b2 Hb2. apply Hws. by right. }
  exists st'. split; [cbn [for_each]; by rewrite Ea|].
  split; [done|]. split; [done|]. split; [by eapply evolves_trans|].
  pose proof Hev' as (_ & _ & _ & He' & _).
  intros b0 Hb0. apply elem_of_cons in Hb0 as [->|Hb0].
  - destruct (He' _ _ Hf) as (f' & Hf' & Hs).
    exists (next_view st), f'. split; [done|]. split; [done|].
    by eapply cou_copy_persist.
  - destruct (Hres' b0 Hb0) as (n & f0 & Hn & Hf0 & Hc0).
    exists n, f0. split; [|done].
    destruct (views st !! n) as [x|] eqn:Ex; [|done].
    destruct (Hea _ _ Ex) as (x' & Hx' & _). congruence.
Qed.

Lemma cou_views_loop : ∀ gs st,
  wf_views st → rank_ok rank st →
  (∀ b, b ∈ websites st → w_id b ≠ 0) →
  (∀ i, i ∈ gs → ∃ v, views st !! i = Some v ∧ is_generic v = true ∧
                      (rank i + 2 ≤ fuel)%nat) →
  ∃ st',
    for_each (λ view st,
        for_each (cou_write fuel ctx view)
                 (other_websites st (ctx_website_id ctx)) st) gs st = Ok st' ∧
    wf_views st' ∧ rank_ok rank st' ∧ evolves st st' ∧
    ∀ i v b, i ∈ gs → views st !! i = Some v →
      b ∈ other_websites st (ctx_website_id ctx) →
      ∃ n f, views st !! n = None ∧ views st' !! n = Some f ∧
             cou_copy v (w_id b) f.
Proof using Hcow.
  induction gs as [|i gs IH]; intros st Hwf Hrk Hws Hgs.
  { exists st. split; [done|]. split; [done|]. split; [done|].
    split; [apply evolves_refl|]. intros i v b Hi. by apply elem_of_nil in Hi. }
  destruct (Hgs i) as (v & Hi & Hg & Hfuel); [left|].
  destruct (cou_websites_loop i v (other_websites st (ctx_website_id ctx)) st)
    as (sta & Ea & Hwfa & Hrka & Heva & Hresa); try done.
  { intros b Hb. apply Hws. unfold other_websites in Hb.
    by apply list_elem_of_filter in Hb as [_ ?]. }
  pose proof Heva as (_ & Hwsa & Hga & Hea & _).
  destruct (IH sta) as (st' & E' & Hwf' & Hrk' & Hev' & Hres'); try done.
  { by rewrite Hwsa. }
  { intros j Hj. destruct (Hgs j) as (vj & Hvj & Hgj & Hfj); [by right|].
    exists vj. split; [by apply Hga|done]. }
  exists st'. split; [cbn [for_each]; by rewrite Ea|].
  split; [done|]. split; [done|]. split; [by eapply evolves_trans|].
  pose proof Hev' as (_ & _ & _ & He' & _).
  intros j vj b Hj Hvj Hb. apply elem_of_cons in Hj as [->|Hj].
  - assert (vj = v) as -> by congruence.
    destruct (Hresa b Hb) as (n & f & Hn & Hf & Hc).
    destruct (He' _ _ Hf) as (f' & Hf' & Hs).
    exists n, f'. split; [done|]. split; [done|]. by eapply cou_copy_persist.
  - destruct (Hgs j) as (vj' & Hvj' & Hgj & _); [by right|].
    assert (vj' = vj) as -> by congruence.
    destruct (Hres' j vj b Hj (Hga _ _ Hvj Hgj)) as (n & f & Hn & Hf & Hc).
    { unfold other_websites in *. by rewrite Hwsa. }
    exists n, f. split; [|done].
    destruct (views st !! n) as [x|] eqn:Ex; [|done].
    destruct (Hea _ _ Ex) as (x' & Hx' & _). congruence.
Qed.
End CopyOnUnlink.

Lemma elem_of_search_key_in ctx keys st x :
  wf_views st →
  x ∈ search (with_active_test ctx false)
             [DLeaf Fd_key OpIn (VStrs keys)] OrderDefault st ↔
  ∃ vx, views st !! x = Some vx ∧ v_key vx ∈ keys.
Proof.
  intros Hwf. unfold search. change (map v_id ?l) with (v_id <$> l).
  rewrite list_elem_of_fmap. split.
  - intros (vx & -> & Hin). apply elem_of_search_views in Hin as [[j Hj] Hev].
    destruct (Hwf _ _ Hj) as [-> _]. exists vx. split; [done|].
    unfold effective_domain, eval_domain, eval_leaf in Hev. simpl in Hev.
    rewrite andb_true_r in Hev. by apply bool_decide_eq_true in Hev.
  - intros (vx & Hx & Hk). exists vx. destruct (Hwf _ _ Hx) as [Hid _].
    split; [done|]. apply elem_of_search_views. split; [eauto|].
    unfold effective_domain, eval_domain, eval_leaf. simpl.
    rewrite andb_true_r. by apply bool_decide_eq_true.
Qed.

Lemma website_theme_ids_same st st' website_id :
  websites st' = websites st →
  website_theme_ids st' website_id = website_theme_ids st website_id.
Proof. intros E. unfold website_theme_ids. by rewrite E. Qed.

Lemma get_view_id_key ctx w key themes st :
  ctx_website_id ctx = Some w →
  website_theme_ids st (Some w) = Ok themes →
  get_view_id ctx (RefKey key) st =
  match search_views ctx (get_view_id_domain themes (Some w) key) OrderWebsite st with
  | v :: _ => Ok (v_id v)
  | [] => Err NotFound
  end.
Proof.
  intros Hw Hth. unfold get_view_id. rewrite Hw. rewrite <- Hw at 1.
  rewrite Hw, Hth. cbn [bind]. unfold search.
  by destruct (search_views _ _ _ _).
Qed.

Lemma get_view_id_none ctx w key themes st :
  ctx_website_id ctx = Some w →
  website_theme_ids st (Some w) = Ok themes →
  (∀ x vx, views st !! x = Some vx → v_key vx ≠ key) →
  get_view_id ctx (RefKey key) st = Err NotFound.
Proof.
  intros Hw Hth Hno. rewrite (get_view_id_key ctx w key themes st Hw Hth).
  destruct (search_views _ _ _ _) as [|v l] eqn:E; [done|].
  assert (v ∈ search_views ctx (get_view_id_domain themes (Some w) key)
                OrderWebsite st) as Hin by (rewrite E; left).
  apply elem_of_search_views in Hin as [[x Hx] Hev].
  apply get_view_id_domain_eval in Hev as [_ [Hk _]].
  by apply Hno in Hx.
Qed.

Lemma get_view_id_some ctx w key themes st x vx :
  ctx_website_id ctx = Some w →
  website_theme_ids st (Some w) = Ok themes →
  views st !! x = Some vx → visible ctx vx →
  get_view_id_match themes (Some w) key vx →
  ∃ id, get_view_id ctx (RefKey key) st = Ok id.
Proof.
  intros Hw Hth Hx Hvis Hm. rewrite (get_view_id_key ctx w key themes st Hw Hth).
  destruct (search_views _ _ _ _) as [|v l] eqn:E; [|eauto].
  assert (vx ∈ search_views ctx (get_view_id_domain themes (Some w) key)
                 OrderWebsite st) as Hin.
  { apply elem_of_search_views. split; [eauto|].
    by apply get_view_id_domain_eval. }
  rewrite E in Hin. by apply elem_of_nil in Hin.
Qed.

Lemma string_app_length (s t : string) :
  String.length (s ++ t) = (String.length s + String.length t)%nat.
Proof. induction s as [|c s IH]; simpl; [done|]. by rewrite IH. Qed.

Lemma cou_key_length key b :
  String.length (cou_key key b) =
  (String.length (str_of_key key)
   + String.length (" [website " ++ str_of_Z b ++ "]"))%nat.
Proof. unfold cou_key. apply string_app_length. Qed.

(** The renamed key differs from the key it derives from. *)
Lemma cou_key_ne key b : cou_key key b ≠ key.
Proof.
  intros E. pose proof (cou_key_length key b) as Hl. rewrite E in Hl.
  unfold str_of_key in Hl. case_bool_decide as Hk.
  - subst key. discriminate E.
  - simpl in Hl. lia.
Qed.

Lemma same_except_parent_key v v' : same_except_parent v v' → v_key v' = v_key v.
Proof. by intros [q ->]. Qed.

Lemma cou_copy_fields v b f :
  cou_copy v b f →
  v_key f = cou_key (v_key v) b ∧ v_website_id f = Some b ∧
  v_theme_id f = v_theme_id v ∧ v_active f = v_active v.
Proof. intros [q ->]. done. Qed.

(** X20: Under a context with current website [a], no bypass flag
    and no theme module being updated, [unlink] of a set of stored views
    returns.  Before the deletion, for every generic view of the set and
    every other website, a copy of the view for that website exists under
    a new id, with the key renamed to embed the website id.  The deletion
    set is the given set together with every view sharing a key of the
    set; afterwards no view with a key of the set is stored, and no such
    key resolves under [a].  A copy whose renamed key is not itself a key
    of the set survives the deletion, and its website resolves the renamed
    key whenever it could resolve the generic view before. *)
Theorem unlink_forks_for_other_websites
    (rank : Z → nat) (fuel : nat) (ctx : context) (a : Z) (self : list Z) (st : db) :
  cow_context ctx a →
  wf_views st → rank_ok rank st →
  (∀ b, b ∈ websites st → w_id b ≠ 0) →
  (∀ i, i ∈ self → ∃ v, views st !! i = Some v ∧
                        (is_generic v = true → (rank i + 2 ≤ fuel)%nat)) →
  ∃ (st_forked st' : db) (deleted : list Z) (keys : list string),
    cou_fork_others fuel ctx self st = Ok st_forked ∧
    unlink fuel ctx self st = Ok (st', deleted) ∧
    st' = super_unlink deleted st_forked ∧
    (∀ K, K ∈ keys ↔
          K ≠ "" ∧ ∃ i v, i ∈ self ∧ views st !! i = Some v ∧ v_key v = K) ∧
    (∀ i v b, i ∈ self → views st !! i = Some v → v_website_id v = None →
       b ∈ websites st → w_id b ≠ a →
       ∃ n f, views st !! n = None ∧ views st_forked !! n = Some f ∧
         cou_copy v (w_id b) f ∧
         (cou_key (v_key v) (w_id b) ∉ keys →
          views st' !! n = Some f ∧
          ∀ themes, website_theme_ids st (Some (w_id b)) = Ok themes →
            visible ctx v →
            get_view_id_match themes (Some (w_id b)) (v_key v) v →
            ∃ id, get_view_id (with_website ctx (w_id b))
                    (RefKey (cou_key (v_key v) (w_id b))) st' = Ok id)) ∧
    (∀ x, x ∈ deleted ↔
          x ∈ self ∨ ∃ vx, views st_forked !! x = Some vx ∧ v_key vx ∈ keys) ∧
    (∀ x, x ∈ deleted → views st' !! x = None) ∧
    (∀ x vx, views st' !! x = Some vx → v_key vx ∉ keys) ∧
    (∀ K themes, K ∈ keys → website_theme_ids st (Some a) = Ok themes →
       get_view_id ctx (RefKey K) st' = Err NotFound).
Proof.
  intros Hcow Hwf Hrk Hws Hself.
  pose proof (cow_truthy ctx a Hcow) as Htruthy.
  pose proof Hcow as (Hnc & Hth & Ha & Ha0).
  assert (Hstored : ∀ i, i ∈ self → is_Some (views st !! i)).
  { intros i Hi. destruct (Hself i Hi) as (v & Hv & _). eauto. }
  destruct (filtered_generic_spec st self Hstored) as (gs & Egs & Hgs).
  destruct (cou_views_loop rank ctx a fuel Hcow gs st Hwf Hrk Hws)
    as (stf & Ef & Hwff & Hrkf & Hevf & Hforks).
  { intros i Hi. apply Hgs in Hi as [Hi (v & Hv & Hg)].
    destruct (Hself i Hi) as (v' & Hv' & Hf).
    assert (v' = v) as -> by congruence. eauto. }
  pose proof Hevf as (_ & Hwsf & Hgf & Hef & _).
  assert (Hstoredf : ∀ i, i ∈ self → is_Some (views stf !! i)).
  { intros i Hi. destruct (Hstored i Hi) as [v Hv].
    destruct (Hef _ _ Hv) as (v' & Hv' & _). eauto. }
  destruct (mapped_keys_spec stf self Hstoredf) as (keys & Ekeys & Hkeysf).
  assert (Hkeys : ∀ K, K ∈ keys ↔
            K ≠ "" ∧ ∃ i v, i ∈ self ∧ views st !! i = Some v ∧ v_key v = K).
  { intros K. rewrite Hkeysf. split; intros [Hne (i & v & Hi & Hv & Hk)];
      (split; [done|]).
    - destruct (Hstored i Hi) as [v0 Hv0].
      destruct (Hef _ _ Hv0) as (v' & Hv' & Hs).
      assert (v' = v) as -> by congruence.
      exists i, v0. rewrite <- (same_except_parent_key _ _ Hs). done.
    - destruct (Hef _ _ Hv) as (v' & Hv' & Hs).
      exists i, v'. rewrite (same_except_parent_key _ _ Hs). done. }
  set (found := search (with_active_test ctx false)
                  [DLeaf Fd_key OpIn (VStrs keys)] OrderDefault stf).
  set (deleted := recordset_union self found).
  assert (Hdel : ∀ x, x ∈ deleted ↔
            x ∈ self ∨ ∃ vx, views stf !! x = Some vx ∧ v_key vx ∈ keys).
  { intros x. unfold deleted, recordset_union.
    rewrite elem_of_ordered_set, elem_of_app. unfold found.
    by rewrite elem_of_search_key_in. }
  assert (Ecou : cou_fork_others fuel ctx self st = Ok stf).
  { unfold cou_fork_others. rewrite Htruthy, Hnc, Egs. exact Ef. }
  exists stf, (super_unlink deleted stf), deleted, keys.
  split; [exact Ecou|]. split.
  { unfold unlink. rewrite Ecou. cbn [bind]. rewrite Ekeys. done. }
  split; [done|]. split; [exact Hkeys|].
  assert (Hgone : ∀ x vx, views (super_unlink deleted stf) !! x = Some vx →
            v_key vx ∉ keys).
  { intros x vx. rewrite lookup_super_unlink.
    destruct (decide (x ∈ deleted)) as [?|Hnd]; [done|].
    intros Hx Hk. apply Hnd, Hdel. eauto. }
  split; [|split; [exact Hdel|split; [|split; [exact Hgone|]]]].
  - intros i v b Hi Hv Hgen Hb Hba.
    assert (Hg : is_generic v = true) by (unfold is_generic; by rewrite Hgen).
    assert (Higs : i ∈ gs) by (apply Hgs; eauto).
    assert (Hbo : b ∈ other_websites st (ctx_website_id ctx)).
    { unfold other_websites. apply list_elem_of_filter. split; [|done].
      rewrite Ha. congruence. }
    destruct (Hforks i v b Higs Hv Hbo) as (n & f & Hn & Hf & Hc).
    exists n, f. split; [done|]. split; [done|]. split; [done|].
    intros Hfree.
    destruct (cou_copy_fields _ _ _ Hc) as (Hfk & Hfw & Hft & Hfa).
    assert (Hn' : views (super_unlink deleted stf) !! n = Some f).
    { rewrite lookup_super_unlink. rewrite decide_False; [done|].
      intros Hin. apply Hdel in Hin as [Hin|(vx & Hx & Hk)].
      - destruct (Hstored n Hin) as [x Hx]. congruence.
      - assert (vx = f) as -> by congruence. by rewrite Hfk in Hk. }
    split; [done|]. intros themes Hthemes Hvis Hmatch.
    apply (get_view_id_some (with_website ctx (w_id b)) (w_id b) _ themes _ n f);
      try done.
    + rewrite <- Hthemes. apply website_theme_ids_same. simpl. done.
    + unfold visible in *. simpl. rewrite Hfa. done.
    + destruct Hmatch as [_ Hscope]. split; [done|]. rewrite Hft, Hfw.
      destruct Hscope as [?|[Hnone _]]; [by left|right].
      split; [done|]. right. unfold ref_or_false. simpl.
      specialize (Hws b Hb). by destruct (Z.eqb_spec (w_id b) 0).
  - intros x Hx. rewrite lookup_super_unlink. by rewrite decide_True.
  - intros K themes HK Hthemes.
    apply (get_view_id_none ctx a K themes); [done| |].
    + rewrite <- Hthemes. apply website_theme_ids_same. simpl. done.
    + intros x vx Hx E. apply (Hgone x vx Hx). by rewrite E.
Qed.

(** C2: [unlink] under website 1 can leave another website without the
    view, although copies are made "so only the current website is
    affected".  When the set itself holds a view whose key is the key
    that the copy for website 2 receives, the copy is deleted with the
    set: after [unlink] of the generic views 1 and 2 of [ex_db_collide],
    website 2, which resolved the key before, resolves neither the key
    nor its renamed derivative.  The same happens when the context also
    names a theme module under update: the write that should fork
    renames the generic view in place (the current website is cleared)
    and the view is then deleted. *)
Lemma unlink_leaves_other_website_without_view :
  (ctx_website_id ex_ctx_theme = Some 1 ∧ ctx_no_cow ex_ctx_theme = false ∧
   views ex_db !! 2 = Some (ex_view 2 "website.child" None (Some 1) true) ∧
   get_view_id ex_ctx_2 (RefKey "website.child") ex_db = Ok 2 ∧
   ∃ st' deleted, unlink 3 ex_ctx_theme [2] ex_db = Ok (st', deleted) ∧
     dom (views st') = {[1; 3]} ∧
     get_view_id ex_ctx_2 (RefKey "website.child") st' = Err NotFound ∧
     get_view_id ex_ctx_2 (RefKey (cou_key "website.child" 2)) st' = Err NotFound) ∧
  (get_view_id ex_ctx_2 (RefKey "k") ex_db_collide = Ok 1 ∧
   ∃ st' deleted, unlink 3 ex_ctx [1; 2] ex_db_collide = Ok (st', deleted) ∧
     deleted = [1; 2; 3] ∧
     get_view_id ex_ctx_2 (RefKey "k") st' = Err NotFound ∧
     get_view_id ex_ctx_2 (RefKey (cou_key "k" 2)) st' = Err NotFound).
Proof.
  split.
  - split; [done|]. split; [done|]. split; [done|].
    split; [vm_compute; reflexivity|].
    eexists _, _. split; [vm_compute; reflexivity|].
    split; [vm_compute; reflexivity|]. split; vm_compute; reflexivity.
  - split; [vm_compute; reflexivity|].
    eexists _, _. split; [vm_compute; reflexivity|].
    split; [reflexivity|]. split; vm_compute; reflexivity.
Qed.

Lemma unlink_forks_for_other_websites_witness :
  ∃ st' deleted, unlink 3 ex_ctx [1] ex_db = Ok (st', deleted) ∧
    (∀ x vx, views st' !! x = Some vx → v_key vx ≠ "website.page") ∧
    get_view_id ex_ctx (RefKey "website.page") st' = Err NotFound ∧
    ∃ id, get_view_id ex_ctx_2 (RefKey (cou_key "website.page" 2)) st' = Ok id.
Proof.
  destruct (unlink_forks_for_other_websites ex_rank 3 ex_ctx 1 [1] ex_db)
    as (stf & st' & deleted & keys & _ & E & _ & Hkeys & Hforks & _ & _ & Hgone & Hnone).
  - by repeat split.
  - exact ex_db_wf.
  - exact ex_db_rank_ok.
  - intros b Hb.
    repeat (apply elem_of_cons in Hb as [->|Hb]; [simpl; lia|]).
    by apply elem_of_nil in Hb.
  - intros i Hi. apply list_elem_of_singleton in Hi as ->.
    eexists. split; [reflexivity|]. intros _. vm_compute. lia.
  - assert (Hpage : "website.page" ∈ keys).
    { apply Hkeys. split; [done|]. eexists 1, _.
      split; [left|]. split; reflexivity. }
    assert (Hfree : cou_key "website.page" 2 ∉ keys).
    { intros Hin. apply Hkeys in Hin as (_ & i & v & Hi & Hv & Hk).
      apply list_elem_of_singleton in Hi as ->.
      injection Hv as <-. simpl in Hk. discriminate Hk. }
    exists st', deleted. split; [exact E|]. split.
    { intros x vx Hx Hk. apply (Hgone x vx Hx). by rewrite Hk. }
    split; [exact (Hnone "website.page" [] Hpage eq_refl)|].
    destruct (Hforks 1 (ex_view 1 "website.page" None None true) (mkWebsite 2 []))
      as (n & f & _ & _ & _ & Hsurv).
    + left.
    + reflexivity.
    + reflexivity.
    + right. left.
    + simpl. lia.
    + destruct (Hsurv Hfree) as [_ Hres].
      apply (Hres []); [reflexivity|done|].
      split; [reflexivity|]. right. split; [reflexivity|]. by left.
Defined.

(** * Further properties *)

(** ** Duplicate collapsing: composition and order *)


Lemma priority_id_antisym (a b : view) :
  le_key pair_leb (λ v, (v_priority v, v_id v)) a b →
  le_key pair_leb (λ v, (v_priority v, v_id v)) b a →
  v_id a = v_id b.
Proof. unfold le_key, pair_leb. simpl. lia. Qed.

(** Two collapsed lists with the same records are the same list, when an
    id names one record. *)
Lemma filter_duplicate_ext ctx l1 l2 :
  (∀ a b, a ∈ l1 → b ∈ l1 → v_id a = v_id b → a = b) →
  collapsed ctx l1 ≡ₚ collapsed ctx l2 →
  collapsed ctx l1 = collapsed ctx l2.
Proof.
  intros Hid Hp.
  apply (StronglySorted_unique_strong
           (le_key pair_leb (λ v, (v_priority v, v_id v))));
    [|apply filter_duplicate_sorted..|done].
  intros a b Ha Hb Hab Hba. rewrite <- Hp in Hb.
  apply filter_duplicate_elem in Ha as [Ha _], Hb as [Hb _].
  apply Hid; [done..|]. by apply priority_id_antisym.
Qed.

Lemma filter_duplicate_distinct_perm ctx self :
  NoDup (v_key <$> self) → collapsed ctx self ≡ₚ self.
Proof.
  intros Hnd. apply NoDup_Permutation.
  - eapply NoDup_fmap_1, filter_duplicate_keys_NoDup.
  - by eapply NoDup_fmap_1.
  - intros r. split.
    + intros Hr. by apply filter_duplicate_elem in Hr as [? _].
    + intros Hr. destruct (filter_duplicate_covers ctx self r Hr) as (r' & Hr' & Hk).
      assert (r' = r) as <-; [|done].
      pose proof Hr' as Hin. apply filter_duplicate_elem in Hin as [Hin _].
      apply list_elem_of_lookup in Hin as [i Hi], Hr as [j Hj].
      assert (i = j) as ->; [|congruence].
      eapply NoDup_lookup; [exact Hnd| |]; rewrite list_lookup_fmap.
      * rewrite Hi. reflexivity.
      * rewrite Hj. simpl. by rewrite Hk.
Qed.

Lemma collapsed_idempotent ctx self :
  (∀ a b, a ∈ self → b ∈ self → v_id a = v_id b → a = b) →
  collapsed ctx (collapsed ctx self) = collapsed ctx self.
Proof.
  intros Hid.
  pose proof (filter_duplicate_distinct_perm ctx (collapsed ctx self)
                (filter_duplicate_keys_NoDup ctx self)) as Hp.
  apply (StronglySorted_unique_strong
           (le_key pair_leb (λ v, (v_priority v, v_id v))));
    [|apply filter_duplicate_sorted..|done].
  intros a b Ha Hb Hab Hba. rewrite Hp in Ha.
  apply filter_duplicate_elem in Ha as [Ha _], Hb as [Hb _].
  apply Hid; [done..|]. by apply priority_id_antisym.
Qed.

(** X1: When no two records of the recordset share a key and the keys can
    be sorted (all the views have a key, or the recordset is a single
    view), [filter_duplicate] drops nothing: the result is the recordset
    itself, reordered by (priority, id). *)
Theorem filter_duplicate_distinct_keys (ctx : context) (self : list view) :
  keys_comparable self = true →
  NoDup (v_key <$> self) →
  ∃ res, filter_duplicate ctx self = Ok res ∧
         res ≡ₚ self ∧ StronglySorted priority_id_le res.
Proof.
  intros Hcmp Hnd. exists (collapsed ctx self).
  split; [by apply filter_duplicate_comparable|].
  split; [by apply filter_duplicate_distinct_perm|].
  eapply StronglySorted_weaken; [apply priority_id_key_le|].
  apply filter_duplicate_sorted.
Qed.

(** X2: Collapsing is idempotent: a recordset that [filter_duplicate]
    returns is its own collapse (an id naming one record of the
    recordset). *)
Theorem filter_duplicate_idempotent (ctx : context) (self res : list view) :
  (∀ a b, a ∈ self → b ∈ self → v_id a = v_id b → a = b) →
  filter_duplicate ctx self = Ok res →
  filter_duplicate ctx res = Ok res.
Proof.
  intros Hid E. apply filter_duplicate_Ok in E as [Hcmp ->].
  rewrite filter_duplicate_comparable.
  - by rewrite collapsed_idempotent.
  - apply (keys_comparable_incl self); [|done].
    intros v Hv. by apply filter_duplicate_elem in Hv as [? _].
Qed.

(** A record is a survivor exactly when it is a record of the recordset
    that is at least as suitable as every record of its key, provided
    records of one key differ in their website. *)
Lemma elem_of_filter_duplicate ctx self r :
  (∀ a b, a ∈ self → b ∈ self → v_key a = v_key b →
          website_id_or_0 a = website_id_or_0 b → a = b) →
  r ∈ collapsed ctx self ↔
  r ∈ self ∧
  ∀ v, v ∈ self → v_key v = v_key r →
    suit_leb (_sort_suitability_key ctx r) (_sort_suitability_key ctx v) = true.
Proof.
  intros Hties. split; [apply filter_duplicate_elem|].
  intros [Hr Hmin].
  destruct (filter_duplicate_covers ctx self r Hr) as (r' & Hr' & Hk).
  assert (r' = r) as <-; [|done].
  pose proof Hr' as Hin. apply filter_duplicate_elem in Hin as [Hin Hmin'].
  apply Hties; [done..|].
  specialize (Hmin r' Hin Hk). specialize (Hmin' r Hr (eq_sym Hk)).
  unfold suit_leb, pair_leb, _sort_suitability_key in Hmin, Hmin'.
  simpl in Hmin, Hmin'. lia.
Qed.

Lemma collapsed_order_independent ctx l1 l2 :
  l1 ≡ₚ l2 →
  (∀ a b, a ∈ l1 → b ∈ l1 → v_id a = v_id b → a = b) →
  (∀ a b, a ∈ l1 → b ∈ l1 → v_key a = v_key b →
          website_id_or_0 a = website_id_or_0 b → a = b) →
  collapsed ctx l1 = collapsed ctx l2.
Proof.
  intros Hp Hid Hties. apply filter_duplicate_ext; [done|].
  apply NoDup_Permutation.
  - eapply NoDup_fmap_1, filter_duplicate_keys_NoDup.
  - eapply NoDup_fmap_1, filter_duplicate_keys_NoDup.
  - intros r. rewrite !elem_of_filter_duplicate.
    + by setoid_rewrite Hp.
    + intros a b Ha Hb. rewrite <- Hp in Ha, Hb. by apply Hties.
    + done.
Qed.

(** X3: The collapse does not depend on the order of the recordset: two
    recordsets with the same records have the same collapse, or both
    raise, provided an id names one record and the records of one key
    differ in their website (no two equally suitable records). *)
Theorem filter_duplicate_order_independent (ctx : context) (l1 l2 : list view) :
  l1 ≡ₚ l2 →
  (∀ a b, a ∈ l1 → b ∈ l1 → v_id a = v_id b → a = b) →
  (∀ a b, a ∈ l1 → b ∈ l1 → v_key a = v_key b →
          website_id_or_0 a = website_id_or_0 b → a = b) →
  filter_duplicate ctx l1 = filter_duplicate ctx l2.
Proof.
  intros Hp Hid Hties.
  pose proof (keys_comparable_perm l1 l2 Hp) as Hc.
  destruct (keys_comparable l1) eqn:E1.
  - rewrite !filter_duplicate_comparable by done.
    f_equal. by apply collapsed_order_independent.
  - by rewrite !filter_duplicate_mixed.
Qed.

(** ** Writes that do not fork *)

Lemma super_write_frame vals : ∀ self st st',
  super_write self vals st = Ok st' →
  dom (views st') = dom (views st) ∧ next_view st' = next_view st ∧
  pages st' = pages st ∧ menus st' = menus st ∧
  (∀ i, i ∈ self → is_Some (views st !! i)) ∧
  (∀ j, j ∉ self → views st' !! j = views st !! j).
Proof.
  induction self as [|i self IH]; intros st st'.
  { intros [= <-]. repeat split; try done.
    intros i Hi. by apply elem_of_nil in Hi. }
  rewrite super_write_cons. unfold super_write at 1, read. simpl.
  destruct (views st !! i) as [v|] eqn:Hv; [|done]. simpl.
  intros E. apply IH in E as (Hd & Hn & Hp & Hm & Hs & Hf). simpl in *.
  split; [|split; [done|split; [done|split; [done|split]]]].
  - rewrite Hd, dom_insert_L.
    apply subseteq_union_1_L, singleton_subseteq_l. by eapply elem_of_dom_2.
  - intros j Hj. apply elem_of_cons in Hj as [->|Hj]; [by eauto|].
    specialize (Hs j Hj). destruct (decide (i = j)) as [->|Hne]; [by eauto|].
    by rewrite lookup_insert_ne in Hs.
  - intros j Hj. apply not_elem_of_cons in Hj as [Hne Hj].
    rewrite (Hf j Hj). by rewrite lookup_insert_ne.
Qed.

Lemma super_write_stored vals : ∀ self st,
  (∀ i, i ∈ self → is_Some (views st !! i)) →
  ∃ st', super_write self vals st = Ok st'.
Proof.
  induction self as [|i self IH]; intros st Hself; [by exists st|].
  rewrite super_write_cons.
  destruct (Hself i) as [v Hv]; [left|].
  rewrite (super_write_one _ _ _ _ Hv). cbn [bind]. apply IH.
  intros j Hj. destruct (Hself j) as [vj Hvj]; [by right|]. simpl.
  destruct (decide (i = j)) as [->|Hne].
  - rewrite lookup_insert_eq. eauto.
  - rewrite lookup_insert_ne by done. eauto.
Qed.

Lemma write_view_direct rec ctx vals i cw st :
  str_in "theme_" (ctx_module ctx) = false →
  (truthy cw = false ∨
   ∃ v, views st !! i = Some v ∧ is_generic v = false) →
  write_view rec ctx vals i (cw, st) =
  do st' <- super_write [i] vals st; Ok (cw, st').
Proof.
  intros Hth Hc. unfold write_view. rewrite Hth. cbn [bind].
  destruct Hc as [Ht|(v & Hv & Hg)].
  - by rewrite Ht.
  - destruct (truthy cw); [|done]. cbn [read_one]. unfold read at 1.
    rewrite Hv. cbn [bind]. by rewrite Hg.
Qed.

Lemma write_loop_direct rec ctx vals cw : ∀ self st,
  str_in "theme_" (ctx_module ctx) = false →
  (truthy cw = false ∨
   (NoDup self ∧ ∀ i, i ∈ self → ∃ v, views st !! i = Some v ∧ is_generic v = false)) →
  (do r <- for_each (write_view rec ctx vals) self (cw, st); Ok r.2) =
  super_write self vals st.
Proof.
  induction self as [|i self IH]; intros st Hth Hc; [done|].
  cbn [for_each]. rewrite (super_write_cons i self).
  rewrite write_view_direct; [|done|].
  2:{ destruct Hc as [?|[_ Hc]]; [by left|right]. apply Hc. left. }
  destruct (super_write [i] vals st) as [st1|e] eqn:E; [|done]. cbn [bind].
  apply IH; [done|].
  destruct Hc as [?|[Hnd Hc]]; [by left|right].
  apply NoDup_cons in Hnd as [Hi Hnd]. split; [done|].
  intros j Hj. destruct (Hc j) as (v & Hv & Hg); [by right|].
  exists v. split; [|done].
  apply super_write_frame in E as (_ & _ & _ & _ & _ & Hf).
  rewrite Hf; [done|]. intros ->%list_elem_of_singleton. done.
Qed.

(** X4: [write] applies the update directly to every record of the set, as
    the storage engine's write does, when the context has the bypass flag,
    or when it carries no current website and no theme module is being
    updated; when it succeeds, the stored ids are the same and no id is
    allocated: nothing is forked. *)
Theorem write_without_website_is_direct
    (fuel : nat) (ctx : context) (self : list Z) (vals : list field_val) (st : db) :
  ctx_no_cow ctx = true ∨
  (truthy (ctx_website_id ctx) = false ∧ str_in "theme_" (ctx_module ctx) = false) →
  write (S fuel) ctx self vals st = super_write self vals st ∧
  ∀ st', write (S fuel) ctx self vals st = Ok st' →
    dom (views st') = dom (views st) ∧ next_view st' = next_view st ∧
    pages st' = pages st ∧ menus st' = menus st.
Proof.
  intros Hc.
  assert (E : write (S fuel) ctx self vals st = super_write self vals st).
  { cbn [write]. destruct (ctx_no_cow ctx) eqn:Hnc; [done|]. cbn [negb].
    destruct Hc as [?|[Ht Hth]]; [done|].
    apply write_loop_direct; [done|by left]. }
  split; [done|]. rewrite E. intros st' E'.
  by apply super_write_frame in E' as (? & ? & ? & ? & _).
Qed.

(** X5: A view that already has a website is never specialized again:
    under a website context (no bypass, no theme update) [write] on a set
    of distinct website-specific views applies the update directly and
    succeeds; the stored ids are the same and no id is allocated. *)
Theorem write_specific_views_is_direct
    (fuel : nat) (ctx : context) (w : Z) (self : list Z)
    (vals : list field_val) (st : db) :
  cow_context ctx w →
  NoDup self →
  (∀ i, i ∈ self → ∃ v, views st !! i = Some v ∧ v_website_id v ≠ None ∧
                        is_generic v = false) →
  write (S fuel) ctx self vals st = super_write self vals st ∧
  ∃ st', write (S fuel) ctx self vals st = Ok st' ∧
    dom (views st') = dom (views st) ∧ next_view st' = next_view st.
Proof.
  intros (Hnc & Hth & Hw & Hw0) Hnd Hself.
  assert (E : write (S fuel) ctx self vals st = super_write self vals st).
  { cbn [write]. rewrite Hnc. cbn [negb].
    apply write_loop_direct; [done|right]. split; [done|].
    intros i Hi. destruct (Hself i Hi) as (v & ? & _ & ?). eauto. }
  split; [done|]. rewrite E.
  destruct (super_write_stored vals self st) as [st' E'].
  { intros i Hi. destruct (Hself i Hi) as (v & ? & _). eauto. }
  exists st'. split; [done|].
  by apply super_write_frame in E' as (? & ? & _).
Qed.

(** ** Deletion without copies *)

Lemma filtered_generic_none st self :
  (∀ i, i ∈ self → ∃ v, views st !! i = Some v ∧ is_generic v = false) →
  filtered_generic st self = Ok [].
Proof.
  intros H. unfold filtered_generic. rewrite filtered_generic_loop.
  - f_equal. simpl. induction self as [|i self IH]; [done|].
    rewrite filter_cons. destruct (H i) as (v & Hv & Hg); [left|].
    rewrite decide_False.
    + apply IH. intros j Hj. apply H. by right.
    + unfold generic_at. rewrite Hv, Hg. done.
  - intros i Hi. destruct (H i Hi) as (v & Hv & _). eauto.
Qed.

(** X6: When the context has no current website or has the bypass flag,
    or when every view of the set is website-specific, [unlink] creates
    no copy, whatever the recursion bound: the deletion applies to the
    store as it is.  The set deleted is the given set together with every
    stored view, of any website and active or not, that shares a
    non-empty key with a view of the set; all of them are removed and
    every other view is kept. *)
Theorem unlink_without_copies
    (fuel : nat) (ctx : context) (self : list Z) (st : db) :
  truthy (ctx_website_id ctx) = false ∨ ctx_no_cow ctx = true ∨
    (∀ i, i ∈ self → ∃ v, views st !! i = Some v ∧ is_generic v = false) →
  wf_views st →
  (∀ i, i ∈ self → is_Some (views st !! i)) →
  ∃ deleted, unlink fuel ctx self st = Ok (super_unlink deleted st, deleted) ∧
    (∀ x, x ∈ deleted ↔
          x ∈ self ∨
          ∃ i v vx, i ∈ self ∧ views st !! i = Some v ∧ v_key v ≠ "" ∧
                    views st !! x = Some vx ∧ v_key vx = v_key v) ∧
    (∀ x, views (super_unlink deleted st) !! x =
          if decide (x ∈ deleted) then None else views st !! x) ∧
    next_view (super_unlink deleted st) = next_view st.
Proof.
  intros Hc Hwf Hst.
  assert (E : cou_fork_others fuel ctx self st = Ok st).
  { unfold cou_fork_others.
    destruct (truthy (ctx_website_id ctx)) eqn:Ht; [|done].
    destruct (ctx_no_cow ctx) eqn:Hn; [done|]. cbn [negb andb].
    destruct Hc as [?|[?|Hc]]; [done..|].
    by rewrite filtered_generic_none. }
  unfold unlink. rewrite E. cbn [bind].
  destruct (mapped_keys_spec st self Hst) as (keys & -> & Hkeys). cbn [bind].
  eexists. split; [reflexivity|]. split; [|split; [|done]].
  - intros x. unfold recordset_union.
    rewrite elem_of_ordered_set, elem_of_app, elem_of_search_key_in by done.
    split; (intros [Hx|Hx]; [by left|right]).
    + destruct Hx as (vx & Hvx & Hk). apply Hkeys in Hk as (Hne & i & v & ? & ? & Hk).
      exists i, v, vx. rewrite Hk. done.
    + destruct Hx as (i & v & vx & Hi & Hv & Hne & Hvx & Hk).
      exists vx. split; [done|]. apply Hkeys. rewrite Hk. split; [done|]. eauto.
  - intros x. apply lookup_super_unlink.
Qed.

(** ** The key of a copy-on-unlink copy *)

Lemma string_app_inv_head (k s1 s2 : string) :
  (k ++ s1 = k ++ s2)%string → s1 = s2.
Proof. induction k as [|c k IH]; simpl; [done|]. intros [= E]. by apply IH. Qed.


Lemma string_app_inv_tail (t : string) : ∀ s1 s2 : string,
  (s1 ++ t = s2 ++ t)%string → s1 = s2.
Proof.
  induction s1 as [|c s1 IH]; intros [|d s2]; simpl; intros E; [done|..].
  - apply (f_equal String.length) in E.
    rewrite ?string_app_length in E. simpl in E.
    rewrite ?string_app_length in E. lia.
  - apply (f_equal String.length) in E.
    rewrite ?string_app_length in E. simpl in E.
    rewrite ?string_app_length in E. lia.
  - injection E as -> E. f_equal. by apply IH.
Qed.

Lemma str_of_Z_inj a b : str_of_Z a = str_of_Z b → a = b.
Proof.
  assert (Hint : ∀ z, NilZero.int_of_string (str_of_Z z) = Some (Z.to_int z)).
  { intros z. unfold str_of_Z. apply NilZero.isi.
    - destruct z as [|p|p]; simpl; [done| |done].
      intros [= E]. by apply Unsigned.to_uint_nonnil in E.
    - destruct z as [|p|p]; simpl; [done|done|].
      intros [= E]. by apply Unsigned.to_uint_nonnil in E. }
  intros E. apply (f_equal NilZero.int_of_string) in E.
  rewrite !Hint in E. injection E as E.
  apply (f_equal Z.of_int) in E. by rewrite !DecimalZ.of_to in E.
Qed.

(** X7: The key that copy-on-unlink gives to the copy of a view for a
    website determines the website: the copies of one view for two
    different websites never share a key, and none of them keeps the key
    of the view. *)
Theorem cou_key_separates_websites (key : string) (a b : Z) :
  a ≠ b →
  cou_key key a ≠ cou_key key b ∧ cou_key key a ≠ key ∧ cou_key key b ≠ key.
Proof.
  intros Hab. split; [|split; apply cou_key_ne].
  unfold cou_key. intros E. apply Hab.
  do 2 apply string_app_inv_head in E.
  apply string_app_inv_tail in E. by apply str_of_Z_inj.
Qed.

(** ** Resolution of a key to one record *)


(** The website of the most suitable record of a key, given the current
    website [w] of the context, website 1 when the context names none. *)
Lemma suitability_winner_website ctx r v w :
  (∀ w', v_website_id r = Some w' → 0 < w') →
  (∀ w', v_website_id v = Some w' → 0 < w') →
  suit_leb (_sort_suitability_key ctx r) (_sort_suitability_key ctx v) = true →
  ctx_website_id ctx = Some w ∨ (ctx_website_id ctx = None ∧ w = 1) →
  (v_website_id v = Some w → v_website_id r = Some w) ∧
  (v_website_id v = None → v_website_id r = Some w ∨ v_website_id r = None).
Proof.
  intros Hposr Hposv Hle Hw.
  assert (Hcw : context_website_id ctx = w).
  { unfold context_website_id. by destruct Hw as [->|[-> ->]]. }
  destruct (suitability_winner ctx r v Hposr Hle) as [Hsame Hgen].
  rewrite Hcw in Hsame, Hgen.
  assert (Hr0 : website_id_or_0 r = w →
                v_website_id r = Some w ∨ (w = 0 ∧ v_website_id r = None)).
  { unfold website_id_or_0. destruct (v_website_id r) as [wr|] eqn:Er; simpl.
    - intros ->. by left.
    - intros <-. by right. }
  split.
  - intros Hvw. pose proof (Hposv w Hvw) as Hw0.
    destruct Hr0 as [?|[? _]]; [|done|lia].
    apply Hsame. unfold website_id_or_0. by rewrite Hvw.
  - intros Hvn. destruct (Hgen Hvn) as [E|?]; [|by right].
    destruct (Hr0 E) as [?|[_ ?]]; [by left|by right].
Qed.

(** What the search of [_view_obj] finds for a key is collapsed to one
    record, a most suitable one. *)
Lemma view_obj_key_found {A : Type} (ctx : context) (key : string) (st : db) :
  wf_views st →
  search_views ctx (_view_obj_domain ctx key).1 (_view_obj_domain ctx key).2 st ≠ [] →
  ∃ r, _view_obj (A:=A) ctx (RefKey key) st = Ok (inl [v_id r]) ∧
       r ∈ search_views ctx (_view_obj_domain ctx key).1
                        (_view_obj_domain ctx key).2 st ∧
       ∀ v, v ∈ search_views ctx (_view_obj_domain ctx key).1
                             (_view_obj_domain ctx key).2 st →
         suit_leb (_sort_suitability_key ctx r) (_sort_suitability_key ctx v) = true.
Proof.
  intros Hwf Hne.
  set (found := search_views _ _ _ _) in *.
  assert (Hkey : ∀ v, v ∈ found → v_key v = key).
  { intros v Hv. apply elem_of_search_views in Hv as [_ Hv].
    by apply view_obj_domain_eval in Hv as (_ & ? & _). }
  assert (Hst : ∀ v, v ∈ found → views st !! v_id v = Some v).
  { intros v Hv. by eapply search_views_stored. }
  destruct (filter_duplicate_same_key ctx found key Hne Hkey) as (r & E & Hr & Hmin).
  exists r. split; [|done].
  unfold _view_obj.
  destruct (_view_obj_domain ctx key) as [d o] eqn:Ed. simpl in found.
  unfold search. fold found.
  destruct found as [|x l] eqn:Ef; [done|].
  change (map v_id (x :: l)) with (v_id <$> x :: l).
  unfold filter_duplicate_ids. rewrite (records_stored st (x :: l) Hst).
  rewrite (filter_duplicate_comparable ctx (x :: l)
             (keys_comparable_same_key _ key Hkey)).
  cbn [bind]. by rewrite E.
Qed.

(** C8: [_view_obj] returns an argument that is neither a string nor an
    integer as it is.  An integer is resolved by browsing that id.  A
    string key is resolved by a search of the stored records with that key
    (generic or of the context's website when the context has a website
    entry); when the search finds records the result is their
    duplicate-collapse: one record among those found, of the current
    website (website 1 when the context names none) when one of them is,
    and otherwise generic when one of them is; when the search finds none
    the result is that of the external-reference lookup.  The store is
    consistent and website ids are positive. *)
Theorem view_obj_dispatch {A : Type} (ctx : context) (st : db) :
  wf_views st →
  (∀ i v w', views st !! i = Some v → v_website_id v = Some w' → 0 < w') →
  (∀ a : A, _view_obj ctx (RefObj a) st = Ok (inr a)) ∧
  (∀ i, _view_obj (A:=A) ctx (RefId i) st = Ok (inl [i])) ∧
  (∀ key,
     let found := search_views ctx (_view_obj_domain ctx key).1
                               (_view_obj_domain ctx key).2 st in
     (∀ v, v ∈ found ↔
           (∃ i, views st !! i = Some v) ∧ visible ctx v ∧
           _view_obj_match ctx key v) ∧
     (found ≠ [] →
      ∃ r, _view_obj (A:=A) ctx (RefKey key) st = Ok (inl [v_id r]) ∧
           r ∈ found ∧
           ∀ w, ctx_website_id ctx = Some w ∨ (ctx_website_id ctx = None ∧ w = 1) →
             (∀ s, s ∈ found → v_website_id s = Some w →
                   v_website_id r = Some w) ∧
             (∀ s, s ∈ found → v_website_id s = None →
                   v_website_id r = Some w ∨ v_website_id r = None)) ∧
     (found = [] →
      _view_obj (A:=A) ctx (RefKey key) st =
      match env_ref st key with Ok r => Ok (inl r) | Err e => Err e end)).
Proof.
  intros Hwf Hpos. split; [done|]. split; [done|].
  intros key found. split; [|split].
  - intros v. unfold found.
    by rewrite elem_of_search_views, view_obj_domain_eval.
  - intros Hne.
    destruct (view_obj_key_found (A:=A) ctx key st Hwf Hne) as (r & E & Hr & Hmin).
    exists r. split; [done|]. split; [done|].
    assert (Hposf : ∀ v w', v ∈ found → v_website_id v = Some w' → 0 < w').
    { intros v w' Hv Hw'. apply elem_of_search_views in Hv as [[i Hi] _]. eauto. }
    intros w Hw. split; intros s Hs Hsw.
    + by apply (suitability_winner_website ctx r s w); eauto.
    + by apply (suitability_winner_website ctx r s w); eauto.
  - intros Hnil. unfold _view_obj.
    destruct (_view_obj_domain ctx key) as [d o] eqn:E. simpl in found.
    unfold search. fold found. rewrite Hnil. simpl.
    by destruct (env_ref st key).
Qed.

Lemma view_obj_dispatch_witness :
  _view_obj (A:=unit) ex_ctx_all (RefObj tt) ex_db_inherit = Ok (inr tt) ∧
  _view_obj (A:=unit) ex_ctx_all (RefId 11) ex_db_inherit = Ok (inl [11]) ∧
  _view_obj (A:=unit) ex_ctx_all (RefKey "website.patch") ex_db_inherit
    = Ok (inl [12]) ∧
  _view_obj (A:=unit) ex_ctx_all (RefKey "website.none") ex_db_inherit
    = Err NotFound.
Proof.
  destruct (view_obj_dispatch (A:=unit) ex_ctx_all ex_db_inherit ex_db_inherit_wf)
    as (Hobj & Hid & Hkey).
  { intros i v w' H Hw. apply elem_of_list_to_map_2 in H.
    repeat (apply elem_of_cons in H as [H|H];
            [injection H as -> ->; simpl in Hw;
             first [discriminate Hw | injection Hw as <-; lia]|]).
    by apply elem_of_nil in H. }
  split; [apply Hobj|]. split; [apply Hid|]. split.
  - destruct (Hkey "website.patch") as (_ & Hfound & _).
    destruct Hfound as (r & E & Hr & Hw); [vm_compute; discriminate|].
    destruct (Hw 1 (or_introl eq_refl)) as [Hspec _].
    assert (Hl : search_views ex_ctx_all (_view_obj_domain ex_ctx_all "website.patch").1
                   (_view_obj_domain ex_ctx_all "website.patch").2 ex_db_inherit
                 = [ex_view 12 "website.patch" (Some 1) (Some 10) false;
                    ex_view 11 "website.patch" None (Some 10) true])
      by (vm_compute; reflexivity).
    rewrite Hl in Hr, Hspec.
    assert (Hr1 : v_website_id r = Some 1).
    { apply (Hspec (ex_view 12 "website.patch" (Some 1) (Some 10) false));
        [left|reflexivity]. }
    rewrite E.
    repeat (apply elem_of_cons in Hr as [->|Hr];
            [first [reflexivity | discriminate Hr1]|]).
    by apply elem_of_nil in Hr.
  - destruct (Hkey "website.none") as (_ & _ & Hnone).
    rewrite Hnone; vm_compute; reflexivity.
Defined.

(** X8: A key that [_view_obj] finds resolves to exactly one record,
    however many stored views share the key: a stored view with that key
    that passes the search and is at least as suitable as every view
    found.  Under a website context, when a view of the key specific to
    the current website is found, the record returned is specific to that
    website. *)
Theorem view_obj_key_resolves_to_one {A : Type}
    (ctx : context) (key : string) (st : db) :
  wf_views st →
  (∀ i v w', views st !! i = Some v → v_website_id v = Some w' → 0 < w') →
  let found := search_views ctx (_view_obj_domain ctx key).1
                            (_view_obj_domain ctx key).2 st in
  found ≠ [] →
  ∃ r, _view_obj (A:=A) ctx (RefKey key) st = Ok (inl [v_id r]) ∧
       views st !! v_id r = Some r ∧ v_key r = key ∧ visible ctx r ∧
       (∀ v, v ∈ found →
          suit_leb (_sort_suitability_key ctx r) (_sort_suitability_key ctx v) = true) ∧
       (∀ w s, ctx_website_id ctx = Some w → s ∈ found →
               v_website_id s = Some w → v_website_id r = Some w).
Proof.
  intros Hwf Hpos found Hne.
  assert (Hfound : ∀ v, v ∈ found → views st !! v_id v = Some v ∧
                        visible ctx v ∧ _view_obj_match ctx key v).
  { intros v Hv. split; [by eapply search_views_stored|].
    apply elem_of_search_views in Hv as [_ Hv].
    by apply view_obj_domain_eval in Hv. }
  destruct (view_obj_key_found (A:=A) ctx key st Hwf Hne) as (r & E & Hr & Hmin).
  destruct (Hfound r Hr) as (Hst & Hvis & [Hk _]).
  exists r. split; [done|]. split; [done|]. split; [done|]. split; [done|].
  split; [done|].
  intros w s Hw Hs Hsw.
  {
    assert (0 < w) as Hw0.
    { destruct (Hfound s Hs) as (Hs' & _). eauto. }
    apply website_id_or_0_Some; [lia|].
    assert (context_website_id ctx = w) as Hcw
      by (unfold context_website_id; by rewrite Hw).
    rewrite <- Hcw.
    apply (suitability_winner ctx r s).
    + intros w' Hw'. exact (Hpos _ _ _ Hst Hw').
    + by apply Hmin.
    + unfold website_id_or_0. by rewrite Hsw. }
Qed.

(** X9: Under a website context [get_view_id] prefers a website-specific
    view to a generic one: when a view of the key without theme and
    specific to the current website is stored and passes the search, the
    key resolves to a stored view of that key that belongs to a website,
    never to a generic view; and when the view it resolves to has no
    theme either, that view is specific to the current website. *)
Theorem get_view_id_prefers_website_view
    (ctx : context) (w : Z) (key : string) (themes : list Z) (st : db) (s : view) :
  wf_views st →
  ctx_website_id ctx = Some w → w ≠ 0 →
  website_theme_ids st (Some w) = Ok themes →
  (∃ i, views st !! i = Some s) → visible ctx s →
  v_key s = key → v_theme_id s = None → v_website_id s = Some w →
  ∃ r, get_view_id ctx (RefKey key) st = Ok (v_id r) ∧
       views st !! v_id r = Some r ∧ v_key r = key ∧ visible ctx r ∧
       is_Some (v_website_id r) ∧
       (v_theme_id r = None → v_website_id r = Some w).
Proof.
  intros Hwf Hw Hw0 Hth Hs Hvis Hk Ht Hsw.
  rewrite (get_view_id_key ctx w key themes st Hw Hth).
  assert (Hrof : ref_or_false (Some w) = Some w).
  { unfold ref_or_false, truthy. by assert ((w =? 0) = false) as -> by lia. }
  assert (s ∈ search_views ctx (get_view_id_domain themes (Some w) key)
                OrderWebsite st) as Hin.
  { apply elem_of_search_views. split; [done|].
    apply get_view_id_domain_eval. split; [done|]. split; [done|].
    right. split; [done|]. right. by rewrite Hrof. }
  pose proof Hin as Hin0. rewrite search_views_perm in Hin0.
  destruct (search_views _ _ _ _) as [|r rest] eqn:E.
  { by apply elem_of_nil in Hin. }
  exists r. split; [done|].
  assert (r ∈ search_views ctx (get_view_id_domain themes (Some w) key)
                OrderWebsite st) as Hr by (rewrite E; left).
  split; [by eapply search_views_stored|].
  apply elem_of_search_views in Hr as [_ Hr].
  apply get_view_id_domain_eval in Hr as [Hrv [Hrk Hrm]].
  split; [done|]. split; [done|].
  unfold search_views, order_views in E.
  eapply sorted_by_head in E as [_ Hmin];
    [|exact pair_leb_total|exact pair_leb_trans].
  assert (is_Some (v_website_id r)) as Hsome.
  { specialize (Hmin s Hin0).
    unfold website_order_key, pair_leb in Hmin. rewrite Hsw in Hmin.
    destruct (v_website_id r); [eauto|]. simpl in Hmin. lia. }
  split; [done|]. intros Hrt.
  destruct Hrm as [(t & Et & _)|[_ [Hn|Hn]]].
  - congruence.
  - rewrite Hn in Hsome. by destruct Hsome.
  - by rewrite Hn, Hrof.
Qed.

(** ** Inheriting views *)



Lemma StronglySorted_filter {A} (R : A → A → Prop) (P : A → Prop)
    `{∀ x, Decision (P x)} l :
  StronglySorted R l → StronglySorted R (filter P l).
Proof.
  induction 1 as [|x l Hs IH Hx]; [constructor|].
  rewrite filter_cons. case_decide; [|done].
  constructor; [done|]. apply Forall_forall. intros y Hy.
  apply list_elem_of_filter in Hy as [_ Hy]. by eapply Forall_forall in Hx.
Qed.


Lemma base_domain_without_active view_id model :
  filter (λ leaf, active_in_leaf leaf = false)
         (base_inheriting_views_arch_domain view_id model) =
  if decide (model = "active")
  then [DLeaf Fd_inherit_id OpEq (VRef (Some view_id))]
  else [DLeaf Fd_inherit_id OpEq (VRef (Some view_id));
        DLeaf Fd_model OpEq (VStr model)].
Proof.
  unfold base_inheriting_views_arch_domain.
  unfold filter. simpl.
  destruct (decide (model = "active")) as [->|Hne]; [done|].
  f_equal. rewrite filter_cons_True; [done|].
  unfold active_in_leaf. simpl. apply bool_decide_eq_false. congruence.
Qed.

(** What the inheritance search asks of a record under the website [w]
    with the themes [themes]. *)
Lemma inheriting_domain_website ctx w view_id model themes st :
  ctx_website_id ctx = Some w → w ≠ 0 →
  website_theme_ids st (Some w) = Ok themes →
  ∃ dom, _get_inheriting_views_arch_domain (with_active_test ctx false)
           view_id model st = Ok dom ∧
    ∀ v, eval_domain (effective_domain (with_active_test ctx false) dom) v = true ↔
         v_inherit_id v = Some view_id ∧
         (model ≠ "active" → v_model v = model) ∧
         (v_website_id v = None ∨ v_website_id v = Some w ∨
          ∃ t, t ∈ themes ∧ v_theme_id v = Some t).
Proof.
  intros Hw Hw0 Hth.
  assert (Htr : truthy (Some w) = true).
  { unfold truthy. by assert ((w =? 0) = false) as -> by lia. }
  unfold _get_inheriting_views_arch_domain. simpl. rewrite Hw, Htr, Hth.
  cbn [bind]. rewrite base_domain_without_active.
  eexists. split; [reflexivity|]. intros v.
  unfold effective_domain. simpl.
  assert (Hwd : ∀ x : option Z, x ∈ [None; ref_or_false (Some w)] ↔
                                x = None ∨ x = Some w).
  { intros x. unfold ref_or_false. rewrite Htr, !elem_of_cons, elem_of_nil. tauto. }
  destruct themes as [|t ts]; destruct (decide (model = "active")) as [Hm|Hm];
    unfold website_domain, eval_domain, eval_leaf; simpl;
    rewrite ?andb_true_r, ?andb_true_iff, ?orb_true_iff, ?bool_decide_eq_true, ?Hwd.
  - split.
    + intros (Hws & Hi). injection Hi as Hi. split; [done|]. split; [done|].
      destruct Hws; auto.
    + intros (Hi & _ & [?|[?|(t & Ht & _)]]); rewrite Hi; auto.
      by apply elem_of_nil in Ht.
  - split.
    + intros (Hws & Hi & Hmo). injection Hi as Hi. injection Hmo as Hmo.
      split; [done|]. split; [done|]. destruct Hws; auto.
    + intros (Hi & Hmo & [?|[?|(t & Ht & _)]]); rewrite Hi, Hmo by done; auto.
      by apply elem_of_nil in Ht.
  - split.
    + intros (Hws & Hi). injection Hi as Hi. split; [done|]. split; [done|].
      destruct Hws as [[?|?]|Hin]; auto.
      right. right.
      change (Some t :: list_fmap Z (option Z) Some ts) with (Some <$> t :: ts) in Hin.
      apply list_elem_of_fmap in Hin as (t' & E & Ht'). eauto.
    + intros (Hi & _ & Hws). rewrite Hi. split; [|done].
      destruct Hws as [?|[?|(t' & Ht' & E)]]; auto.
      right. change (Some t :: list_fmap Z (option Z) Some ts) with (Some <$> t :: ts).
      apply list_elem_of_fmap. eauto.
  - split.
    + intros (Hws & Hi & Hmo). injection Hi as Hi. injection Hmo as Hmo.
      split; [done|]. split; [done|].
      destruct Hws as [[?|?]|Hin]; auto.
      right. right.
      change (Some t :: list_fmap Z (option Z) Some ts) with (Some <$> t :: ts) in Hin.
      apply list_elem_of_fmap in Hin as (t' & E & Ht'). eauto.
    + intros (Hi & Hmo & Hws). rewrite Hi, Hmo by done. split; [|done].
      destruct Hws as [?|[?|(t' & Ht' & E)]]; auto.
      right. change (Some t :: list_fmap Z (option Z) Some ts) with (Some <$> t :: ts).
      apply list_elem_of_fmap. eauto.
Qed.

(** X11: Under a website context the inheriting views are searched with
    the active filter disabled.  When they mix views without key and
    views with a key, [get_inheriting_views_arch] raises [TypeError].
    Otherwise it returns a list ordered by (priority, id) in which no two
    views share a key.  Every view returned is stored, active, inherits
    from the view, and is generic, specific to the current website, or of
    a theme enabled on the website; it is of the requested model, unless
    that model is named [active]: the filter that strips the conditions
    on [active] from the inherited domain then strips the condition on
    the model as well. *)
Theorem get_inheriting_views_arch_website
    (ctx : context) (w : Z) (view_id : Z) (model : string)
    (themes : list Z) (st : db) :
  wf_views st →
  ctx_website_id ctx = Some w → w ≠ 0 →
  website_theme_ids st (Some w) = Ok themes →
  ∃ dom,
    _get_inheriting_views_arch_domain (with_active_test ctx false) view_id model st
      = Ok dom ∧
    let inheriting :=
      search_views (with_active_test ctx false) dom OrderDefault st in
    (keys_comparable inheriting = false →
     get_inheriting_views_arch ctx view_id model st = Err TypeError) ∧
    (keys_comparable inheriting = true →
     ∃ l, get_inheriting_views_arch ctx view_id model st =
            Ok (map (λ v, (v_arch v, v_id v)) l) ∧
          NoDup (v_key <$> l) ∧
          StronglySorted priority_id_le l ∧
          ∀ v, v ∈ l →
            views st !! v_id v = Some v ∧ v_active v = true ∧
            v_inherit_id v = Some view_id ∧
            (model ≠ "active" → v_model v = model) ∧
            (v_website_id v = None ∨ v_website_id v = Some w ∨
             ∃ t, t ∈ themes ∧ v_theme_id v = Some t)).
Proof.
  intros Hwf Hw Hw0 Hth.
  destruct (inheriting_domain_website ctx w view_id model themes st Hw Hw0 Hth)
    as (dom & Hdom & Hev).
  exists dom. split; [done|]. intros inheriting.
  assert (E : get_inheriting_views_arch ctx view_id model st =
              do filtered <- filter_duplicate ctx inheriting;
              Ok (map (λ v, (v_arch v, v_id v))
                      (filter (λ v, v_active v = true) filtered))).
  { unfold get_inheriting_views_arch, super_get_inheriting_views_arch.
    rewrite Hw, Hdom. cbn [bind truthy].
    assert ((w =? 0) = false) as -> by lia. cbn [negb].
    rewrite map_map. cbn [snd]. fold inheriting.
    change (map (λ x : view, v_id x) inheriting) with (v_id <$> inheriting).
    by rewrite records_stored by (intros v Hv; by eapply search_views_stored). }
  rewrite E. split.
  - intros Hmix. by rewrite (filter_duplicate_mixed ctx inheriting Hmix).
  - intros Hcmp. rewrite (filter_duplicate_comparable ctx inheriting Hcmp).
    cbn [bind]. eexists. split; [reflexivity|]. split; [|split].
    + apply NoDup_fmap_filter, filter_duplicate_keys_NoDup.
    + apply StronglySorted_filter.
      eapply StronglySorted_weaken; [apply priority_id_key_le|].
      apply filter_duplicate_sorted.
    + intros v Hv. apply list_elem_of_filter in Hv as [Hact Hv].
      apply filter_duplicate_elem in Hv as [Hv _].
      split; [by eapply search_views_stored|]. split; [done|].
      apply elem_of_search_views in Hv as [_ Hv]. by apply Hev.
Qed.

(** ** Related views *)

Lemma ordered_set_loop_NoDup (ids : list Z) : ∀ acc : list Z,
  NoDup acc →
  NoDup (fold_left (λ acc x, if bool_decide (x ∈ acc) then acc else acc ++ [x]) ids acc).
Proof.
  induction ids as [|y ids IH]; intros acc Hnd; simpl; [done|].
  apply IH. case_bool_decide as Hy; [done|].
  apply NoDup_app. split; [done|]. split; [|apply NoDup_singleton].
  intros x Hx ->%list_elem_of_singleton. done.
Qed.

Lemma recordset_union_singleton (acc : list Z) (x : Z) :
  NoDup acc →
  NoDup (recordset_union acc [x]) ∧
  ∀ y, y ∈ recordset_union acc [x] ↔ y ∈ acc ∨ y = x.
Proof.
  intros Hnd. split.
  - unfold recordset_union, ordered_set. by apply ordered_set_loop_NoDup, NoDup_nil.
  - intros y. unfold recordset_union.
    by rewrite elem_of_ordered_set, elem_of_app, list_elem_of_singleton.
Qed.

Lemma any_specific_with_key_spec st key cw : ∀ l,
  truthy cw = true →
  (∀ i, i ∈ l → is_Some (views st !! i)) →
  ∃ b, any_specific_with_key st key cw l = Ok b ∧
       (b = true ↔ ∃ j vj, j ∈ l ∧ views st !! j = Some vj ∧
                           v_key vj = key ∧ v_website_id vj = cw).
Proof.
  intros l Hcw. induction l as [|x l IH]; intros Hst.
  { exists false. split; [done|]. split; [done|].
    intros (j & vj & Hj & _). by apply elem_of_nil in Hj. }
  destruct (Hst x) as [vx Hx]; [left|].
  cbn [any_specific_with_key]. unfold read at 1. rewrite Hx. cbn [bind].
  destruct (bool_decide (key = v_key vx) && truthy (v_website_id vx)
            && bool_decide (v_website_id vx = cw)) eqn:E.
  - exists true. split; [done|]. split; [|done]. intros _.
    apply andb_true_iff in E as [E Ew]. apply andb_true_iff in E as [Ek _].
    apply bool_decide_eq_true in Ek, Ew. exists x, vx. split; [left|done].
  - destruct IH as (b & -> & Hb).
    { intros i Hi. apply Hst. by right. }
    exists b. split; [done|]. rewrite Hb. split.
    + intros (j & vj & Hj & ?). exists j, vj. split; [by right|done].
    + intros (j & vj & Hj & Hvj & Hk & Hw).
      apply elem_of_cons in Hj as [->|Hj]; [|by exists j, vj].
      exfalso. assert (vj = vx) as -> by congruence.
      rewrite Hw, Hcw, Hk in E. by rewrite !bool_decide_true in E.
Qed.

(** The views that [get_related_views] keeps for the website [cw]. *)
Lemma keep_most_specific_spec st cw l x acc :
  cw ≠ 0 → NoDup acc →
  (∀ i, i ∈ l → is_Some (views st !! i)) → x ∈ l →
  ∃ acc', keep_most_specific st (Some cw) l x acc = Ok acc' ∧ NoDup acc' ∧
    ∀ y, y ∈ acc' ↔
         y ∈ acc ∨
         (y = x ∧ ∃ v, views st !! x = Some v ∧
            (v_website_id v = Some cw ∨
             (is_generic v = true ∧
              ¬ ∃ j vj, j ∈ l ∧ views st !! j = Some vj ∧
                        v_key vj = v_key v ∧ v_website_id vj = Some cw))).
Proof.
  intros Hcw Hnd Hst Hx.
  assert (Htr : truthy (Some cw) = true).
  { unfold truthy. by assert ((cw =? 0) = false) as -> by lia. }
  destruct (Hst x Hx) as [v Hv].
  destruct (recordset_union_singleton acc x Hnd) as [Hnd' Hin'].
  unfold keep_most_specific, read. rewrite Hv. cbn [bind].
  destruct (truthy (v_website_id v)) eqn:Et; cbn [andb negb].
  - case_bool_decide as Hw.
    + eexists. split; [done|]. split; [done|]. intros y. rewrite Hin'.
      split; (intros [?|Hy]; [by left|right]).
      * split; [done|]. eauto.
      * by destruct Hy.
    + exists acc. split; [done|]. split; [done|]. intros y.
      split; [by left|]. intros [?|(-> & v' & Hv' & [Hs|[Hg _]])]; [done|..].
      * congruence.
      * assert (v' = v) as -> by congruence. unfold is_generic in Hg.
        by rewrite Et in Hg.
  - destruct (any_specific_with_key_spec st (v_key v) (Some cw) l Htr Hst)
      as (b & -> & Hb). cbn [bind].
    assert (Hg : is_generic v = true) by (unfold is_generic; by rewrite Et).
    destruct b; cbn [negb].
    + exists acc. split; [done|]. split; [done|]. intros y.
      split; [by left|]. intros [?|(-> & v' & Hv' & [Hs|[_ Hno]])]; [done|..].
      * assert (v' = v) as -> by congruence. rewrite Hs, Htr in Et. done.
      * assert (v' = v) as -> by congruence. exfalso. apply Hno. by apply Hb.
    + eexists. split; [done|]. split; [done|]. intros y. rewrite Hin'.
      split; (intros [?|Hy]; [by left|right]).
      * split; [done|]. exists v. split; [done|]. right. split; [done|].
        intros H. apply Hb in H. done.
      * by destruct Hy.
Qed.

(** X12: [get_related_views] keeps, of the views that the storage engine
    relates to the key, only the most specific ones for the current
    website: a view is returned exactly when it is specific to the
    current website, or generic and not shadowed by a view of the same
    key specific to the current website among the related views.  A view
    of another website is never returned, and no view is returned twice.
    When there is no current website the related views are returned as
    they are. *)
Theorem get_related_views_most_specific
    (ctx : context) (cw : Z)
    (super_get_related_views : context → db → result (list Z))
    (st : db) (related : list Z) :
  super_get_related_views (with_website ctx cw) st = Ok related →
  (∀ i, i ∈ related → is_Some (views st !! i)) →
  (cw = 0 → get_related_views ctx cw super_get_related_views st = Ok related) ∧
  (cw ≠ 0 →
   ∃ res, get_related_views ctx cw super_get_related_views st = Ok res ∧
     NoDup res ∧
     ∀ i, i ∈ res ↔
       i ∈ related ∧
       ∃ v, views st !! i = Some v ∧
         (v_website_id v = Some cw ∨
          (is_generic v = true ∧
           ¬ ∃ j vj, j ∈ related ∧ views st !! j = Some vj ∧
                     v_key vj = v_key v ∧ v_website_id vj = Some cw))).
Proof.
  intros Hsuper Hst. unfold get_related_views. rewrite Hsuper. cbn [bind].
  split.
  { intros ->. done. }
  intros Hcw. simpl. assert ((cw =? 0) = false) as -> by lia. cbn [negb].
  assert (Hloop : ∀ l acc, NoDup acc → (∀ i, i ∈ l → i ∈ related) →
    ∃ res, for_each (keep_most_specific st (Some cw) related) l acc = Ok res ∧
      NoDup res ∧
      ∀ i, i ∈ res ↔
        i ∈ acc ∨
        (i ∈ l ∧ ∃ v, views st !! i = Some v ∧
           (v_website_id v = Some cw ∨
            (is_generic v = true ∧
             ¬ ∃ j vj, j ∈ related ∧ views st !! j = Some vj ∧
                       v_key vj = v_key v ∧ v_website_id vj = Some cw)))).
  { induction l as [|x l IH]; intros acc Hnd Hl.
    - exists acc. split; [done|]. split; [done|]. intros i.
      split; [by left|]. intros [?|[Hi _]]; [done|]. by apply elem_of_nil in Hi.
    - destruct (keep_most_specific_spec st cw related x acc Hcw Hnd Hst)
        as (acc' & E & Hnd' & Hacc'); [apply Hl; left|].
      destruct (IH acc' Hnd') as (res & E' & Hndr & Hres).
      { intros i Hi. apply Hl. by right. }
      exists res. split; [cbn [for_each]; by rewrite E|]. split; [done|].
      intros i. rewrite Hres, Hacc'. split.
      + intros [[?|[-> Hx]]|[Hi Hv]]; [by left|right..].
        * split; [left|done].
        * split; [by right|done].
      + intros [?|[Hi Hv]]; [by left; left|].
        apply elem_of_cons in Hi as [->|Hi]; [left; right|right]; done. }
  destruct (Hloop related [] (NoDup_nil_2) (λ i Hi, Hi)) as (res & E & Hnd & Hres).
  exists res. split; [done|]. split; [done|]. intros i. rewrite Hres.
  split; [|by right]. intros [Hi|?]; [by apply elem_of_nil in Hi|done].
Qed.

(** ** Rendering context *)

(** X13: The context under which [render] renders differs from the given
    one at most in one of the two branding flags, which is then set.
    [inherit_branding] is set only for a publisher on the frontend who
    views the website's default language, [inherit_branding_auto] only
    for a member of the publisher group who is not a publisher, and
    neither when a bundle is being rendered; a publisher viewing another
    language gets the context unchanged.  Computing the context again
    from the result changes nothing. *)
Theorem render_context_branding (rq : option request) (ctx : render_ctx) :
  let ctx' := render_context rq ctx in
  rc_lang ctx' = rc_lang ctx ∧
  rc_rendering_bundle ctx' = rc_rendering_bundle ctx ∧
  (rc_inherit_branding ctx' ≠ rc_inherit_branding ctx →
   rc_inherit_branding ctx' = Some true ∧
   rc_inherit_branding_auto ctx' = rc_inherit_branding_auto ctx ∧
   rc_rendering_bundle ctx = false ∧
   ∃ r, rq = Some r ∧ rq_is_frontend r = true ∧ rq_is_publisher r = true ∧
        rc_lang ctx = Some (rq_default_lang_code r)) ∧
  (rc_inherit_branding_auto ctx' ≠ rc_inherit_branding_auto ctx →
   rc_inherit_branding_auto ctx' = Some true ∧
   rc_inherit_branding ctx' = rc_inherit_branding ctx ∧
   rc_rendering_bundle ctx = false ∧
   ∃ r, rq = Some r ∧ rq_is_frontend r = true ∧ rq_is_publisher r = false ∧
        rq_group_publisher r = true) ∧
  (∀ r, rq = Some r → rq_is_publisher r = true →
        rc_lang ctx ≠ Some (rq_default_lang_code r) → ctx' = ctx) ∧
  render_context rq ctx' = ctx'.
Proof.
  destruct ctx as [lang bundle ib iba].
  destruct rq as [[fe pub dl grp]|]; [|by repeat split].
  unfold render_context.
  cbn [rq_is_frontend rq_is_publisher rq_default_lang_code rq_group_publisher
       rc_lang rc_rendering_bundle rc_inherit_branding rc_inherit_branding_auto].
  destruct (bool_decide (lang = Some dl)) eqn:El;
    [apply bool_decide_eq_true in El as Hl|apply bool_decide_eq_false in El as Hl];
    destruct fe, pub, bundle, grp; simpl; rewrite ?El; simpl.
  all: repeat match goal with |- _ ∧ _ => split end.
  all: try done.
  all: try (intros r [= <-]; simpl; intros; congruence).
  all: intros _; repeat split; try done; eexists; repeat split; done.
Qed.

(** ** Theme updates *)


(** X14: During the update of a theme module, [write] on a view that has
    more than one external id fails, before anything is written: the
    module of the external id is read from a recordset that is not a
    single record. *)
Theorem theme_update_ambiguous_external_id
    (fuel : nat) (ctx : context) (i : Z) (self : list Z)
    (vals : list field_val) (st : db) (x y : model_data) (l : list model_data) :
  ctx_no_cow ctx = false →
  str_in "theme_" (ctx_module ctx) = true →
  view_xml_ids st i = x :: y :: l →
  _get_theme_specific_view ctx i (ctx_module ctx) st = Err ExpectedSingleton ∧
  write (S fuel) ctx (i :: self) vals st = Err ExpectedSingleton.
Proof.
  intros Hnc Hth Hx.
  assert (E : _get_theme_specific_view ctx i (ctx_module ctx) st
              = Err ExpectedSingleton).
  { unfold _get_theme_specific_view. by rewrite Hx. }
  split; [done|].
  cbn [write]. rewrite Hnc. cbn [negb for_each]. unfold write_view.
  by rewrite Hth, E.
Qed.


(** ** What a copy-on-write creates *)

Lemma new_copies_same rank w r st st' :
  (∀ x, is_Some (views st' !! x) → is_Some (views st !! x)) →
  new_copies rank w r st st'.
Proof.
  intros H x vx' Hx Hn. destruct (H x) as [vx Hvx]; [eauto|]. congruence.
Qed.

Lemma new_copies_mono rank w r r' st st' :
  (r ≤ r')%nat → new_copies rank w r st st' → new_copies rank w r' st st'.
Proof.
  intros Hr H x vx' Hx Hn. destruct (H x vx' Hx Hn) as (y & vy & ? & ? & ? & ?).
  exists y, vy. repeat split; try done. lia.
Qed.

Lemma new_copies_trans rank w r s1 s2 s3 :
  evolves s1 s2 → evolves s2 s3 →
  new_copies rank w r s1 s2 → new_copies rank w r s2 s3 →
  new_copies rank w r s1 s3.
Proof.
  intros (_ & _ & _ & _ & Hback) (_ & _ & _ & Hkeep & _) H12 H23 x vx' Hx Hn.
  destruct (views s2 !! x) as [vx2|] eqn:E2.
  - destruct (H12 x vx2 E2 Hn) as (y & vy & Hy & Hg & Hr & Hs).
    destruct (Hkeep x vx2 E2) as (vx3 & Hx3 & Hs3).
    assert (vx3 = vx') as -> by congruence.
    exists y, vy. repeat split; try done.
    by eapply same_except_parent_trans.
  - destruct (H23 x vx' Hx E2) as (y & vy & Hy & Hg & Hr & Hs).
    exists y, vy. repeat split; try done. by apply Hback.
Qed.

Section CopiesInduction.
Context (rank : Z → nat) (ctx : context) (w : Z).
Hypothesis Hcow : cow_context ctx w.
Context (fuel : nat).
Hypothesis write_copies : ∀ c vc q st st',
  wf_views st → rank_ok rank st → views st !! c = Some vc →
  (is_generic vc = true → (rank c + 2 ≤ fuel)%nat) → (1 ≤ fuel)%nat →
  write fuel ctx [c] [FInherit q] st = Ok st' →
  new_copies rank w (S (rank c)) st st'.

Lemma children_loop_copies r n : ∀ cs s s',
  wf_views s → rank_ok rank s → (1 ≤ fuel)%nat →
  (∀ c, c ∈ cs → ∃ vc, views s !! c = Some vc ∧
     (is_generic vc = true → (rank c < r)%nat ∧ (rank c + 2 ≤ fuel)%nat)) →
  for_each (λ c s, write fuel ctx [c] [FInherit (Some n)] s) cs s = Ok s' →
  evolves s s' ∧ new_copies rank w r s s'.
Proof using Hcow write_copies.
  induction cs as [|c cs IH]; intros s s' Hwf Hrk Hfuel Hcs E.
  { injection E as <-. split; [apply evolves_refl|]. by apply new_copies_same. }
  destruct (Hcs c) as (vc & Hc & Hcg); [left|].
  destruct (write_reparent_spec rank ctx w Hcow fuel c vc (Some n) s)
    as (sa & Ea & Hwfa & Heva & _ & Hra); try done.
  { intros Hg. by apply Hcg. }
  cbn [for_each] in E. rewrite Ea in E. cbn [bind] in E.
  assert (Hca : new_copies rank w r s sa).
  { destruct (is_generic vc) eqn:Hg.
    - apply (new_copies_mono rank w (S (rank c))); [destruct Hcg; [done|lia]|].
      eapply write_copies; try done. intros _. by apply Hcg.
    - destruct Hra as [Hv _]. apply new_copies_same. intros x. rewrite Hv.
      destruct (decide (c = x)) as [<-|Hne].
      + eauto.
      + by rewrite lookup_insert_ne. }
  destruct (IH sa s') as [Hev' Hc']; try done.
  { by eapply rank_ok_evolves. }
  { intros c2 Hc2. destruct (Hcs c2) as (vc2 & Hv2 & Hg2); [by right|].
    destruct Heva as (_ & _ & _ & Hkeep & _).
    destruct (Hkeep c2 vc2 Hv2) as (vc2' & Hv2' & Hs2).
    exists vc2'. split; [done|].
    by rewrite (same_except_parent_generic _ _ Hs2). }
  split; [by eapply evolves_trans|]. by eapply new_copies_trans.
Qed.

Lemma fork_and_propagate_copies i v st st1 n :
  wf_views st → rank_ok rank st →
  views st !! i = Some v → is_generic v = true → (rank i + 1 ≤ fuel)%nat →
  fork_and_propagate (write fuel) ctx i (Some w) st = Ok (st1, n) →
  ∀ x vx', views st1 !! x = Some vx' → views st !! x = None →
    x ≠ next_view st →
    ∃ y vy, views st !! y = Some vy ∧ is_generic vy = true ∧
            (rank y < rank i)%nat ∧ same_except_parent (fork_of vy x w) vx'.
Proof using Hcow write_copies.
  intros Hwf Hrk Hi Hgi Hfuel E x vx' Hx Hnew Hxn.
  pose proof Hcow as (_ & _ & _ & Hw0).
  pose proof (wf_views_next_fresh st Hwf) as Hfresh.
  unfold fork_and_propagate in E. rewrite (copy_stored _ _ _ _ Hi) in E.
  cbn [bind] in E. fold (fork_of v (next_view st) w) in E.
  match type of E with
  | context [_create_website_specific_pages_for_view ctx i ?m ?s] =>
      set (st0 := s) in E;
      set (sp := _create_website_specific_pages_for_view ctx i m st0) in E
  end.
  destruct (create_pages_views ctx i (next_view st) st0) as (Hvp & Hnp & Hwp).
  fold sp in Hvp, Hnp, Hwp. simpl in Hvp, Hnp, Hwp.
  destruct (copy_for_website_evolves rank ctx w Hcow i v st Hwf Hrk Hi sp Hvp Hnp Hwp)
    as (Hwfp & Hrkp & Hevp).
  destruct (for_each _ (inherit_children_ids sp i) sp) as [s'|e] eqn:El; [|done].
  cbn [bind] in E. injection E as <- <-.
  destruct (children_loop_copies (rank i) (next_view st)
              (inherit_children_ids sp i) sp s') as [_ Hcp]; try done.
  { lia. }
  { intros c Hc. apply elem_of_inherit_children_ids in Hc as (vc & Hc & Hp); [|done].
    exists vc. split; [done|]. intros Hg.
    destruct Hevp as (_ & _ & _ & _ & Hback).
    specialize (Hrk c vc i (Hback c vc Hc Hg) Hg Hp). lia. }
  destruct (Hcp x vx' Hx) as (y & vy & Hy & Hg & Hr & Hs).
  { by rewrite Hvp, lookup_insert_ne. }
  exists y, vy. split; [|done].
  destruct Hevp as (_ & _ & _ & _ & Hback). by apply Hback.
Qed.
End CopiesInduction.

Lemma write_reparent_copies rank ctx w :
  cow_context ctx w →
  ∀ fuel c vc q st st',
    wf_views st → rank_ok rank st → views st !! c = Some vc →
    (is_generic vc = true → (rank c + 2 ≤ fuel)%nat) → (1 ≤ fuel)%nat →
    write fuel ctx [c] [FInherit q] st = Ok st' →
    new_copies rank w (S (rank c)) st st'.
Proof.
  intros Hcow. pose proof Hcow as (_ & _ & _ & Hw0).
  induction fuel as [|fuel IH]; intros c vc q st st' Hwf Hrk Hc Hgf Hf E; [lia|].
  destruct (is_generic vc) eqn:Hg.
  - specialize (Hgf eq_refl).
    rewrite (write_generic_unfold ctx w Hcow _ _ _ _ _ Hc Hg) in E.
    unfold write_fork in E.
    destruct (fork_and_propagate_forked rank ctx w Hcow fuel
                (write_reparent_spec rank ctx w Hcow fuel) c vc st)
      as (st1 & E1 & Hfk); try done; [lia|].
    pose proof (fork_and_propagate_copies rank ctx w Hcow fuel IH c vc st st1
                  (next_view st) Hwf Hrk Hc Hg ltac:(lia) E1) as Hcp.
    rewrite E1 in E. cbn [bind] in E.
    destruct Hfk as (_ & _ & _ & _ & _ & Hn & _).
    destruct fuel as [|fuel]; [lia|].
    rewrite (write_specific_in_place ctx w Hcow _ _ _ _ _ Hn
               (fork_of_not_generic _ _ _ Hw0)) in E.
    injection E as <-. intros x vx'. simpl.
    destruct (decide (next_view st = x)) as [<-|Hne].
    + rewrite lookup_insert_eq. intros [= <-] _.
      exists c, vc. split; [done|]. split; [done|]. split; [lia|]. by exists q.
    + rewrite lookup_insert_ne by done. intros Hx Hnew.
      destruct (Hcp x vx' Hx Hnew) as (y & vy & ? & ? & ? & ?); [done|].
      exists y, vy. repeat split; try done. lia.
  - destruct fuel as [|fuel]; [|].
    + rewrite (write_specific_in_place ctx w Hcow _ _ _ _ _ Hc Hg) in E.
      injection E as <-. apply new_copies_same. intros x. simpl.
      destruct (decide (c = x)) as [<-|Hne]; [eauto|by rewrite lookup_insert_ne].
    + rewrite (write_specific_in_place ctx w Hcow _ _ _ _ _ Hc Hg) in E.
      injection E as <-. apply new_copies_same. intros x. simpl.
      destruct (decide (c = x)) as [<-|Hne]; [eauto|by rewrite lookup_insert_ne].
Qed.

(** The store after the write of values on a generic view: the fork with
    the values, copies of generic views of lower rank, and the views that
    were stored, which keep everything but their parent. *)
Lemma write_generic_copies rank ctx w fuel i v vals st :
  cow_context ctx w →
  wf_views st → rank_ok rank st →
  views st !! i = Some v → is_generic v = true → (rank i + 2 ≤ fuel)%nat →
  ∃ st', write fuel ctx [i] vals st = Ok st' ∧
    wf_views st' ∧ websites st' = websites st ∧
    views st !! next_view st = None ∧
    views st' !! next_view st = Some (apply_vals vals (fork_of v (next_view st) w)) ∧
    (∀ x vx, views st !! x = Some vx →
       ∃ vx', views st' !! x = Some vx' ∧ same_except_parent vx vx') ∧
    (∀ x vx, views st !! x = Some vx → is_generic vx = true →
       views st' !! x = Some vx) ∧
    (∀ x vx', views st' !! x = Some vx' → views st !! x = None →
       x ≠ next_view st →
       ∃ y vy, views st !! y = Some vy ∧ is_generic vy = true ∧
               (rank y < rank i)%nat ∧ same_except_parent (fork_of vy x w) vx').
Proof.
  intros Hcow Hwf Hrk Hi Hg Hfuel.
  pose proof (wf_views_next_fresh st Hwf) as Hfresh.
  destruct fuel as [|fuel]; [lia|].
  destruct (fork_and_propagate_forked rank ctx w Hcow fuel
              (write_reparent_spec rank ctx w Hcow fuel) i v st)
    as (st1 & E1 & Hfk); try done; [lia|].
  pose proof (fork_and_propagate_copies rank ctx w Hcow fuel
                (write_reparent_copies rank ctx w Hcow fuel) i v st st1
                (next_view st) Hwf Hrk Hi Hg ltac:(lia) E1) as Hcp.
  pose proof Hcow as (_ & _ & _ & Hw0).
  destruct Hfk as (Hwf1 & (_ & Hws & Hgen & Hkeep & _) & _ & _ & Hlt & Hn & _).
  eexists. split.
  { rewrite (write_generic_unfold ctx w Hcow _ _ _ _ _ Hi Hg).
    unfold write_fork. rewrite E1. cbn [bind].
    destruct fuel as [|fuel]; [lia|].
    apply (write_specific_in_place ctx w Hcow); [done|].
    by apply fork_of_not_generic. }
  split.
  { intros x vx. simpl. destruct (decide (next_view st = x)) as [<-|Hne].
    - rewrite lookup_insert_eq. intros [= <-]. split; [|done].
      rewrite v_id_apply_vals. unfold fork_of. by rewrite v_id_apply_vals.
    - rewrite lookup_insert_ne by done. apply Hwf1. }
  simpl. split; [done|]. split; [done|].
  split; [by rewrite lookup_insert_eq|]. split; [|split].
  - intros x vx Hx. rewrite lookup_insert_ne by congruence. by apply Hkeep.
  - intros x vx Hx Hgx. rewrite lookup_insert_ne by congruence. by apply Hgen.
  - intros x vx' Hx Hnew Hxn. rewrite lookup_insert_ne in Hx by done.
    by apply Hcp.
Qed.

(** X16: Under a website context, [write] on a generic view creates,
    besides the fork that receives the values, only copies for the
    current website of generic views that rank below the view in the
    inheritance: each new view has the fields of such a view, the website
    set, and possibly another parent.  Every view stored before keeps all
    its fields but, possibly, its parent, and no view is deleted. *)
Theorem write_creates_only_website_copies
    (rank : Z → nat) (fuel : nat) (ctx : context) (w i : Z) (v : view)
    (vals : list field_val) (st : db) :
  cow_context ctx w →
  wf_views st → rank_ok rank st →
  views st !! i = Some v → v_website_id v = None →
  (rank i + 2 ≤ fuel)%nat →
  ∃ st', write fuel ctx [i] vals st = Ok st' ∧
    (∀ x vx', views st' !! x = Some vx' → views st !! x = None →
       x ≠ next_view st →
       v_website_id vx' = Some w ∧
       ∃ y vy q, views st !! y = Some vy ∧ is_generic vy = true ∧
                 (rank y < rank i)%nat ∧
                 vx' = mkView x (v_name vy) (v_key vy) (Some w) (v_theme_id vy)
                              (v_active vy) (v_priority vy) q
                              (v_model vy) (v_arch vy)) ∧
    (∀ x vx, views st !! x = Some vx →
       ∃ q, views st' !! x =
            Some (mkView (v_id vx) (v_name vx) (v_key vx) (v_website_id vx)
                         (v_theme_id vx) (v_active vx) (v_priority vx) q
                         (v_model vx) (v_arch vx))).
Proof.
  intros Hcow Hwf Hrk Hi Hgen Hfuel.
  assert (Hg : is_generic v = true) by (unfold is_generic; by rewrite Hgen).
  destruct (write_generic_copies rank ctx w fuel i v vals st)
    as (st' & E & _ & _ & _ & _ & Hkeep & Hgk & Hnew); try done.
  exists st'. split; [done|]. split.
  - intros x vx' Hx Hn Hxn.
    destruct (Hnew x vx' Hx Hn Hxn) as (y & vy & Hy & Hgy & Hr & [q ->]).
    split; [done|]. by exists y, vy, q.
  - intros x vx Hx. destruct (Hkeep x vx Hx) as (vx' & Hx' & [q ->]).
    exists q. by rewrite Hx'.
Qed.

(** ** Resolution after a write *)

(** A key resolves to a candidate that precedes every other candidate in
    the order of the search. *)
Lemma get_view_id_first ctx b key themes st r :
  wf_views st →
  ctx_website_id ctx = Some b →
  website_theme_ids st (Some b) = Ok themes →
  (∃ x, views st !! x = Some r) → visible ctx r →
  get_view_id_match themes (Some b) key r →
  (∀ x vx, views st !! x = Some vx → visible ctx vx →
           get_view_id_match themes (Some b) key vx →
           vx = r ∨ pair_leb (website_order_key vx) (website_order_key r) = false) →
  get_view_id ctx (RefKey key) st = Ok (v_id r).
Proof.
  intros Hwf Hb Hth Hr Hvis Hm Hothers.
  rewrite (get_view_id_key ctx b key themes st Hb Hth).
  assert (r ∈ search_views ctx (get_view_id_domain themes (Some b) key)
                OrderWebsite st) as Hin.
  { apply elem_of_search_views. split; [done|]. by apply get_view_id_domain_eval. }
  pose proof Hin as Hin0. rewrite search_views_perm in Hin0.
  destruct (search_views _ _ _ _) as [|h rest] eqn:E.
  { by apply elem_of_nil in Hin. }
  assert (h ∈ search_views ctx (get_view_id_domain themes (Some b) key)
                OrderWebsite st) as Hh by (rewrite E; left).
  apply elem_of_search_views in Hh as [[x Hx] Hev].
  apply get_view_id_domain_eval in Hev as [Hhv Hhm].
  unfold search_views, order_views in E.
  eapply sorted_by_head in E as [_ Hmin];
    [|exact pair_leb_total|exact pair_leb_trans].
  destruct (Hothers x h Hx Hhv Hhm) as [->|Hlt]; [done|].
  rewrite (Hmin r Hin0) in Hlt. done.
Qed.



(** X17: An edit made under one website is what that website resolves,
    and only that website.  For a generic active view without theme whose
    key no other stored view has, written under the website [w] with
    values that keep the fork findable (its key, website, absence of
    theme and activity), the key resolves afterwards under [w] to the
    fork, while under any other website it resolves, as before the write,
    to the generic view. *)
Theorem write_seen_by_own_website_only
    (rank : Z → nat) (fuel : nat) (ctx : context) (w i : Z) (v : view)
    (vals : list field_val) (st : db) (themes : list Z) :
  cow_context ctx w →
  wf_views st → rank_ok rank st →
  views st !! i = Some v →
  v_website_id v = None → v_theme_id v = None → v_active v = true →
  (rank i + 2 ≤ fuel)%nat →
  (∀ x vx, views st !! x = Some vx → v_key vx = v_key v → x = i) →
  v_key (apply_vals vals (fork_of v (next_view st) w)) = v_key v →
  v_website_id (apply_vals vals (fork_of v (next_view st) w)) = Some w →
  v_theme_id (apply_vals vals (fork_of v (next_view st) w)) = None →
  v_active (apply_vals vals (fork_of v (next_view st) w)) = true →
  website_theme_ids st (Some w) = Ok themes →
  ∃ st', write fuel ctx [i] vals st = Ok st' ∧
    get_view_id ctx (RefKey (v_key v)) st' = Ok (next_view st) ∧
    ∀ ctx_b b themes_b,
      ctx_website_id ctx_b = Some b → b ≠ w →
      website_theme_ids st (Some b) = Ok themes_b →
      get_view_id ctx_b (RefKey (v_key v)) st = Ok i ∧
      get_view_id ctx_b (RefKey (v_key v)) st' = Ok i.
Proof.
  intros Hcow Hwf Hrk Hi Hgen Hth Hact Hfuel Huniq Hfk Hfw Hft Hfa Hthemes.
  assert (Hg : is_generic v = true) by (unfold is_generic; by rewrite Hgen).
  pose proof Hcow as (_ & _ & Hw & Hw0).
  destruct (write_generic_copies rank ctx w fuel i v vals st)
    as (st' & E & Hwf' & Hws & Hfresh & Hn & Hkeep & Hgk & Hnew); try done.
  set (n := next_view st) in *.
  set (f := apply_vals vals (fork_of v n w)) in *.
  assert (Hfid : v_id f = n).
  { unfold f. rewrite v_id_apply_vals. unfold fork_of. by rewrite v_id_apply_vals. }
  assert (Hvid : v_id v = i) by (by destruct (Hwf i v Hi)).
  assert (Hcand : ∀ x vx, views st' !! x = Some vx → v_key vx = v_key v →
                          vx = v ∨ vx = f).
  { intros x vx Hx Hk. destruct (views st !! x) as [vx0|] eqn:E0.
    - destruct (Hkeep x vx0 E0) as (vx' & Hx' & Hs).
      assert (vx' = vx) as -> by congruence.
      rewrite (same_except_parent_key _ _ Hs) in Hk.
      assert (x = i) as -> by (by eapply Huniq).
      left. specialize (Hgk i v Hi Hg). congruence.
    - destruct (decide (x = n)) as [->|Hne]; [right; congruence|].
      exfalso. destruct (Hnew x vx Hx E0 Hne) as (y & vy & Hy & _ & Hr & [q ->]).
      simpl in Hk. assert (y = i) as -> by (by eapply Huniq). lia. }
  assert (Hrof : ∀ b, b ≠ w → Some w ≠ ref_or_false (Some b)).
  { intros b Hb. unfold ref_or_false, truthy.
    destruct (b =? 0); simpl; congruence. }
  assert (Hrofw : ref_or_false (Some w) = Some w).
  { unfold ref_or_false, truthy. by assert ((w =? 0) = false) as -> by lia. }
  exists st'. split; [done|]. split.
  - rewrite <- Hfid.
    apply (get_view_id_first ctx w (v_key v) themes st' f).
    + done.
    + done.
    + by rewrite (website_theme_ids_same st st').
    + eauto.
    + by intros _.
    + split; [done|]. right. split; [done|]. right. by rewrite Hrofw.
    + intros x vx Hx _ [Hk _].
      destruct (Hcand x vx Hx Hk) as [Ev|Ev]; rewrite Ev; [right|by left].
      unfold website_order_key, pair_leb. rewrite Hgen, Hfw. done.
  - intros ctx_b b themes_b Hb Hbw Hthb.
    assert (Hvm : get_view_id_match themes_b (Some b) (v_key v) v).
    { split; [done|]. right. split; [done|]. by left. }
    rewrite <- Hvid. split.
    + apply (get_view_id_first ctx_b b (v_key v) themes_b st v); try done.
      * eauto.
      * by intros _.
      * intros x vx Hx _ [Hk _]. left.
        assert (x = i) as -> by (by eapply Huniq). congruence.
    + apply (get_view_id_first ctx_b b (v_key v) themes_b st' v).
      * done.
      * done.
      * by rewrite (website_theme_ids_same st st').
      * exists i. by apply Hgk.
      * by intros _.
      * done.
      * intros x vx Hx _ [Hk Hm].
        destruct (Hcand x vx Hx Hk) as [Ev|Ev]; rewrite Ev in *; [by left|].
        exfalso. destruct Hm as [(t & Ht & _)|[_ [Hn0|Hn0]]].
        -- congruence.
        -- congruence.
        -- rewrite Hfw in Hn0. by apply (Hrof b).
Qed.

(** ** Writing a recordset record by record *)

Lemma write_view_theme_cw rec ctx vals i cw cw' st :
  str_in "theme_" (ctx_module ctx) = true →
  write_view rec ctx vals i (cw, st) = write_view rec ctx vals i (cw', st).
Proof. intros Hth. unfold write_view. by rewrite Hth. Qed.

Lemma write_view_keeps_cw rec ctx vals i cw st cw' st' :
  str_in "theme_" (ctx_module ctx) = false →
  write_view rec ctx vals i (cw, st) = Ok (cw', st') → cw' = cw.
Proof.
  intros Hth. unfold write_view. rewrite Hth. cbn [bind].
  destruct (if truthy cw then _ else _) as [[|]|e]; cbn [bind]; [| |done].
  - destruct (write_fork _ _ _ _ _ _); cbn [bind]; [|done]. by intros [= <- _].
  - destruct (super_write _ _ _); cbn [bind]; [|done]. by intros [= <- _].
Qed.

Lemma write_loop_cw rec ctx vals self cw cw' st :
  str_in "theme_" (ctx_module ctx) = true →
  (do r <- for_each (write_view rec ctx vals) self (cw, st); Ok r.2) =
  (do r <- for_each (write_view rec ctx vals) self (cw', st); Ok r.2).
Proof.
  intros Hth. destruct self as [|i self]; [done|].
  cbn [for_each]. by rewrite (write_view_theme_cw rec ctx vals i cw cw' st Hth).
Qed.

Lemma write_cons fuel ctx i self vals st :
  write (S fuel) ctx (i :: self) vals st =
  do st' <- write (S fuel) ctx [i] vals st; write (S fuel) ctx self vals st'.
Proof.
  cbn [write]. destruct (negb (ctx_no_cow ctx)); [|apply super_write_cons].
  cbn [for_each].
  destruct (write_view (write fuel) ctx vals i (ctx_website_id ctx, st))
    as [[cw1 st1]|e] eqn:E; [|done].
  cbn [bind snd].
  destruct (str_in "theme_" (ctx_module ctx)) eqn:Hth.
  - apply write_loop_cw. done.
  - by rewrite (write_view_keeps_cw _ _ _ _ _ _ _ _ Hth E).
Qed.

(** X18: [write] on a recordset is the sequence of the writes on its
    records, one after the other, each on the store that the previous one
    left, whatever the context: the current website that the loop resets
    during a theme update does not leak from one record to the next, and
    a failure stops the sequence. *)
Theorem write_record_by_record
    (fuel : nat) (ctx : context) (l1 l2 : list Z) (vals : list field_val) (st : db) :
  write (S fuel) ctx (l1 ++ l2) vals st =
  do st' <- write (S fuel) ctx l1 vals st; write (S fuel) ctx l2 vals st'.
Proof.
  revert st. induction l1 as [|i l1 IH]; intros st.
  { rewrite app_nil_l.
    assert (write (S fuel) ctx [] vals st = Ok st) as ->; [|done].
    cbn [write for_each bind]. by destruct (negb (ctx_no_cow ctx)). }
  rewrite <- app_comm_cons.
  rewrite (write_cons fuel ctx i (l1 ++ l2)), (write_cons fuel ctx i l1).
  destruct (write (S fuel) ctx [i] vals st) as [st1|e]; [|done].
  cbn [bind]. apply IH.
Qed.

(** ** Pages of a fork *)

Lemma menus_loop_next_page ctx ms n : ∀ st,
  next_page (fold_left (λ st menu, menu_write ctx menu n st) ms st) = next_page st.
Proof.
  induction ms as [|m ms IH]; intros st; simpl; [done|].
  rewrite IH. unfold menu_write. by destruct (menu_cow ctx m).
Qed.

Lemma pages_loop_next_page ctx n : ∀ ps st,
  next_page (fold_left (copy_page_and_menus ctx n) ps st) =
  next_page st + Z.of_nat (length ps).
Proof.
  induction ps as [|p ps IH]; intros st; simpl fold_left; [simpl; lia|].
  rewrite IH. unfold copy_page_and_menus, page_copy.
  rewrite menus_loop_next_page. simpl. lia.
Qed.

(** X19: [_create_website_specific_pages_for_view] leaves the table of
    views as it is and allocates exactly one page id per page of the
    view: nothing is created for a view without pages. *)
Theorem create_pages_one_per_page (ctx : context) (self new_view : Z) (st : db) :
  let st' := _create_website_specific_pages_for_view ctx self new_view st in
  views st' = views st ∧ next_view st' = next_view st ∧
  next_page st' = next_page st + Z.of_nat (length (page_ids st self)) ∧
  (page_ids st self = [] → st' = st).
Proof.
  simpl. destruct (create_pages_views ctx self new_view st) as (Hv & Hn & _).
  split; [done|]. split; [done|]. split.
  - apply pages_loop_next_page.
  - unfold _create_website_specific_pages_for_view. by intros ->.
Qed.

(** ** Instances on the sample data *)

Lemma filter_duplicate_distinct_keys_witness :
  ∃ res,
    filter_duplicate ex_ctx
      [ex_view 2 "l" (Some 2) None true; ex_view 1 "k" None None true] = Ok res ∧
    res ≡ₚ [ex_view 2 "l" (Some 2) None true; ex_view 1 "k" None None true].
Proof.
  destruct (filter_duplicate_distinct_keys ex_ctx
              [ex_view 2 "l" (Some 2) None true; ex_view 1 "k" None None true])
    as (res & E & Hp & _).
  - reflexivity.
  - apply (bool_decide_unpack _). vm_compute. exact I.
  - exists res. split; [exact E|exact Hp].
Defined.

Lemma filter_duplicate_idempotent_witness :
  filter_duplicate ex_ctx [ex_view 2 "k" (Some 1) None false]
  = Ok [ex_view 2 "k" (Some 1) None false].
Proof.
  refine (filter_duplicate_idempotent ex_ctx
            [ex_view 1 "k" None None true; ex_view 2 "k" (Some 1) None false]
            [ex_view 2 "k" (Some 1) None false] _ _).
  - intros a b Ha Hb Hid.
    repeat (apply elem_of_cons in Ha as [->|Ha]);
      try (by apply elem_of_nil in Ha);
      repeat (apply elem_of_cons in Hb as [->|Hb]);
      try (by apply elem_of_nil in Hb);
      first [reflexivity | discriminate Hid].
  - vm_compute. reflexivity.
Defined.

Lemma filter_duplicate_order_independent_witness :
  filter_duplicate ex_ctx
    [ex_view 1 "k" None None true; ex_view 2 "k" (Some 1) None false]
  = filter_duplicate ex_ctx
      [ex_view 2 "k" (Some 1) None false; ex_view 1 "k" None None true].
Proof.
  refine (filter_duplicate_order_independent ex_ctx
            [ex_view 1 "k" None None true; ex_view 2 "k" (Some 1) None false]
            [ex_view 2 "k" (Some 1) None false; ex_view 1 "k" None None true]
            _ _ _).
  - apply Permutation_swap.
  - intros a b Ha Hb Hid.
    repeat (apply elem_of_cons in Ha as [->|Ha]);
      try (by apply elem_of_nil in Ha);
      repeat (apply elem_of_cons in Hb as [->|Hb]);
      try (by apply elem_of_nil in Hb);
      first [reflexivity | discriminate Hid].
  - intros a b Ha Hb Hk Hw.
    repeat (apply elem_of_cons in Ha as [->|Ha]);
      try (by apply elem_of_nil in Ha);
      repeat (apply elem_of_cons in Hb as [->|Hb]);
      try (by apply elem_of_nil in Hb);
      first [reflexivity | discriminate Hw].
Defined.

Lemma write_without_website_is_direct_witness :
  write 1 ex_ctx_none [1; 3] [FArch "<div/>"] ex_db =
  super_write [1; 3] [FArch "<div/>"] ex_db.
Proof.
  refine (proj1 (write_without_website_is_direct 0 ex_ctx_none [1; 3]
                   [FArch "<div/>"] ex_db _)).
  right. split; reflexivity.
Defined.

Lemma write_specific_views_is_direct_witness :
  ∃ st', write 1 ex_ctx [3] [FArch "<div/>"] ex_db = Ok st' ∧
         next_view st' = next_view ex_db.
Proof.
  destruct (write_specific_views_is_direct 0 ex_ctx 1 [3] [FArch "<div/>"] ex_db)
    as [_ (st' & E & _ & Hn)].
  - by repeat split.
  - apply NoDup_singleton.
  - intros i Hi. apply list_elem_of_singleton in Hi as ->.
    eexists. split; [reflexivity|]. split; [discriminate|reflexivity].
  - exists st'. split; [exact E|exact Hn].
Defined.

Lemma unlink_without_copies_witness :
  ∃ deleted, unlink 0 ex_ctx_none [1] ex_db = Ok (super_unlink deleted ex_db, deleted) ∧
             next_view (super_unlink deleted ex_db) = 4.
Proof.
  destruct (unlink_without_copies 0 ex_ctx_none [1] ex_db)
    as (deleted & E & _ & _ & Hn).
  - left. reflexivity.
  - exact ex_db_wf.
  - intros i Hi. apply list_elem_of_singleton in Hi as ->. eexists. reflexivity.
  - exists deleted. split; [exact E|exact Hn].
Defined.

Lemma cou_key_separates_websites_witness :
  cou_key "website.page" 2 ≠ cou_key "website.page" 3.
Proof.
  refine (proj1 (cou_key_separates_websites "website.page" 2 3 _)). lia.
Defined.

Lemma view_obj_key_resolves_to_one_witness :
  ∃ r, _view_obj (A:=Empty_set) ex_ctx (RefKey "website.page") ex_db
       = Ok (inl [v_id r]) ∧ v_key r = "website.page".
Proof.
  destruct (view_obj_key_resolves_to_one (A:=Empty_set) ex_ctx "website.page" ex_db)
    as (r & E & _ & Hk & _).
  - exact ex_db_wf.
  - intros i v w' H Hw. apply elem_of_list_to_map_2 in H.
    repeat (apply elem_of_cons in H as [H|H];
            [injection H as -> ->; simpl in Hw;
             first [discriminate Hw | injection Hw as <-; lia]|]).
    by apply elem_of_nil in H.
  - vm_compute. discriminate.
  - exists r. split; [exact E|exact Hk].
Defined.

Lemma get_view_id_prefers_website_view_witness :
  ∃ r, get_view_id ex_ctx_all (RefKey "website.patch") ex_db_inherit = Ok (v_id r) ∧
       is_Some (v_website_id r).
Proof.
  destruct (get_view_id_prefers_website_view ex_ctx_all 1 "website.patch" []
              ex_db_inherit (ex_view 12 "website.patch" (Some 1) (Some 10) false))
    as (r & E & _ & _ & _ & Hs & _).
  - exact ex_db_inherit_wf.
  - reflexivity.
  - lia.
  - reflexivity.
  - exists 12. reflexivity.
  - intros H. discriminate H.
  - reflexivity.
  - reflexivity.
  - reflexivity.
  - exists r. split; [exact E|exact Hs].
Defined.


Lemma get_inheriting_views_arch_website_witness :
  ∃ l, get_inheriting_views_arch ex_ctx 10 "ir.ui.view" ex_db_inherit =
         Ok (map (λ v, (v_arch v, v_id v)) l) ∧
       NoDup (v_key <$> l).
Proof.
  destruct (get_inheriting_views_arch_website ex_ctx 1 10 "ir.ui.view" []
              ex_db_inherit) as (dom & Hdom & _ & Hok).
  - exact ex_db_inherit_wf.
  - reflexivity.
  - lia.
  - reflexivity.
  - destruct Hok as (l & E & Hnd & _).
    + vm_compute in Hdom. injection Hdom as <-. vm_compute. reflexivity.
    + exists l. split; [exact E|exact Hnd].
Defined.

Lemma get_related_views_most_specific_witness :
  ∃ res, get_related_views ex_ctx_none 2 (λ _ _, Ok [1; 2; 3]) ex_db = Ok res ∧
         NoDup res.
Proof.
  destruct (get_related_views_most_specific ex_ctx_none 2 (λ _ _, Ok [1; 2; 3])
              ex_db [1; 2; 3]) as [_ H].
  - reflexivity.
  - intros i Hi.
    repeat (apply elem_of_cons in Hi as [->|Hi]; [eexists; reflexivity|]).
    by apply elem_of_nil in Hi.
  - destruct H as (res & E & Hnd & _); [lia|].
    exists res. split; [exact E|exact Hnd].
Defined.

Lemma theme_update_ambiguous_external_id_witness :
  write 1 ex_ctx_theme [1; 2] [FArch "<div/>"] ex_db_two_ids = Err ExpectedSingleton.
Proof.
  refine (proj2 (theme_update_ambiguous_external_id 0 ex_ctx_theme 1 [2]
                   [FArch "<div/>"] ex_db_two_ids
                   (mkModelData "website" "page" "ir.ui.view" 1)
                   (mkModelData "website_blog" "page" "ir.ui.view" 1) [] _ _ _));
    reflexivity.
Defined.


Lemma write_creates_only_website_copies_witness :
  ∃ st', write 3 ex_ctx [1] [FName "X"] ex_db = Ok st' ∧
    ∀ x vx', views st' !! x = Some vx' → views ex_db !! x = None → x ≠ 4 →
             v_website_id vx' = Some 1.
Proof.
  destruct (write_creates_only_website_copies ex_rank 3 ex_ctx 1 1
              (ex_view 1 "website.page" None None true) [FName "X"] ex_db)
    as (st' & E & Hnew & _).
  - by repeat split.
  - exact ex_db_wf.
  - exact ex_db_rank_ok.
  - reflexivity.
  - reflexivity.
  - vm_compute. lia.
  - exists st'. split; [exact E|]. intros x vx' Hx Hn Hx4.
    exact (proj1 (Hnew x vx' Hx Hn Hx4)).
Defined.

Lemma write_seen_by_own_website_only_witness :
  ∃ st', write 3 ex_ctx [1] [FArch "<div/>"] ex_db = Ok st' ∧
    get_view_id ex_ctx (RefKey "website.page") st' = Ok 4 ∧
    get_view_id ex_ctx_2 (RefKey "website.page") st' = Ok 1.
Proof.
  destruct (write_seen_by_own_website_only ex_rank 3 ex_ctx 1 1
              (ex_view 1 "website.page" None None true) [FArch "<div/>"] ex_db [])
    as (st' & E & Hw & Hb).
  - by repeat split.
  - exact ex_db_wf.
  - exact ex_db_rank_ok.
  - reflexivity.
  - reflexivity.
  - reflexivity.
  - reflexivity.
  - vm_compute. lia.
  - intros x vx H Hk. apply elem_of_list_to_map_2 in H.
    repeat (apply elem_of_cons in H as [H|H];
            [injection H as -> ->; simpl in Hk;
             first [reflexivity | discriminate Hk]|]).
    by apply elem_of_nil in H.
  - reflexivity.
  - reflexivity.
  - reflexivity.
  - reflexivity.
  - reflexivity.
  - exists st'. split; [exact E|]. split; [exact Hw|].
    refine (proj2 (Hb ex_ctx_2 2 [] _ _ _)); [reflexivity|lia|reflexivity].
Defined.
